(** * het_hap_phaser: trio phasing around an index variant

    A shallow embedding of [het_hap_phaser.py].  Python values are modelled
    as the program uses them: a [GT] tuple is a list of allele indices with
    [None] for a missing call, dictionaries are finite maps, rows are lists
    of cells, exceptions are results, and the objects the functions share
    (the [reverse_allele_order] dictionary, the logger, the output handle)
    live in one explicit world that every effectful function threads. *)

From Stdlib Require Import ZArith QArith Ascii.
From Stdlib Require OrderedTypeEx.
From stdpp Require Import base option list gmap strings pretty sorting.

(** ** Exceptions and the world *)

Inductive exn : Type :=
  | KeyError | IndexError | TypeError | ValueError | RuntimeError.

Inductive result (A : Type) : Type :=
  | Ok (a : A)
  | Raise (e : exn).
Arguments Ok {A} a.
Arguments Raise {A} e.

(** One value of the objects that end up in a row (a Python list). *)
Inductive cell : Type :=
  | CStr (s : string)
  | CInt (z : Z)
  | CRatio (ac an : nat)      (* the float [ac/an], kept as the exact quotient *)
  | CBool (b : bool).

#[global] Instance cell_eq_dec : EqDecision cell.
Proof. solve_decision. Defined.

Abbreviation row := (list cell).

(** What [out_fh.write] receives: each call writes one line. *)
Inductive line : Type :=
  | CommandLine (argv : list string)
  | HeaderLine (cols : list string)
  | RowLine (r : row).

(** One constructor per logging call of the program. *)
Inductive logrecord : Type :=
  | SearchingGnomad (chrom : string) (pos : Z) (ref alt : string)
  | SkipAbsentRef
  | SkipLowAf
  | SkipNonBiallelic (chrom : string) (pos : Z)
  | SkipIndel (chrom : string) (pos : Z)
  | DeNovo (s chrom : string) (pos : Z) (ref alt : string)
  | SkipNoAlt (chrom : string) (pos : Z)
  | SearchingRegion (chrom : string) (start end_ : Z)
  | Progress (n w : nat) (chrom : string) (pos : Z)
  | SkipBed
  | SkipNoCalls (chrom pos : cell)
  | SkipNotAllPhased (chrom pos : cell)
  | SkipNotInformative (chrom pos : cell)
  | SearchingInput.

Inductive level : Type := DEBUG | INFO | WARNING.

Definition level_of (r : logrecord) : level :=
  match r with
  | DeNovo _ _ _ _ _ => WARNING
  | SearchingRegion _ _ _ | Progress _ _ _ _ | SearchingInput => INFO
  | _ => DEBUG
  end.

Definition is_warning (r : logrecord) : bool :=
  match level_of r with WARNING => true | _ => false end.

Record World : Type := mkWorld {
  reverse_allele_order : gmap string bool;   (* defaultdict(bool) *)
  logged : list logrecord;                   (* records passed to the logger *)
  written : list line                        (* lines written to out_fh *)
}.

Definition M (A : Type) : Type := World → result A * World.

#[global] Instance M_ret : MRet M := λ A a w, (Ok a, w).
#[global] Instance M_bind : MBind M := λ A B f m w,
  match m w with
  | (Ok a, w') => f a w'
  | (Raise e, w') => (Raise e, w')
  end.

Definition raise {A} (e : exn) : M A := λ w, (Raise e, w).

Definition lift {A} (r : result A) : M A := λ w, (r, w).

Definition log (r : logrecord) : M unit := λ w,
  (Ok tt, mkWorld (reverse_allele_order w) (logged w ++ [r]) (written w)).

Definition write (l : line) : M unit := λ w,
  (Ok tt, mkWorld (reverse_allele_order w) (logged w) (written w ++ [l])).

(** [reverse_allele_order[s]] on a [defaultdict(bool)]: a missing key is
    inserted with [False] before it is returned. *)
Definition read_flag (s : string) : M bool := λ w,
  match reverse_allele_order w !! s with
  | Some b => (Ok b, w)
  | None => (Ok false,
             mkWorld (<[s:=false]> (reverse_allele_order w)) (logged w) (written w))
  end.

(** [reverse_allele_order[s] = True] *)
Definition set_flag (s : string) : M unit := λ w,
  (Ok tt, mkWorld (<[s:=true]> (reverse_allele_order w)) (logged w) (written w)).

(** The flag of a sample as every later read sees it. *)
Definition flag (m : gmap string bool) (s : string) : bool := default false (m !! s).

(** A [for] loop that updates its local variables and stops at an exception. *)
Fixpoint foldM {A B} (f : A → B → M A) (l : list B) (a : A) : M A :=
  match l with
  | [] => mret a
  | x :: l' => a' ← f a x; foldM f l' a'
  end.

(** ** Python built-ins on tuples and strings *)

(** A genotype tuple: allele indices, [None] for a missing call. *)
Abbreviation gt := (list (option nat)).

Definition py_in {A} `{EqDecision A} (x : A) (l : list A) : bool := bool_decide (x ∈ l).

(** [len(set(t))] *)
Definition len_set (t : gt) : nat := length (remove_dups t).

(** The indices of a tuple without [None]; [None] when [None in t]. *)
Definition all_called (t : gt) : option (list nat) := mapM id t.

(** [max(t)] on a tuple of allele indices: any comparison with [None]
    is a TypeError, the empty tuple a ValueError. *)
Definition py_max (t : gt) : result (option nat) :=
  match t with
  | [] => Raise ValueError
  | [a] => Ok a
  | _ => match all_called t with
         | None => Raise TypeError
         | Some ns => Ok (Some (max_list ns))
         end
  end.

(** [max(t)] where [None not in t] has been checked. *)
Definition max_called (ns : list nat) : result nat :=
  match ns with
  | [] => Raise ValueError
  | _ => Ok (max_list ns)
  end.

(** [t[i]] *)
Definition index {A} (t : list A) (i : nat) : result A :=
  match t !! i with
  | Some a => Ok a
  | None => Raise IndexError
  end.

(** [str.join(sep, l)] *)
Fixpoint join (sep : string) (l : list string) : string :=
  match l with
  | [] => ""
  | [s] => s
  | s :: l' => s +:+ sep +:+ join sep l'
  end.

(** [s.split(sep)] for a one-character separator. *)
Fixpoint split (sep : Ascii.ascii) (s : string) : list string :=
  match s with
  | EmptyString => [""]
  | String c r =>
      if bool_decide (c = sep) then "" :: split sep r
      else match split sep r with
           | h :: t => String c h :: t
           | [] => [String c ""]
           end
  end.

(** [d[k]] on a dictionary. *)
Definition getitem {V} (d : gmap string V) (k : string) : result V :=
  match d !! k with
  | Some v => Ok v
  | None => Raise KeyError
  end.

(** Sequencing inside [result], for the functions without effects. *)
#[global] Instance result_ret : MRet result := λ A a, Ok a.
#[global] Instance result_bind : MBind result := λ A B f r,
  match r with
  | Ok a => f a
  | Raise e => Raise e
  end.

Fixpoint mapR {A B} (f : A → result B) (l : list A) : result (list B) :=
  match l with
  | [] => Ok []
  | x :: l' => y ← f x; ys ← mapR f l'; Ok (y :: ys)
  end.

(** ** The collaborators, as far as the program uses them *)

(** One minimal REF/ALT pair of a record ([DECOMPOSED_ALLELES]). *)
Record AltAllele : Type := mkAltAllele {
  aCHROM : string; aPOS : Z; aREF : string; aALT : string
}.

#[global] Instance AltAllele_eq_dec : EqDecision AltAllele.
Proof. solve_decision. Defined.

Record VcfRecord : Type := mkVcfRecord {
  CHROM : string;
  POS : Z;
  ID : string;
  REF : string;
  ALT : string;
  ALLELES : list string;
  SPAN : Z;
  DECOMPOSED_ALLELES : list AltAllele;
  INFO_FIELDS : gmap string string;
  GT : gmap string gt                    (* [parsed_gts(...)['GT']] *)
}.

Record Individual : Type := mkIndividual {
  fid : string;
  father : option string;
  mother : option string
}.

Record PedFile : Type := mkPedFile { individuals : gmap string Individual }.

(** [gt_filter.gt_is_ok(gts, sample, allele)], [gts] being those of the record. *)
Record GtFilter : Type := mkGtFilter { gt_is_ok : VcfRecord → string → nat → bool }.

(** [set_region] followed by the iteration over [parser]. *)
Record VcfReader : Type := mkVcfReader {
  header_samples : list string;
  fetch : string → Z → Z → list VcfRecord
}.

Record GnomadFilter : Type := mkGnomadFilter {
  get_overlapping_records : VcfRecord → list VcfRecord
}.

(** Truth value of [avoid_bed.fetch(chrom, pos, span)]. *)
Record BedFinder : Type := mkBedFinder { bed_fetch : string → Z → Z → bool }.

(** ** parse_haplotypes *)

(** The local variables of the loop over the samples. *)
Record Locals : Type := mkLocals {
  calls : list string;
  alleles : list (string * string);
  sample_no_calls : gset string;
  allele_in_phase : gmap string (option nat);
  sample_with_alt : bool
}.

Definition init_locals : Locals := mkLocals [] [] ∅ ∅ false.

(** [var.ALLELES[x]] *)
Definition allele_of (var : VcfRecord) (x : option nat) : result string :=
  match x with
  | None => Raise TypeError
  | Some i => index (ALLELES var) i
  end.

(** [str.join(sep, (var.ALLELES[x] for x in sgt))] *)
Definition join_alleles (sep : string) (var : VcfRecord) (sgt : gt) : result string :=
  l ← mapR (allele_of var) sgt; Ok (join sep l).

Definition no_call (s : string) (st : Locals) : Locals :=
  mkLocals (calls st ++ ["NoCall"]) (alleles st ++ [("NoCall", "NoCall")])
           ({[s]} ∪ sample_no_calls st) (allele_in_phase st) (sample_with_alt st).

Definition append_call (c : string) (al : string * string) (st : Locals) : Locals :=
  mkLocals (calls st ++ [c]) (alleles st ++ [al])
           (sample_no_calls st) (allele_in_phase st) (sample_with_alt st).

Definition set_in_phase (s : string) (a : option nat) (st : Locals) : Locals :=
  mkLocals (calls st) (alleles st)
           (sample_no_calls st) (<[s:=a]> (allele_in_phase st)) (sample_with_alt st).

Definition saw_alt (st : Locals) : Locals :=
  mkLocals (calls st) (alleles st) (sample_no_calls st) (allele_in_phase st) true.

(** The unphased report: the slash-joined genotype, twice as the allele pair. *)
Definition unphased (var : VcfRecord) (sgt : gt) (st : Locals) : M Locals :=
  c ← lift (join_alleles "/" var sgt);
  mret (append_call c (c, c) st).

(** Lines 195-198 and 199-202: the genotype of a parent, [()] when it is
    not to be used. *)
Definition parent_gt (gt_filter : GtFilter) (var : VcfRecord) (p : option string) : result gt :=
  match p with
  | None => Ok []
  | Some f =>
      fgt ← getitem (GT var) f;
      match all_called fgt with
      | None => Ok []
      | Some ns =>
          a ← max_called ns;
          Ok (if gt_is_ok gt_filter var f a then fgt else [])
      end
  end.

(** A tuple is true when it is not empty. *)
Definition truthy {A} (t : list A) : bool :=
  match t with [] => false | _ => true end.

(** Lines 210-214 with [pgt] the father and [ogt] the mother, and lines
    215-219 with the two exchanged. *)
Definition transmitted (pgt ogt : gt) : option nat :=
  if py_in (Some 1) pgt then
    if negb (py_in (Some 0) pgt) || (negb (py_in (Some 1) ogt) && truthy ogt)
    then Some 1 else None
  else if truthy pgt then Some 0 else None.

(** [int(x == 0)] *)
Definition int_is_zero (x : nat) : nat := if decide (x = 0) then 1 else 0.

(** Lines 220-228: [None] when neither side is determined, else the pair
    [(pat, mat)] with the undetermined side filled in. *)
Definition complete_sides (pat mat : option nat) : option (nat * nat) :=
  match mat, pat with
  | None, None => None
  | None, Some p => Some (p, int_is_zero p)
  | Some m, None => Some (int_is_zero m, m)
  | Some m, Some p => Some (p, m)
  end.

(** Lines 237-247: the phased report. *)
Definition report_phase (var : VcfRecord) (index_var : bool) (s : string)
    (pat mat : nat) (st : Locals) : M Locals :=
  _ ← (if index_var && bool_decide (mat = 1) && bool_decide (pat = 0)
       then set_flag s else mret tt);
  rev ← read_flag s;
  let (first, second) := if rev : bool then (mat, pat) else (pat, mat) in
  a1 ← lift (index (ALLELES var) first);
  a2 ← lift (index (ALLELES var) second);
  mret (append_call (a1 +:+ "|" +:+ a2) (a1, a2) (set_in_phase s (Some first) st)).

(** Lines 203-247: a heterozygous sample, the genotypes of its parents
    being [fgt] and [mgt] ([()] when not usable). *)
Definition phase_het (var : VcfRecord) (index_var : bool) (s : string)
    (sgt fgt mgt : gt) (st : Locals) : M Locals :=
  if negb (truthy fgt) && negb (truthy mgt) then unphased var sgt st
  else
    match complete_sides (transmitted fgt mgt) (transmitted mgt fgt) with
    | None => unphased var sgt st
    | Some (pat, mat) =>
        if bool_decide (mat = pat) then
          _ ← log (DeNovo s (CHROM var) (POS var) (REF var) (ALT var));
          unphased var sgt st
        else report_phase var index_var s pat mat st
    end.

(** The body of the loop over the samples, lines 171-247. *)
Definition phase_sample (ped_file : PedFile) (gt_filter : GtFilter)
    (var : VcfRecord) (index_var : bool) (st : Locals) (s : string) : M Locals :=
  if negb (gt_is_ok gt_filter var s 0) || negb (gt_is_ok gt_filter var s 1)
  then mret (no_call s st)
  else
    sgt ← lift (getitem (GT var) s);
    if bool_decide (len_set sgt = 1) && py_in None sgt then mret (no_call s st)
    else
      let st := if py_in (Some 1) sgt then saw_alt st else st in
      if bool_decide (len_set sgt = 1) then
        c ← lift (join_alleles "|" var sgt);
        g0 ← lift (index sgt 0);
        a0 ← lift (allele_of var g0);
        g1 ← lift (index sgt 1);
        a1 ← lift (allele_of var g1);
        mret (set_in_phase s g0 (append_call c (a0, a1) st))
      else
        _ ← lift (py_max sgt);
        ind ← lift (getitem (individuals ped_file) s);
        fgt ← lift (parent_gt gt_filter var (father ind));
        mgt ← lift (parent_gt gt_filter var (mother ind));
        phase_het var index_var s sgt fgt mgt st.

(** [str.join("/", (str(x) for x in sorted(t)))], the key into [counts]. *)
Definition gt_key (ns : list nat) : string :=
  join "/" (pretty <$> merge_sort Nat.le ns).

Definition init_counts : gmap string nat :=
  <["0/0":=0]> (<["0/1":=0]> (<["1/1":=0]> ∅)).

(** The body of the loop over the unrelated samples, lines 253-256. *)
Definition count_unrelated (gt_filter : GtFilter) (var : VcfRecord)
    (counts : gmap string nat) (u : string) : result (gmap string nat) :=
  ugt ← getitem (GT var) u;
  match all_called ugt with
  | None => Ok counts
  | Some ns =>
      a ← max_called ns;
      if gt_is_ok gt_filter var u a then
        n ← getitem counts (gt_key ns);
        Ok (<[gt_key ns:=S n]> counts)
      else Ok counts
  end.

Fixpoint foldR {A B} (f : A → B → result A) (l : list B) (a : A) : result A :=
  match l with
  | [] => Ok a
  | x :: l' => a' ← f a x; foldR f l' a'
  end.

(** [phased.count(0)] *)
Definition count_ref (phased : list (option nat)) : nat :=
  length (filter (λ a, a = Some 0) phased).

(** Lines 260-267: the dominant phase allele. *)
Definition dominant (phased : list (option nat)) : option nat :=
  if truthy phased then
    let ref_phase := count_ref phased in
    let alt_phase := length phased - ref_phase in
    if decide (alt_phase < ref_phase) then Some 0
    else if decide (ref_phase < alt_phase) then Some 1
    else None
  else None.

(** Lines 258, 261-263 and 268. *)
Definition in_phase_count (phased : list (option nat)) : nat :=
  if truthy phased then
    let ref_phase := count_ref phased in
    let alt_phase := length phased - ref_phase in
    ref_phase `max` alt_phase
  else 0.

(** The body of the loop of lines 270-274 over the samples not in
    [allele_in_phase]. *)
Definition compat_step (var : VcfRecord) (st : Locals) (p_allele : option nat)
    (n_compat : nat) (s : string) : result nat :=
  match p_allele with
  | None => Ok n_compat
  | Some _ =>
      sgt ← getitem (GT var) s;
      Ok (if py_in p_allele sgt || bool_decide (s ∈ sample_no_calls st)
          then S n_compat else n_compat)
  end.

(** [x for x in samples if x not in allele_in_phase] *)
Definition not_phased (samples : list string) (st : Locals) : list string :=
  filter (λ x, allele_in_phase st !! x = None) samples.

(** [list(allele_in_phase.values())]; the program only counts its
    elements, so their order does not matter. *)
Definition phased_values (st : Locals) : list (option nat) :=
  snd <$> map_to_list (allele_in_phase st).

(** [sum(counts.values())] *)
Definition sum_values (counts : gmap string nat) : nat :=
  sum_list (snd <$> map_to_list counts).

(** Lines 252-303: what follows the loop over the samples, once a sample
    with the alternate allele has been seen. *)
Definition summarise (gt_filter : GtFilter) (var : VcfRecord)
    (samples unrelateds : list string) (output_alleles : bool) (st : Locals)
    : result row :=
  counts ← foldR (count_unrelated gt_filter var) unrelateds init_counts;
  let phased := phased_values st in
  let p_allele := dominant phased in
  let n_in_phase := in_phase_count phased in
  n_compat ← foldR (compat_step var st p_allele) (not_phased samples st) n_in_phase;
  hap ← (if bool_decide (n_in_phase ≠ 0) && bool_decide (p_allele ≠ None)
         then allele_of var p_allele else Ok "?");
  let cols := if output_alleles
              then concat ((λ al, [CStr al.1; CStr al.2]) <$> alleles st)
              else CStr <$> calls st in
  let an := 2 * sum_values counts in
  het ← getitem counts "0/1";
  hom ← getitem counts "1/1";
  let ac := het + 2 * hom in
  let af := if decide (an = 0) then CInt 0 else CRatio ac an in
  Ok ([CStr (CHROM var); CInt (POS var); CStr (ID var); CStr (REF var); CStr (ALT var)]
      ++ [CStr hap; CInt (Z.of_nat n_in_phase); CInt (Z.of_nat n_compat)]
      ++ cols
      ++ [CInt (Z.of_nat an); af;
          CBool (truthy phased);
          CBool (bool_decide (length phased = length samples));
          CInt (Z.of_nat (size (sample_no_calls st)))]).

(** The loop over the samples, lines 170-247. *)
Definition phase_samples (ped_file : PedFile) (gt_filter : GtFilter)
    (var : VcfRecord) (index_var : bool) (samples : list string) : M Locals :=
  foldM (phase_sample ped_file gt_filter var index_var) samples init_locals.

Definition parse_haplotypes (var : VcfRecord) (samples unrelateds : list string)
    (ped_file : PedFile) (gt_filter : GtFilter)
    (output_alleles index_var : bool) : M (option row) :=
  match ALLELES var with
  | [a0; a1] =>
      if bool_decide (String.length a0 ≠ String.length a1) then
        _ ← log (SkipIndel (CHROM var) (POS var)); mret None
      else
        st ← phase_samples ped_file gt_filter var index_var samples;
        if negb (sample_with_alt st) then
          _ ← log (SkipNoAlt (CHROM var) (POS var)); mret None
        else
          r ← lift (summarise gt_filter var samples unrelateds output_alleles st);
          mret (Some r)
  | _ => _ ← log (SkipNonBiallelic (CHROM var) (POS var)); mret None
  end.

(** ** search_gnomad and output_row *)

(** The floating-point numbers of [output_row]: [float(af)], [1.0],
    subtraction and [<].  [float] raises a ValueError on a text that is not
    a number. *)
Class Float (F : Type) : Type := mkFloat {
  float : string → option F;
  f_one : F;
  f_sub : F → F → F;
  f_lt : F → F → bool
}.

(** [info[key].split(',')[i]] *)
Definition info_item (h : VcfRecord) (key : string) (i : nat) : result string :=
  v ← getitem (INFO_FIELDS h) key;
  index (split ","%char v) i.

(** The inner loop of [search_gnomad] over [range(len(h.DECOMPOSED_ALLELES))],
    from position [i] on; [None] when no allele of the hit matches. *)
Fixpoint search_hit (var h : VcfRecord) (pop : string) (i : nat)
    (ds : list AltAllele) : result (option (string * string * string)) :=
  match ds with
  | [] => Ok None
  | d :: ds' =>
      v0 ← index (DECOMPOSED_ALLELES var) 0;
      if decide (v0 = d) then
        af ← info_item h "AF" i;
        p_af ← info_item h ("AF_" +:+ pop) i;
        popmax ← info_item h "POPMAX" i;
        Ok (Some (af, p_af, popmax))
      else search_hit var h pop (S i) ds'
  end.

Fixpoint search_hits (var : VcfRecord) (pop : string) (hits : list VcfRecord)
    : result (string * string * string) :=
  match hits with
  | [] => Ok (".", ".", ".")
  | h :: hits' =>
      r ← search_hit var h pop 0 (DECOMPOSED_ALLELES h);
      match r with
      | Some t => Ok t
      | None => search_hits var pop hits'
      end
  end.

Definition search_gnomad (var : VcfRecord) (gnomad_reader : GnomadFilter)
    (pop : string) : result (string * string * string) :=
  search_hits var pop (get_overlapping_records gnomad_reader var).

(** [len(samples)]; the index row is written with [samples=None]. *)
Definition py_len (samples : option (list string)) : result nat :=
  match samples with
  | None => Raise TypeError
  | Some l => Ok (length l)
  end.

Section OutputRow.
Context {F : Type} `{Float F}.

(** [float(af)] *)
Definition to_float (af : string) : result F :=
  match float af with
  | Some x => Ok x
  | None => Raise ValueError
  end.

(** Lines 112-130 for one reader: [false] stands for [return 0]. *)
Definition passes_min_af (row_ : row) (var : VcfRecord) (min_af : option F)
    (samples : option (list string)) (af : string) : M bool :=
  match min_af with
  | None => mret true
  | Some min_af =>
      n_compat ← lift (index row_ 7);
      n ← lift (py_len samples);
      if bool_decide (n_compat = CInt (Z.of_nat n)) then
        hap ← lift (index row_ 5);
        other ← (if bool_decide (af = ".") then
                   if bool_decide (hap = CStr (REF var)) then
                     _ ← log SkipAbsentRef; mret None
                   else mret (Some f_one)
                 else if bool_decide (hap = CStr (REF var)) then
                   x ← lift (to_float af); mret (Some x)
                 else
                   x ← lift (to_float af); mret (Some (f_sub f_one x)));
        match other with
        | None => mret false
        | Some other_af =>
            if f_lt other_af min_af then _ ← log SkipLowAf; mret false
            else mret true
        end
      else mret true
  end.

(** Lines 131-133. *)
Definition keep_max (mx : string * string * string) (af popmax pop : string)
    : string * string * string :=
  if bool_decide (af ≠ ".") then
    if bool_decide (mx.1.1 = ".") || String.ltb mx.1.1 af then (af, popmax, pop)
    else mx
  else mx.

(** The loop over the readers, lines 110-133; [None] stands for
    [return 0]. *)
Fixpoint annotate (row_ : row) (var : VcfRecord) (min_af : option F)
    (samples : option (list string)) (gnomad_pop : string)
    (readers : list GnomadFilter) (mx : string * string * string)
    : M (option (string * string * string)) :=
  match readers with
  | [] => mret (Some mx)
  | reader :: readers' =>
      '(af, popmax, pop) ← lift (search_gnomad var reader gnomad_pop);
      ok ← passes_min_af row_ var min_af samples af;
      if ok : bool then
        annotate row_ var min_af samples gnomad_pop readers' (keep_max mx af popmax pop)
      else mret None
  end.

Definition output_row (row_ : row) (var : VcfRecord)
    (gnomad_readers : list GnomadFilter) (min_af : option F)
    (samples : option (list string)) (gnomad_pop : string) : M nat :=
  if truthy gnomad_readers then
    _ ← log (SearchingGnomad (CHROM var) (POS var) (REF var) (ALT var));
    r ← annotate row_ var min_af samples gnomad_pop gnomad_readers (".", ".", ".");
    match r with
    | None => mret 0
    | Some (max_af, max_popmax, max_pop) =>
        _ ← write (RowLine (row_ ++ [CStr max_af; CStr max_popmax; CStr max_pop]));
        mret 1
    end
  else
    _ ← write (RowLine row_); mret 1.

End OutputRow.

(** ** parse_region, search_var and vcf_to_hap *)

(** [row.pop()] *)
Definition pop (r : row) : result (cell * row) :=
  match last r with
  | Some c => Ok (c, removelast r)
  | None => Raise IndexError
  end.

(** The truth value of a cell. *)
Definition truth (c : cell) : bool :=
  match c with
  | CStr s => negb (bool_decide (s = ""))
  | CInt z => negb (bool_decide (z = 0%Z))
  | CRatio ac _ => negb (bool_decide (ac = 0))
  | CBool b => b
  end.

(** [c > n] for an integer [n]. *)
Definition cell_gt (c : cell) (n : Z) : result bool :=
  match c with
  | CInt z => Ok (bool_decide (n < z)%Z)
  | CBool b => Ok (bool_decide (n < (if b then 1 else 0))%Z)
  | CRatio ac an => Ok (bool_decide (n * Z.of_nat an < Z.of_nat ac)%Z)
  | CStr _ => Raise TypeError
  end.

Section Scan.
Context {F : Type} `{Float F}.

(** The body of the loop of [parse_region], lines 452-492, on the counters
    [n] (variants parsed) and [w] (rows written). *)
Definition region_step (samples unrelateds : list string) (ped_file : PedFile)
    (gt_filter : GtFilter) (informative_only phased_in_all output_alleles : bool)
    (max_no_calls : option Z) (gnomad_readers : list GnomadFilter)
    (avoid_bed : option BedFinder) (min_other_allele_freq : option F)
    (gnomad_pop : string) (nw : nat * nat) (var : VcfRecord) : M (nat * nat) :=
  let '(n, w) := nw in
  _ ← (if bool_decide (n `mod` 100 = 0) && negb (bool_decide (n = 0))
       then log (Progress n w (CHROM var) (POS var)) else mret tt);
  if match avoid_bed with
     | Some b => bed_fetch b (CHROM var) (POS var) (SPAN var)
     | None => false
     end
  then _ ← log SkipBed; mret (S n, w)
  else
    r ← parse_haplotypes var samples unrelateds ped_file gt_filter
          output_alleles false;
    match r with
    | None => mret (S n, w)
    | Some row0 =>
        '(no_calls, row1) ← lift (pop row0);
        '(all_phased, row2) ← lift (pop row1);
        '(informative, row_) ← lift (pop row2);
        too_many ← match max_no_calls with
                   | None => mret false
                   | Some mx => lift (cell_gt no_calls mx)
                   end;
        if too_many : bool then
          c0 ← lift (index row_ 0); c1 ← lift (index row_ 1);
          _ ← log (SkipNoCalls c0 c1); mret (S n, w)
        else if phased_in_all then
          if truth all_phased then
            k ← output_row row_ var gnomad_readers min_other_allele_freq
                  (Some samples) gnomad_pop;
            mret (S n, w + k)
          else
            c0 ← lift (index row_ 0); c1 ← lift (index row_ 1);
            _ ← log (SkipNotAllPhased c0 c1); mret (S n, w)
        else if informative_only then
          if truth informative then
            k ← output_row row_ var gnomad_readers min_other_allele_freq
                  (Some samples) gnomad_pop;
            mret (S n, w + k)
          else
            c0 ← lift (index row_ 0); c1 ← lift (index row_ 1);
            _ ← log (SkipNotInformative c0 c1); mret (S n, w)
        else
          k ← output_row row_ var gnomad_readers min_other_allele_freq
                (Some samples) gnomad_pop;
          mret (S n, w + k)
    end.

Definition parse_region (vcf : VcfReader) (samples unrelateds : list string)
    (ped_file : PedFile) (chrom : string) (start end_ : Z)
    (gt_filter : GtFilter) (informative_only phased_in_all output_alleles : bool)
    (max_no_calls : option Z) (gnomad_readers : list GnomadFilter)
    (avoid_bed : option BedFinder) (min_other_allele_freq : option F)
    (gnomad_pop : string) : M unit :=
  _ ← log (SearchingRegion chrom start end_);
  _ ← foldM (region_step samples unrelateds ped_file gt_filter informative_only
               phased_in_all output_alleles max_no_calls gnomad_readers
               avoid_bed min_other_allele_freq gnomad_pop)
            (fetch vcf chrom (start - 1) end_) (0, 0);
  mret tt.

End Scan.

(** Whether one of the decomposed alleles of a record is the variant asked for. *)
Definition matches_var (pos : Z) (ref alt : string) (var : VcfRecord) : bool :=
  bool_decide (Exists (λ d, aPOS d = pos ∧ aREF d = ref ∧ aALT d = alt)
                      (DECOMPOSED_ALLELES var)).

Definition search_var (vcf : VcfReader) (chrom : string) (pos : Z)
    (ref alt : string) : result VcfRecord :=
  let span := (pos + Z.of_nat (String.length ref) - 1)%Z in
  match filter (λ var, matches_var pos ref alt var = true)
               (fetch vcf chrom (pos - 1) span) with
  | var :: _ => Ok var
  | [] => Raise RuntimeError
  end.

(** Lines 380-387: every sample must be in the VCF and in the PED file;
    the result is the set of their families. *)
Fixpoint check_samples (vreader : VcfReader) (ped_file : PedFile)
    (samples : list string) (families : gset string) : result (gset string) :=
  match samples with
  | [] => Ok families
  | s :: samples' =>
      if negb (py_in s (header_samples vreader)) then Raise RuntimeError
      else match individuals ped_file !! s with
           | None => Raise RuntimeError
           | Some ind => check_samples vreader ped_file samples' ({[fid ind]} ∪ families)
           end
  end.

(** Lines 388-393: the samples of the VCF outside the pedigree, and the
    first sample of every family that has not been seen. *)
Fixpoint find_unrelateds (ped_file : PedFile) (header : list string)
    (families : gset string) (unrelateds : list string) : list string :=
  match header with
  | [] => unrelateds
  | s :: header' =>
      match individuals ped_file !! s with
      | None => find_unrelateds ped_file header' families (unrelateds ++ [s])
      | Some ind =>
          if bool_decide (fid ind ∈ families)
          then find_unrelateds ped_file header' families unrelateds
          else find_unrelateds ped_file header' ({[fid ind]} ∪ families)
                               (unrelateds ++ [s])
      end
  end.

Definition tab : string := String (ascii_of_nat 9) "".

Definition header_cols (samples : list string) (output_alleles : bool)
    (gnomad_readers : list GnomadFilter) : list string :=
  let sample_cols :=
    if output_alleles
    then (λ x, x +:+ "_Allele_1" +:+ tab +:+ x +:+ "_Allele_2") <$> samples
    else samples in
  ["#CHROM"; "POS"; "ID"; "REF"; "ALT"; "HAP"; "N_IN_PHASE"; "N_COMPAT"]
    ++ sample_cols ++ ["OTHER_N_ALLELES"; "ALT_MAF"]
    ++ (if truthy gnomad_readers
        then ["gnomAD_AF"; "gnomAD_AF_POPMAX"; "POPMAX_pop"] else []).

(** [index_row[2] += "|INDEX"] *)
Definition mark_index (index_row : option row) : result row :=
  match index_row with
  | None => Raise TypeError
  | Some r =>
      c ← index r 2;
      match c with
      | CStr i => Ok (<[2:=CStr (i +:+ "|INDEX")]> r)
      | _ => Raise TypeError
      end
  end.

Section Main.
Context {F : Type} `{Float F}.

(** [vcf_to_hap] from line 373 on.  [variant] is the result of
    [parse_var_string] with the position converted, the readers, the
    pedigree and the filters are the objects built from the file names
    and thresholds, and [argv] is [sys.argv]. *)
Definition vcf_to_hap (argv : list string) (vreader : VcfReader)
    (samples : list string) (ped_file : PedFile)
    (variant : string * Z * string * string) (flanks : Z)
    (gnomad_readers : list GnomadFilter) (gt_filter : GtFilter)
    (informative_only phased_in_all : bool) (max_no_calls : option Z)
    (output_alleles : bool) (min_other_allele_freq : option F)
    (bfinder : option BedFinder) (gnomad_pop : string) : M unit :=
  let '(v_chrom, v_pos, v_ref, v_alt) := variant in
  families ← lift (check_samples vreader ped_file samples ∅);
  let unrelateds := find_unrelateds ped_file (header_samples vreader) families [] in
  _ ← log SearchingInput;
  index_var ← lift (search_var vreader v_chrom v_pos v_ref v_alt);
  if bool_decide (length (ALLELES index_var) ≠ 2) then raise RuntimeError
  else
    index_row ← parse_haplotypes index_var samples unrelateds ped_file
                  gt_filter false true;
    index_row ← lift (mark_index index_row);
    '(_, index_row) ← lift (pop index_row);
    '(_, index_row) ← lift (pop index_row);
    '(_, index_row) ← lift (pop index_row);
    _ ← write (CommandLine argv);
    _ ← write (HeaderLine (header_cols samples output_alleles gnomad_readers));
    let start := if bool_decide (flanks < v_pos)%Z then (v_pos - flanks)%Z else 1%Z in
    let end_ := (v_pos - 1)%Z in
    _ ← parse_region vreader samples unrelateds ped_file v_chrom start end_
          gt_filter informative_only phased_in_all output_alleles max_no_calls
          gnomad_readers bfinder min_other_allele_freq gnomad_pop;
    _ ← output_row index_row index_var gnomad_readers None None gnomad_pop;
    let start := (v_pos + 1)%Z in
    let end_ := (v_pos + flanks)%Z in
    parse_region vreader samples unrelateds ped_file v_chrom start end_
      gt_filter informative_only phased_in_all output_alleles max_no_calls
      gnomad_readers bfinder min_other_allele_freq gnomad_pop.

End Main.

(** ** Exact rationals as the numbers of [output_row]

    Decimal texts as frequency fields hold them: digits, an optional
    fraction, an optional exponent. *)

Fixpoint read_digits (s : string) (acc : Z) (k : nat) : Z * nat * string :=
  match s with
  | String c r =>
      match Ascii.is_nat c with
      | Some d => read_digits r (10 * acc + Z.of_nat d)%Z (S k)
      | None => (acc, k, s)
      end
  | EmptyString => (acc, k, s)
  end.

Definition pow10 (e : Z) : Q := Qpower (10 # 1) e.

Definition float_Q (s : string) : option Q :=
  let '(ip, k1, r1) := read_digits s 0 0 in
  let '(fp, k2, r2) := match r1 with
                       | String "."%char r => read_digits r ip 0
                       | _ => (ip, 0, r1)
                       end in
  if bool_decide (k1 + k2 = 0) then None
  else
    let mant := Qmult (inject_Z fp) (pow10 (- Z.of_nat k2)) in
    match r2 with
    | EmptyString => Some (Qred mant)
    | String c r3 =>
        if bool_decide (c = "e"%char) || bool_decide (c = "E"%char) then
          let '(neg, r4) := match r3 with
                            | String "-"%char r => (true, r)
                            | String "+"%char r => (false, r)
                            | _ => (false, r3)
                            end in
          let '(ex, k3, r5) := read_digits r4 0 0 in
          if bool_decide (k3 = 0) || negb (bool_decide (r5 = "")) then None
          else Some (Qred (Qmult mant (pow10 (if neg : bool then - ex else ex))))
        else None
    end.

#[global] Instance Float_Q : Float Q :=
  mkFloat Q float_Q 1%Q Qminus (λ x y, negb (Qle_bool y x)).

(** * Definitions used to state the properties *)

(** ** The allele a parent transmits (lines 208-219) *)

(** The rule as the specification words it: a usable parent transmits the
    alternate allele under the stated condition and the reference allele
    in every other case. *)
Definition transmitted_as_specified (pgt ogt : gt) : option nat :=
  if truthy pgt then
    if py_in (Some 1) pgt
       && (negb (py_in (Some 0) pgt) || (truthy ogt && negb (py_in (Some 1) ogt)))
    then Some 1 else Some 0
  else None.

(** ** What a computation leaves unchanged in the world *)

(** [preserves R m]: every run of [m], to a value or to an exception,
    ends in a world related by [R] to the one it started in. *)
Definition preserves {A} (R : relation World) (m : M A) : Prop :=
  ∀ w, R w (m w).2.

(** The worlds with the same flag for every sample. *)
Definition same_flags : relation World :=
  λ w w', ∀ s, flag (reverse_allele_order w') s = flag (reverse_allele_order w) s.

(** The worlds with the same lines written. *)
Definition same_written : relation World := λ w w', written w' = written w.

(** The worlds with the same orientation dictionary. *)
Definition same_memory : relation World :=
  λ w w', reverse_allele_order w' = reverse_allele_order w.

(** ** A heterozygous sample and its parents *)

(** [s] has an admissible heterozygous genotype [sgt] at [var], and the
    genotypes of its father and mother, as lines 195-202 leave them ([()]
    when not usable), are [fgt] and [mgt]. *)
Definition het_trio (ped_file : PedFile) (gt_filter : GtFilter) (var : VcfRecord)
    (s : string) (sgt fgt mgt : gt) : Prop :=
  gt_is_ok gt_filter var s 0 = true ∧ gt_is_ok gt_filter var s 1 = true ∧
  GT var !! s = Some sgt ∧
  (sgt = [Some 0; Some 1] ∨ sgt = [Some 1; Some 0]) ∧
  ∃ ind, individuals ped_file !! s = Some ind ∧
         parent_gt gt_filter var (father ind) = Ok fgt ∧
         parent_gt gt_filter var (mother ind) = Ok mgt.

(** The number of warnings among the records passed to the logger. *)
Definition warnings (w : World) : nat := length (filter (λ r, is_warning r = true) (logged w)).

(** The text of allele [i] at a biallelic site with alleles [a0] and [a1]. *)
Definition allele_text (a0 a1 : string) (i : nat) : string :=
  if decide (i = 0) then a0 else a1.

(** The flag of [s] that a phased report of [(pat, mat)] goes by: the one
    in memory, or, for the index variant only, true when the phase is
    maternal alternate and paternal reference. *)
Definition orientation (w : World) (index_var : bool) (s : string) (pat mat : nat) : bool :=
  (index_var && bool_decide (mat = 1) && bool_decide (pat = 0))
  || flag (reverse_allele_order w) s.

(** ** Compatibility of the samples that are not phased *)

(** Whether lines 272-274 count [s] when the dominant phase allele is
    [p_allele]. *)
Definition compatible (var : VcfRecord) (st : Locals) (p_allele : option nat)
    (s : string) : bool :=
  match p_allele, GT var !! s with
  | Some _, Some sgt => py_in p_allele sgt || bool_decide (s ∈ sample_no_calls st)
  | _, _ => false
  end.

(** The samples of interest that add one to [N_COMPAT]. *)
Definition compatible_unphased (var : VcfRecord) (samples : list string) (st : Locals)
    : list string :=
  filter (λ s, compatible var st (dominant (phased_values st)) s = true)
         (not_phased samples st).

(** ** Variants that are rejected *)

(** Both allele calls of the sample pass the filter (line 171). *)
Definition admissible (gt_filter : GtFilter) (var : VcfRecord) (s : string) : bool :=
  gt_is_ok gt_filter var s 0 && gt_is_ok gt_filter var s 1.

(** A diploid call at a biallelic site: fully missing, or two called
    alleles out of 0 and 1. *)
Definition diploid_call (sgt : gt) : Prop :=
  sgt = [None; None] ∨ ∃ a b, sgt = [Some a; Some b] ∧ a < 2 ∧ b < 2.

(** The sample carries the alternate allele in an admissible call. *)
Definition carries_alt (gt_filter : GtFilter) (var : VcfRecord) (s : string) : Prop :=
  admissible gt_filter var s = true ∧ ∃ sgt, GT var !! s = Some sgt ∧ Some 1 ∈ sgt.

(** Every admissible sample of interest has a diploid call. *)
Definition well_called (gt_filter : GtFilter) (var : VcfRecord)
    (samples : list string) : Prop :=
  ∀ s, s ∈ samples → admissible gt_filter var s = true →
       ∃ sgt, GT var !! s = Some sgt ∧ diploid_call sgt.

(** The three rejection rules: not biallelic, alleles of different
    lengths, or no sample of interest with the alternate allele. *)
Definition rejected (gt_filter : GtFilter) (var : VcfRecord)
    (samples : list string) : Prop :=
  length (ALLELES var) ≠ 2
  ∨ (∃ a0 a1, ALLELES var = [a0; a1] ∧ String.length a0 ≠ String.length a1)
  ∨ (well_called gt_filter var samples
     ∧ ∀ s, s ∈ samples → ¬ carries_alt gt_filter var s).

(** ** The frequency filter, database by database *)

Section Annotator.
Context {F : Type} `{Float F}.

(** The frequency of the allele that is not the haplotype allele, from
    the alternate frequency [af] one database gives ("." when it does not
    have the variant): nothing when the variant is absent and the
    haplotype allele is the reference, 1 when it is absent otherwise, the
    frequency itself when the haplotype allele is the reference, and 1
    minus it otherwise. *)
Definition other_allele_freq (hap_is_ref : bool) (af : string) : option F :=
  if bool_decide (af = ".") then (if hap_is_ref then None else Some f_one)
  else x ← float af; Some (if hap_is_ref then x else f_sub f_one x).

(** One database suppresses the row: the variant is absent and the
    haplotype allele is the reference, or the frequency of the other
    allele is below the threshold. *)
Definition suppressed_by (hap_is_ref : bool) (min_af : F) (af : string) : bool :=
  match other_allele_freq hap_is_ref af with
  | None => true
  | Some other_af => f_lt other_af min_af
  end.

(** The three fields kept over the answers of the databases, in order. *)
Definition kept_fields (found : list (string * string * string))
    : string * string * string :=
  fold_left (λ mx t, keep_max mx t.1.1 t.1.2 t.2) found (".", ".", ".").

(** Each database answers, and with a frequency that is a number or ".". *)
Definition answers (var : VcfRecord) (gnomad_pop : string)
    (readers : list GnomadFilter) (found : list (string * string * string)) : Prop :=
  Forall2 (λ reader t, search_gnomad var reader gnomad_pop = Ok t
                       ∧ (t.1.1 = "." ∨ is_Some (float t.1.1)))
          readers found.
End Annotator.

(** ** The rows of a scan *)


(** The same for the index variant, with its marked identifier. *)
Definition index_row_for (v : VcfRecord) (r : row) : Prop :=
  ∃ rest, r = [CStr (CHROM v); CInt (POS v); CStr (ID v +:+ "|INDEX");
               CStr (REF v); CStr (ALT v)] ++ rest.






(** ** A worked family

    A child and a sibling with their father and mother, at biallelic sites
    A/G of chromosome 1, with a filter that admits every call. *)

Module Example.

Definition gt_filter : GtFilter := mkGtFilter (λ _ _ _, true).

Definition ped_file : PedFile :=
  mkPedFile (list_to_map
    [("child", mkIndividual "F1" (Some "dad") (Some "mum"));
     ("sib", mkIndividual "F1" (Some "dad") (Some "mum"));
     ("dad", mkIndividual "F1" None None);
     ("mum", mkIndividual "F1" None None)]).

Definition site (pos : Z) (gts : list (string * gt)) : VcfRecord :=
  mkVcfRecord "1" pos "rs" "A" "G" ["A"; "G"] pos [mkAltAllele "1" pos "A" "G"]
              ∅ (list_to_map gts).

Definition ref_ref : gt := [Some 0; Some 0].
Definition ref_alt : gt := [Some 0; Some 1].
Definition alt_alt : gt := [Some 1; Some 1].
Definition missing : gt := [None; None].

(** Both parents heterozygous: neither side can be told. *)
Definition both_het : VcfRecord :=
  site 1050 [("child", ref_alt); ("sib", ref_ref); ("dad", ref_alt); ("mum", ref_alt)].


(** Only the father is called. *)
Definition father_only : VcfRecord :=
  site 900 [("child", ref_alt); ("sib", ref_ref); ("dad", ref_ref); ("mum", missing)].

(** The alternate allele comes from the mother. *)
Definition maternal_alt : VcfRecord :=
  site 1000 [("child", ref_alt); ("sib", ref_ref); ("dad", ref_ref); ("mum", ref_alt)].

(** The alternate allele comes from the father; the sibling is
    homozygous for the reference. *)
Definition paternal_alt : VcfRecord :=
  site 1300 [("child", ref_alt); ("sib", ref_ref); ("dad", ref_alt); ("mum", ref_ref)].

(** The same with a sibling that is not called. *)
Definition sib_missing : VcfRecord :=
  site 1200 [("child", ref_alt); ("sib", missing); ("dad", ref_alt); ("mum", ref_ref)].

(** No sample of interest has the alternate allele. *)
Definition no_alt : VcfRecord :=
  site 1400 [("child", ref_ref); ("sib", missing); ("dad", ref_alt); ("mum", ref_ref)].

(** The child called on one allele only. *)
Definition half_called : VcfRecord :=
  site 1500 [("child", [Some 0; None]); ("sib", ref_ref); ("dad", ref_ref); ("mum", ref_ref)].

Definition empty_world : World := mkWorld ∅ [] [].

(** The world after an index variant that set the flag of the child. *)
Definition child_reversed : World := mkWorld (<["child":=true]> ∅) [] [].

(** A record source over four sites, in ascending position; a region
    yields the records that start in it. *)
Definition sites : list VcfRecord := [father_only; maternal_alt; sib_missing; paternal_alt].

Definition vreader : VcfReader :=
  mkVcfReader ["child"; "sib"; "dad"; "mum"]
              (λ _ s e, filter (λ v, (s < POS v ≤ e)%Z) sites).

(** A frequency database that has every variant, with the given fields. *)
Definition database (af p_af popmax : string) : GnomadFilter :=
  mkGnomadFilter (λ v,
    [mkVcfRecord (CHROM v) (POS v) "." (REF v) (ALT v) (ALLELES v) (SPAN v)
                 (DECOMPOSED_ALLELES v)
                 (list_to_map [("AF", af); ("AF_POPMAX", p_af); ("POPMAX", popmax)])
                 ∅]).

(** A frequency database without any variant. *)
Definition empty_database : GnomadFilter := mkGnomadFilter (λ _, []).

(** A row whose haplotype allele is the reference and whose N_COMPAT is
    the number of samples, one. *)
Definition ref_row : row :=
  [CStr "1"; CInt 1300; CStr "rs"; CStr "A"; CStr "G"; CStr "A"; CInt 1; CInt 1;
   CStr "A|G"; CInt 0; CInt 0].

End Example.

(** No sample of interest carries the alternate allele in an admissible
    call. *)
Definition no_sample_with_alt (gt_filter : GtFilter) (var : VcfRecord)
    (samples : list string) : Prop :=
  ∀ s, s ∈ samples → ¬ carries_alt gt_filter var s.

(** The three rejection rules without any assumption on the shape of the
    genotypes. *)
Definition unusable (gt_filter : GtFilter) (var : VcfRecord)
    (samples : list string) : Prop :=
  length (ALLELES var) ≠ 2
  ∨ (∃ a0 a1, ALLELES var = [a0; a1] ∧ String.length a0 ≠ String.length a1)
  ∨ no_sample_with_alt gt_filter var samples.

(** [returns P m]: every value that [m] returns satisfies [P]. *)
Definition returns {A} (P : A → Prop) (m : M A) : Prop :=
  ∀ w a w', m w = (Ok a, w') → P a.

(** ** A record source that yields overlapping records *)




(** * Definitions for further properties of the program *)

(** ** The loop over the samples *)

(** The sample is reported as a no-call: one of its two allele calls does
    not pass the filter, or its genotype is missing throughout (lines
    171-182). *)
Definition no_call_sample (gt_filter : GtFilter) (var : VcfRecord) (s : string) : Prop :=
  admissible gt_filter var s = false
  ∨ ∃ sgt, GT var !! s = Some sgt ∧ len_set sgt = 1 ∧ None ∈ sgt.

(** What one pass of the loop body does to the locals for a sample that is
    not a no-call: one call and one allele pair more, the no-calls as they
    were, and [allele_in_phase] as it was or with an entry for the sample. *)
Definition one_call_added (s : string) (st st' : Locals) : Prop :=
  ∃ c al,
    calls st' = calls st ++ [c] ∧ alleles st' = alleles st ++ [al] ∧
    sample_no_calls st' = sample_no_calls st ∧
    (allele_in_phase st' = allele_in_phase st
     ∨ ∃ a, allele_in_phase st' = <[s:=a]> (allele_in_phase st)).

(** The locals after the samples [seen] have gone through the loop. *)
Definition loop_invariant (gt_filter : GtFilter) (var : VcfRecord)
    (seen : list string) (st : Locals) : Prop :=
  length (calls st) = length seen ∧
  length (alleles st) = length seen ∧
  (∀ s, s ∈ sample_no_calls st ↔ s ∈ seen ∧ no_call_sample gt_filter var s) ∧
  (∀ s, is_Some (allele_in_phase st !! s) → s ∈ seen ∧ ¬ no_call_sample gt_filter var s).

(** ** The background samples *)

(** The family of a sample in the pedigree, if it is there. *)
Definition family_of (ped_file : PedFile) (s : string) : option string :=
  fid <$> individuals ped_file !! s.

(** [s], coming after the samples [before] in the header, is taken as a
    background sample (lines 388-393): it is absent from the pedigree, or
    its family is none of [families] and no sample of [before] is of that
    family. *)
Definition first_of_family (ped_file : PedFile) (families : gset string)
    (before : list string) (s : string) : bool :=
  match family_of ped_file s with
  | None => true
  | Some f =>
      bool_decide ((f ∉ families) ∧ Forall (λ p, family_of ped_file p ≠ Some f) before)
  end.

(** ** The fields kept over the databases *)

(** What the loop of lines 131-133 keeps over the answers seen so far. *)
Definition kept_so_far (seen : list (string * string * string))
    (mx : string * string * string) : Prop :=
  (mx.1.1 = "." → mx = (".", ".", ".") ∧ ∀ t, t ∈ seen → t.1.1 = ".")
  ∧ (mx.1.1 ≠ "." →
     (∃ before after, seen = before ++ mx :: after ∧ ∀ t, t ∈ before → t.1.1 ≠ mx.1.1)
     ∧ ∀ t, t ∈ seen → t.1.1 ≠ "." → String.ltb mx.1.1 t.1.1 = false).

(** ** The rows of a region walk *)

(** A computation that writes nothing, or one line: a row that satisfies
    [P]. *)
Definition writes_at_most {A} (P : row → Prop) (m : M A) : Prop :=
  ∀ w, written (m w).2 = written w
       ∨ ∃ r, P r ∧ written (m w).2 = written w ++ [RowLine r].

(** The row [r] is one that [parse_region], started with the orientation
    memory of [w], may write for the variant [var]: the variant is outside
    the excluded regions, [parse_haplotypes] has returned a row for it
    whose three trailing cells pass the ceiling on no-calls and the policy
    on phasing, and [r] is that row without the three cells, followed by
    the three frequency fields when there is a database. *)
Definition accepted_row (samples unrelateds : list string) (ped_file : PedFile)
    (gt_filter : GtFilter) (informative_only phased_in_all output_alleles : bool)
    (max_no_calls : option Z) (gnomad_readers : list GnomadFilter)
    (avoid_bed : option BedFinder) (w : World) (var : VcfRecord) (r : row) : Prop :=
  (∀ b, avoid_bed = Some b → bed_fetch b (CHROM var) (POS var) (SPAN var) = false)
  ∧ ∃ w1 w2 body informative all_phased no_calls extra,
      same_flags w w1
      ∧ parse_haplotypes var samples unrelateds ped_file gt_filter output_alleles false w1
        = (Ok (Some (body ++ [CBool informative; CBool all_phased;
                              CInt (Z.of_nat no_calls)])), w2)
      ∧ (∀ mx, max_no_calls = Some mx → (Z.of_nat no_calls ≤ mx)%Z)
      ∧ (phased_in_all = true → all_phased = true)
      ∧ (phased_in_all = false → informative_only = true → informative = true)
      ∧ r = body ++ extra
      ∧ length extra = (if truthy gnomad_readers then 3 else 0).

(** The lines a region walk adds: rows that satisfy [P] of some of the
    variants of the region, in the order of the region. *)
Definition rows_such (P : VcfRecord → row → Prop) (vs : list VcfRecord)
    (w w' : World) : Prop :=
  ∃ vs' rs, vs' `sublist_of` vs ∧ Forall2 P vs' rs
            ∧ written w' = written w ++ (RowLine <$> rs).

(** The number of cells of a flanking row and of the index row. *)
Definition flank_width (samples : list string) (output_alleles : bool)
    (gnomad_readers : list GnomadFilter) : nat :=
  10 + (if output_alleles then 2 * length samples else length samples)
  + (if truthy gnomad_readers then 3 else 0).

Definition index_width (samples : list string) (gnomad_readers : list GnomadFilter) : nat :=
  10 + length samples + (if truthy gnomad_readers then 3 else 0).

(** ** A worked insertion *)

(** An insertion at position 1000 of chromosome 1, and a record source
    that has only it. *)
Definition insertion : VcfRecord :=
  mkVcfRecord "1" 1000 "ins" "A" "AT" ["A"; "AT"] 1000 [mkAltAllele "1" 1000 "A" "AT"]
              ∅ (list_to_map [("child", Example.ref_alt); ("sib", Example.ref_ref);
                              ("dad", Example.ref_alt); ("mum", Example.ref_ref)]).

Definition insertion_reader : VcfReader :=
  mkVcfReader ["child"; "sib"; "dad"; "mum"]
              (λ _ s e, filter (λ v, (s < POS v ≤ e)%Z) [insertion]).

(** ** The genotypes of the background samples *)

(** The text under which the genotype of a background sample is counted
    (line 256): its allele indices, sorted and joined by "/". *)
Definition background_key (var : VcfRecord) (u : string) : option string :=
  ugt ← GT var !! u; ns ← all_called ugt; Some (gt_key ns).

(** The background sample is counted (lines 253-254): its genotype has no
    missing allele and passes the filter at its greatest allele. *)
Definition counted (gt_filter : GtFilter) (var : VcfRecord) (u : string) : bool :=
  match GT var !! u with
  | Some ugt =>
      match all_called ugt with
      | Some ns => gt_is_ok gt_filter var u (max_list ns)
      | None => false
      end
  | None => false
  end.

(** The background sample is counted under the text [k]. *)
Definition counted_as (gt_filter : GtFilter) (var : VcfRecord) (k u : string) : bool :=
  counted gt_filter var u && bool_decide (background_key var u = Some k).

(** How many elements of a list satisfy a test. *)
Definition number_of (P : string → bool) (l : list string) : nat :=
  length (filter (λ u, P u = true) l).

(** The site of [Example.paternal_alt] with three samples outside the
    family: one heterozygous, one homozygous for the alternate allele and
    one that is not called. *)
Definition background_site : VcfRecord :=
  Example.site 1300 [("child", Example.ref_alt); ("dad", Example.ref_alt);
                     ("mum", Example.ref_ref); ("u1", Example.ref_alt);
                     ("u2", Example.alt_alt); ("u3", Example.missing)].

(** ** The decision of a step of the region walk *)

(** The world in which [parse_region] calls [parse_haplotypes] for a
    variant: after the progress record of lines 453-455, when it is due. *)
Definition after_progress (n k : nat) (var : VcfRecord) (w : World) : World :=
  if bool_decide (n `mod` 100 = 0) && negb (bool_decide (n = 0))
  then mkWorld (reverse_allele_order w)
               (logged w ++ [Progress n k (CHROM var) (POS var)]) (written w)
  else w.

(** The three trailing cells of a row pass the ceiling on no-calls and
    the policy on phasing (lines 466-491): [phased_in_all] takes
    precedence over [informative_only]. *)
Definition passes_policies (informative_only phased_in_all : bool)
    (max_no_calls : option Z) (informative all_phased : bool) (no_calls : nat) : bool :=
  match max_no_calls with
  | Some mx => bool_decide (Z.of_nat no_calls ≤ mx)%Z
  | None => true
  end
  && (if phased_in_all then all_phased
      else if informative_only then informative else true).

(** ** What a run may change in the world *)

(** From [w] to [w']: the output and the log have only grown, no flag
    that was true has been cleared, and the flags of the samples outside
    [S] are as they were. *)
Definition grows (S : list string) : relation World :=
  λ w w', written w `prefix_of` written w'
          ∧ logged w `prefix_of` logged w'
          ∧ (∀ s, flag (reverse_allele_order w) s = true
                  → flag (reverse_allele_order w') s = true)
          ∧ (∀ s, s ∉ S → flag (reverse_allele_order w') s
                          = flag (reverse_allele_order w) s).

(** * Properties *)

(** ** The allele a parent transmits *)

Lemma py_in_true {A} `{EqDecision A} (x : A) (l : list A) : py_in x l = true ↔ x ∈ l.
Proof. unfold py_in. apply bool_decide_eq_true. Qed.

Lemma py_in_false {A} `{EqDecision A} (x : A) (l : list A) : py_in x l = false ↔ x ∉ l.
Proof. unfold py_in. apply bool_decide_eq_false. Qed.

Lemma truthy_true {A} (l : list A) : truthy l = true ↔ l ≠ [].
Proof. destruct l; simpl; split; congruence. Qed.

Lemma truthy_false {A} (l : list A) : truthy l = false ↔ l = [].
Proof. destruct l; simpl; split; congruence. Qed.

Lemma transmitted_alt (pgt ogt : gt) :
  transmitted pgt ogt = Some 1
  ↔ Some 1 ∈ pgt ∧ (Some 0 ∉ pgt ∨ ((Some 1 ∉ ogt) ∧ (ogt ≠ []))).
Proof.
  unfold transmitted.
  destruct (py_in (Some 1) pgt) eqn:H1; [apply py_in_true in H1 | apply py_in_false in H1].
  - destruct (py_in (Some 0) pgt) eqn:H0; [apply py_in_true in H0 | apply py_in_false in H0];
      simpl.
    + destruct (py_in (Some 1) ogt) eqn:Ho;
        [apply py_in_true in Ho | apply py_in_false in Ho]; simpl.
      * split; [discriminate | intros (_ & [? | [? _]]); contradiction].
      * destruct (truthy ogt) eqn:Ht;
          [apply truthy_true in Ht | apply truthy_false in Ht].
        -- split; auto.
        -- split; [discriminate | intros (_ & [? | [_ ?]]); contradiction].
    + split; auto.
  - split; [destruct (truthy pgt); discriminate | intros [? _]; contradiction].
Qed.

Lemma transmitted_ref (pgt ogt : gt) :
  transmitted pgt ogt = Some 0 ↔ pgt ≠ [] ∧ Some 1 ∉ pgt.
Proof.
  unfold transmitted.
  destruct (py_in (Some 1) pgt) eqn:H1; [apply py_in_true in H1 | apply py_in_false in H1].
  - split; [| intros [_ ?]; contradiction].
    destruct (negb _ || _); discriminate.
  - destruct (truthy pgt) eqn:Ht; [apply truthy_true in Ht | apply truthy_false in Ht].
    + split; auto.
    + split; [discriminate | intros [? _]; contradiction].
Qed.

Lemma transmitted_range (pgt ogt : gt) (a : nat) :
  transmitted pgt ogt = Some a → a = 0 ∨ a = 1.
Proof.
  unfold transmitted. repeat case_match; intros [= <-]; auto.
Qed.

Lemma transmitted_unusable (ogt : gt) : transmitted [] ogt = None.
Proof. reflexivity. Qed.

(** ** What a computation leaves unchanged in the world *)

Section Preserves.
Context (R : relation World) `{!PreOrder R}.

Lemma preserves_ret {A} (a : A) : preserves R (mret a).
Proof. intros w. simpl. reflexivity. Qed.

Lemma preserves_raise {A} (e : exn) : preserves R (raise e : M A).
Proof. intros w. simpl. reflexivity. Qed.

Lemma preserves_lift {A} (r : result A) : preserves R (lift r).
Proof. intros w. simpl. reflexivity. Qed.

Lemma preserves_bind {A B} (m : M A) (f : A → M B) :
  preserves R m → (∀ a, preserves R (f a)) → preserves R (m ≫= f).
Proof.
  intros Hm Hf w. unfold mbind, M_bind.
  specialize (Hm w). destruct (m w) as [[a | e] w1]; simpl in *; [| done].
  etrans; [exact Hm | apply Hf].
Qed.

Lemma preserves_foldM {A B} (f : A → B → M A) (l : list B) (a : A) :
  (∀ a x, preserves R (f a x)) → preserves R (foldM f l a).
Proof.
  intros Hf. revert a. induction l as [| x l IH]; intros a; simpl.
  - apply preserves_ret.
  - apply preserves_bind; [apply Hf | apply IH].
Qed.
End Preserves.

(** One step of a proof that a computation preserves a relation: split a
    bind, close a leaf, or take a branch apart. *)
Ltac preserves_step :=
  match goal with
  | |- preserves _ (mbind _ _) => apply preserves_bind; [typeclasses eauto | | intros ?]
  | |- preserves _ (mret _) => apply preserves_ret; typeclasses eauto
  | |- preserves _ (raise _) => apply preserves_raise; typeclasses eauto
  | |- preserves _ (lift _) => apply preserves_lift; typeclasses eauto
  | |- preserves _ (foldM _ _ _) => apply preserves_foldM; [typeclasses eauto | intros ? ?]
  | |- preserves _ (let '(_, _) := ?p in _) => destruct p
  | |- preserves _ (if ?b then _ else _) => destruct b
  | |- preserves _ (match ?x with _ => _ end) => destruct x
  | H : preserves ?R ?m |- preserves ?R ?m => exact H
  end.

#[global] Instance same_flags_preorder : PreOrder same_flags.
Proof.
  split.
  - intros w s. reflexivity.
  - intros w1 w2 w3 H12 H23 s. rewrite H23. apply H12.
Qed.

#[global] Instance same_written_preorder : PreOrder same_written.
Proof.
  split.
  - intros w. reflexivity.
  - intros w1 w2 w3 H12 H23. unfold same_written in *. congruence.
Qed.

#[global] Instance same_memory_preorder : PreOrder same_memory.
Proof.
  split.
  - intros w. reflexivity.
  - intros w1 w2 w3 H12 H23. unfold same_memory in *. congruence.
Qed.

Lemma log_same_flags (r : logrecord) : preserves same_flags (log r).
Proof. intros w s. reflexivity. Qed.

Lemma log_same_written (r : logrecord) : preserves same_written (log r).
Proof. intros w. reflexivity. Qed.

Lemma log_same_memory (r : logrecord) : preserves same_memory (log r).
Proof. intros w. reflexivity. Qed.

Lemma write_same_flags (l : line) : preserves same_flags (write l).
Proof. intros w s. reflexivity. Qed.

Lemma write_same_memory (l : line) : preserves same_memory (write l).
Proof. intros w. reflexivity. Qed.

Lemma read_flag_same_flags (s : string) : preserves same_flags (read_flag s).
Proof.
  intros w s'. unfold read_flag, flag.
  destruct (reverse_allele_order w !! s) eqn:E; simpl; [done |].
  destruct (decide (s = s')) as [<- | Hne].
  - rewrite lookup_insert_eq, E. reflexivity.
  - rewrite lookup_insert_ne by done. reflexivity.
Qed.

Lemma read_flag_same_written (s : string) : preserves same_written (read_flag s).
Proof. intros w. unfold read_flag. destruct (_ !! _); reflexivity. Qed.

Lemma set_flag_same_written (s : string) : preserves same_written (set_flag s).
Proof. intros w. reflexivity. Qed.

Lemma read_flag_frame (s : string) (w : World) :
  logged (read_flag s w).2 = logged w ∧ written (read_flag s w).2 = written w.
Proof. unfold read_flag. destruct (_ !! _); split; reflexivity. Qed.

Lemma read_flag_value (s : string) (w : World) :
  (read_flag s w).1 = Ok (flag (reverse_allele_order w) s).
Proof. unfold read_flag, flag. destruct (_ !! _); reflexivity. Qed.

Create HintDb preserves.

#[global] Hint Resolve log_same_flags log_same_written log_same_memory
  write_same_flags write_same_memory read_flag_same_flags
  read_flag_same_written set_flag_same_written : preserves.

Ltac preserves_auto :=
  repeat first [ solve [auto with preserves] | preserves_step ].

Lemma unphased_preserves (R : relation World) `{!PreOrder R}
    (var : VcfRecord) (sgt : gt) (st : Locals) :
  preserves R (unphased var sgt st).
Proof. unfold unphased. preserves_auto. Qed.

Lemma report_phase_same_written (var : VcfRecord) (index_var : bool) (s : string)
    (pat mat : nat) (st : Locals) :
  preserves same_written (report_phase var index_var s pat mat st).
Proof. unfold report_phase. preserves_auto. Qed.

Lemma report_phase_same_flags (var : VcfRecord) (s : string)
    (pat mat : nat) (st : Locals) :
  preserves same_flags (report_phase var false s pat mat st).
Proof. unfold report_phase. simpl. preserves_auto. Qed.

Lemma phase_sample_same_written (ped_file : PedFile) (gt_filter : GtFilter)
    (var : VcfRecord) (index_var : bool) (st : Locals) (s : string) :
  preserves same_written (phase_sample ped_file gt_filter var index_var st s).
Proof.
  unfold phase_sample, phase_het.
  pose proof (unphased_preserves same_written var).
  pose proof (report_phase_same_written var index_var s).
  preserves_auto.
Qed.

Lemma phase_sample_same_flags (ped_file : PedFile) (gt_filter : GtFilter)
    (var : VcfRecord) (st : Locals) (s : string) :
  preserves same_flags (phase_sample ped_file gt_filter var false st s).
Proof.
  unfold phase_sample, phase_het.
  pose proof (unphased_preserves same_flags var).
  pose proof (report_phase_same_flags var s).
  preserves_auto.
Qed.

Lemma parse_haplotypes_same_written (var : VcfRecord) (samples unrelateds : list string)
    (ped_file : PedFile) (gt_filter : GtFilter) (output_alleles index_var : bool) :
  preserves same_written
    (parse_haplotypes var samples unrelateds ped_file gt_filter output_alleles index_var).
Proof.
  unfold parse_haplotypes, phase_samples.
  pose proof (phase_sample_same_written ped_file gt_filter var index_var).
  preserves_auto.
Qed.

Lemma parse_haplotypes_same_flags (var : VcfRecord) (samples unrelateds : list string)
    (ped_file : PedFile) (gt_filter : GtFilter) (output_alleles : bool) :
  preserves same_flags
    (parse_haplotypes var samples unrelateds ped_file gt_filter output_alleles false).
Proof.
  unfold parse_haplotypes, phase_samples.
  pose proof (phase_sample_same_flags ped_file gt_filter var).
  preserves_auto.
Qed.

(** ** A heterozygous sample *)

Lemma bind_lift_ok {A B} (r : result A) (a : A) (f : A → M B) (w : World) :
  r = Ok a → (lift r ≫= f) w = f a w.
Proof. intros ->. reflexivity. Qed.

Lemma bind_lift_pure {A B} (r : result A) (a : A) (f : A → M B) :
  r = Ok a → lift r ≫= f = f a.
Proof. intros ->. reflexivity. Qed.

(** The loop body on a heterozygous sample: past the admissibility checks
    and the look-ups, what is left is [phase_het] on locals that have seen
    the alternate allele. *)
Lemma phase_sample_het (ped_file : PedFile) (gt_filter : GtFilter) (var : VcfRecord)
    (index_var : bool) (st : Locals) (s : string) (sgt fgt mgt : gt) (w : World) :
  het_trio ped_file gt_filter var s sgt fgt mgt →
  phase_sample ped_file gt_filter var index_var st s w
  = phase_het var index_var s sgt fgt mgt (saw_alt st) w.
Proof.
  intros (Hok0 & Hok1 & Hs & Hsgt & ind & Hind & Hf & Hm).
  unfold phase_sample. rewrite Hok0, Hok1. cbn [negb orb].
  rewrite (bind_lift_ok _ sgt) by (unfold getitem; rewrite Hs; reflexivity).
  assert (Hlen : bool_decide (len_set sgt = 1) = false)
    by (destruct Hsgt as [-> | ->]; reflexivity).
  assert (Halt : py_in (Some 1) sgt = true)
    by (destruct Hsgt as [-> | ->]; reflexivity).
  assert (Hmax : py_max sgt = Ok (Some 1))
    by (destruct Hsgt as [-> | ->]; reflexivity).
  rewrite Hlen, Halt. cbn [andb].
  rewrite (bind_lift_ok _ _ _ _ Hmax).
  rewrite (bind_lift_ok _ ind) by (unfold getitem; rewrite Hind; reflexivity).
  rewrite (bind_lift_ok _ _ _ _ Hf), (bind_lift_ok _ _ _ _ Hm).
  reflexivity.
Qed.

(** The text [join_alleles] gives for a heterozygous genotype at a
    biallelic site: the two allele texts in the order of the genotype, with
    the separator between them. *)
Lemma join_alleles_het_text (var : VcfRecord) (sep a0 a1 : string) (g0 g1 : nat) :
  ALLELES var = [a0; a1] →
  [Some g0; Some g1] = [Some 0; Some 1] ∨ [Some g0; Some g1] = [Some 1; Some 0] →
  join_alleles sep var [Some g0; Some g1]
  = Ok (allele_text a0 a1 g0 +:+ sep +:+ allele_text a0 a1 g1).
Proof.
  intros HA [[= -> ->] | [= -> ->]]; unfold join_alleles; simpl; unfold index;
    rewrite HA; reflexivity.
Qed.



Lemma index_alleles (var : VcfRecord) (a0 a1 : string) (i : nat) :
  ALLELES var = [a0; a1] → i < 2 → index (ALLELES var) i = Ok (allele_text a0 a1 i).
Proof.
  intros -> Hi. destruct i as [| [| i]]; [reflexivity | reflexivity | lia].
Qed.

Lemma flag_insert (m : gmap string bool) (s : string) (b : bool) :
  flag (<[s:=b]> m) s = b.
Proof. unfold flag. rewrite lookup_insert_eq. reflexivity. Qed.

Lemma flag_insert_ne (m : gmap string bool) (s s' : string) (b : bool) :
  s ≠ s' → flag (<[s:=b]> m) s' = flag m s'.
Proof. intros Hne. unfold flag. rewrite lookup_insert_ne by done. reflexivity. Qed.

(** The phased report (lines 237-247) on a biallelic site: the pair is
    written in the order the flag gives, the first allele is the one in
    phase, and of the world only the flag of [s] can change, and only to
    true, and only for the index variant. *)
Lemma report_phase_result (var : VcfRecord) (index_var : bool) (s : string)
    (pat mat : nat) (st : Locals) (w : World) (a0 a1 : string) :
  ALLELES var = [a0; a1] → pat < 2 → mat < 2 →
  let rev := orientation w index_var s pat mat in
  let first := if rev then mat else pat in
  let second := if rev then pat else mat in
  ∃ w',
    report_phase var index_var s pat mat st w
    = (Ok (append_call (allele_text a0 a1 first +:+ "|" +:+ allele_text a0 a1 second)
                       (allele_text a0 a1 first, allele_text a0 a1 second)
                       (set_in_phase s (Some first) st)), w') ∧
    flag (reverse_allele_order w') s = rev ∧
    (∀ s', s ≠ s' → flag (reverse_allele_order w') s' = flag (reverse_allele_order w) s') ∧
    logged w' = logged w ∧ written w' = written w.
Proof.
  intros HA Hp Hm rev first second.
  assert (Hrun : ∀ w0 : World,
    flag (reverse_allele_order w0) s = rev →
    ∃ w', (rv ← read_flag s;
           let (first, second) := if rv : bool then (mat, pat) else (pat, mat) in
           a1 ← lift (index (ALLELES var) first);
           a2 ← lift (index (ALLELES var) second);
           mret (append_call (a1 +:+ "|" +:+ a2) (a1, a2)
                   (set_in_phase s (Some first) st))) w0
          = (Ok (append_call (allele_text a0 a1 first +:+ "|" +:+ allele_text a0 a1 second)
                   (allele_text a0 a1 first, allele_text a0 a1 second)
                   (set_in_phase s (Some first) st)), w') ∧
          flag (reverse_allele_order w') s = rev ∧
          (∀ s', s ≠ s' →
             flag (reverse_allele_order w') s' = flag (reverse_allele_order w0) s') ∧
          logged w' = logged w0 ∧ written w' = written w0).
  { intros w0 Hflag.
    pose proof (read_flag_value s w0) as Hv.
    pose proof (read_flag_same_flags s w0) as Hsame.
    pose proof (read_flag_frame s w0) as Hlog.
    unfold mbind at 1. unfold M_bind.
    destruct (read_flag s w0) as [r w1]. simpl in Hv, Hsame, Hlog. subst r.
    rewrite Hflag. subst first second.
    exists w1. split.
    - destruct rev; unfold mbind, M_bind, lift;
        rewrite !(index_alleles var a0 a1) by done; reflexivity.
    - split; [rewrite Hsame; exact Hflag |].
      split; [intros s' _; apply Hsame | exact Hlog]. }
  unfold report_phase.
  destruct (index_var && bool_decide (mat = 1) && bool_decide (pat = 0)) eqn:Hset.
  - unfold mbind at 1. unfold M_bind, set_flag. cbv beta iota.
    assert (Hrev : rev = true) by (subst rev; unfold orientation; rewrite Hset; reflexivity).
    edestruct (Hrun (mkWorld (<[s:=true]> (reverse_allele_order w)) (logged w) (written w)))
      as (w' & Heq & Hf & Hothers & Hlog & Hwr).
    { simpl. rewrite flag_insert. symmetry. exact Hrev. }
    exists w'. split; [exact Heq |]. split; [exact Hf |].
    split; [| split; [exact Hlog | exact Hwr]].
    intros s' Hne. rewrite (Hothers s' Hne). simpl. apply flag_insert_ne. exact Hne.
  - unfold mbind at 1. unfold M_bind, mret, M_ret. cbv beta iota.
    apply Hrun. subst rev. unfold orientation. rewrite Hset. reflexivity.
Qed.

Lemma int_is_zero_complement (d : nat) : d < 2 → int_is_zero d = 1 - d ∧ int_is_zero d < 2.
Proof. intros Hd. unfold int_is_zero. case_decide; lia. Qed.

Lemma transmitted_lt (pgt ogt : gt) (a : nat) : transmitted pgt ogt = Some a → a < 2.
Proof. intros Ht. destruct (transmitted_range _ _ _ Ht); lia. Qed.

Lemma complete_sides_range (fgt mgt : gt) (pat mat : nat) :
  complete_sides (transmitted fgt mgt) (transmitted mgt fgt) = Some (pat, mat) →
  pat < 2 ∧ mat < 2.
Proof.
  destruct (transmitted fgt mgt) as [p |] eqn:Hp;
    destruct (transmitted mgt fgt) as [m |] eqn:Hm; simpl; intros [= <- <-].
  - split; eapply transmitted_lt; eassumption.
  - split; [eapply transmitted_lt; eassumption |].
    apply int_is_zero_complement. eapply transmitted_lt; eassumption.
  - split; [| eapply transmitted_lt; eassumption].
    apply int_is_zero_complement. eapply transmitted_lt; eassumption.
Qed.

(** A heterozygous sample with an established phase: the loop body is the
    phased report. *)
Lemma phase_sample_phased (ped_file : PedFile) (gt_filter : GtFilter) (var : VcfRecord)
    (index_var : bool) (st : Locals) (s : string) (sgt fgt mgt : gt)
    (pat mat : nat) (w : World) :
  het_trio ped_file gt_filter var s sgt fgt mgt →
  complete_sides (transmitted fgt mgt) (transmitted mgt fgt) = Some (pat, mat) →
  mat ≠ pat →
  phase_sample ped_file gt_filter var index_var st s w
  = report_phase var index_var s pat mat (saw_alt st) w.
Proof.
  intros Htrio Hsides Hne.
  rewrite (phase_sample_het _ _ _ _ _ _ _ _ _ _ Htrio).
  unfold phase_het. rewrite Hsides.
  assert (Hus : negb (truthy fgt) && negb (truthy mgt) = false).
  { destruct fgt, mgt; try reflexivity. discriminate Hsides. }
  rewrite Hus, bool_decide_eq_false_2 by exact Hne. reflexivity.
Qed.



(** The phased report of a sample follows the flag in memory, and only the
    index variant can set it. *)
Lemma phase_sample_orientation (ped_file : PedFile) (gt_filter : GtFilter)
    (var : VcfRecord) (index_var : bool) (st : Locals) (s : string)
    (sgt fgt mgt : gt) (a0 a1 : string) (pat mat : nat) (w : World) :
  ALLELES var = [a0; a1] →
  het_trio ped_file gt_filter var s sgt fgt mgt →
  complete_sides (transmitted fgt mgt) (transmitted mgt fgt) = Some (pat, mat) →
  mat ≠ pat →
  let rev := orientation w index_var s pat mat in
  let first := if rev then mat else pat in
  let second := if rev then pat else mat in
  ∃ st' w',
    phase_sample ped_file gt_filter var index_var st s w = (Ok st', w') ∧
    calls st' = calls st ++ [allele_text a0 a1 first +:+ "|" +:+ allele_text a0 a1 second] ∧
    alleles st' = alleles st ++ [(allele_text a0 a1 first, allele_text a0 a1 second)] ∧
    allele_in_phase st' !! s = Some (Some first) ∧
    flag (reverse_allele_order w') s = rev ∧
    (∀ s', s ≠ s' → flag (reverse_allele_order w') s' = flag (reverse_allele_order w) s').
Proof.
  intros HA Htrio Hcs Hne rev first second.
  destruct (complete_sides_range _ _ _ _ Hcs) as [Hp Hm].
  destruct (report_phase_result var index_var s pat mat (saw_alt st) w a0 a1 HA Hp Hm)
    as (w' & Hrun & Hflag & Hothers & _).
  eexists. exists w'. split.
  - rewrite (phase_sample_phased _ _ _ _ _ _ _ _ _ _ _ _ Htrio Hcs Hne). exact Hrun.
  - simpl. repeat split; try done. apply lookup_insert_eq.
Qed.

(** ** The flanking scan never writes the orientation memory *)

Section ScanFlags.
Context {F : Type} `{Float F}.

Lemma passes_min_af_same_flags (r : row) (var : VcfRecord) (min_af : option F)
    (samples : option (list string)) (af : string) :
  preserves same_flags (passes_min_af r var min_af samples af).
Proof. unfold passes_min_af. preserves_auto. Qed.

Lemma annotate_same_flags (r : row) (var : VcfRecord) (min_af : option F)
    (samples : option (list string)) (gnomad_pop : string)
    (readers : list GnomadFilter) (mx : string * string * string) :
  preserves same_flags (annotate r var min_af samples gnomad_pop readers mx).
Proof.
  revert mx. induction readers as [| reader readers IH]; intros mx; simpl.
  - preserves_auto.
  - pose proof (passes_min_af_same_flags r var min_af samples).
    preserves_auto.
Qed.

Lemma output_row_same_flags (r : row) (var : VcfRecord)
    (gnomad_readers : list GnomadFilter) (min_af : option F)
    (samples : option (list string)) (gnomad_pop : string) :
  preserves same_flags (output_row r var gnomad_readers min_af samples gnomad_pop).
Proof.
  unfold output_row.
  pose proof (annotate_same_flags r var min_af samples gnomad_pop gnomad_readers).
  preserves_auto.
Qed.

Lemma region_step_same_flags (samples unrelateds : list string) (ped_file : PedFile)
    (gt_filter : GtFilter) (informative_only phased_in_all output_alleles : bool)
    (max_no_calls : option Z) (gnomad_readers : list GnomadFilter)
    (avoid_bed : option BedFinder) (min_other_allele_freq : option F)
    (gnomad_pop : string) (nw : nat * nat) (var : VcfRecord) :
  preserves same_flags
    (region_step samples unrelateds ped_file gt_filter informative_only phased_in_all
       output_alleles max_no_calls gnomad_readers avoid_bed min_other_allele_freq
       gnomad_pop nw var).
Proof.
  unfold region_step. destruct nw as [n w].
  pose proof (parse_haplotypes_same_flags var samples unrelateds ped_file gt_filter
                output_alleles).
  assert (∀ r, preserves same_flags
            (output_row r var gnomad_readers min_other_allele_freq (Some samples)
               gnomad_pop)) by (intros; apply output_row_same_flags).
  preserves_auto.
Qed.

Lemma parse_region_same_flags (vcf : VcfReader) (samples unrelateds : list string)
    (ped_file : PedFile) (chrom : string) (start end_ : Z)
    (gt_filter : GtFilter) (informative_only phased_in_all output_alleles : bool)
    (max_no_calls : option Z) (gnomad_readers : list GnomadFilter)
    (avoid_bed : option BedFinder) (min_other_allele_freq : option F)
    (gnomad_pop : string) :
  preserves same_flags
    (parse_region vcf samples unrelateds ped_file chrom start end_ gt_filter
       informative_only phased_in_all output_alleles max_no_calls gnomad_readers
       avoid_bed min_other_allele_freq gnomad_pop).
Proof.
  unfold parse_region.
  pose proof (region_step_same_flags samples unrelateds ped_file gt_filter
                informative_only phased_in_all output_alleles max_no_calls
                gnomad_readers avoid_bed min_other_allele_freq gnomad_pop).
  preserves_auto.
Qed.
End ScanFlags.

(** C2. The orientation flag of a sample is written only by the call on the
    index variant, and only to true, when the established phase is maternal
    alternate and paternal reference: a call on any other variant, and a
    whole region walk, leave the flag of every sample as it was, whatever
    their outcome; and every phased report lists the maternal allele first
    when the flag is true and the paternal allele first otherwise, whatever
    the two alleles are. *)
Theorem orientation_fixed_by_index_variant :
  (∀ var samples unrelateds ped_file gt_filter output_alleles,
     preserves same_flags
       (parse_haplotypes var samples unrelateds ped_file gt_filter output_alleles false))
  ∧ (∀ (F : Type) (HF : Float F) vcf samples unrelateds ped_file chrom start end_
       gt_filter informative_only phased_in_all output_alleles max_no_calls
       gnomad_readers avoid_bed (min_other_allele_freq : option F) gnomad_pop,
     preserves same_flags
       (parse_region vcf samples unrelateds ped_file chrom start end_ gt_filter
          informative_only phased_in_all output_alleles max_no_calls gnomad_readers
          avoid_bed min_other_allele_freq gnomad_pop))
  ∧ (∀ ped_file gt_filter var index_var st s sgt fgt mgt a0 a1 pat mat w,
     ALLELES var = [a0; a1] →
     het_trio ped_file gt_filter var s sgt fgt mgt →
     complete_sides (transmitted fgt mgt) (transmitted mgt fgt) = Some (pat, mat) →
     mat ≠ pat →
     ∃ st' w',
       phase_sample ped_file gt_filter var index_var st s w = (Ok st', w') ∧
       flag (reverse_allele_order w') s
       = (index_var && bool_decide (mat = 1) && bool_decide (pat = 0))
         || flag (reverse_allele_order w) s ∧
       (∀ s', s ≠ s' →
          flag (reverse_allele_order w') s' = flag (reverse_allele_order w) s') ∧
       calls st'
       = calls st ++ [if flag (reverse_allele_order w') s
                      then allele_text a0 a1 mat +:+ "|" +:+ allele_text a0 a1 pat
                      else allele_text a0 a1 pat +:+ "|" +:+ allele_text a0 a1 mat] ∧
       allele_in_phase st' !! s
       = Some (Some (if flag (reverse_allele_order w') s then mat else pat))).
Proof.
  split; [| split].
  - intros. apply parse_haplotypes_same_flags.
  - intros. apply parse_region_same_flags.
  - intros ped_file gt_filter var index_var st s sgt fgt mgt a0 a1 pat mat w HA Htrio Hcs Hne.
    destruct (phase_sample_orientation ped_file gt_filter var index_var st s sgt fgt mgt
                a0 a1 pat mat w HA Htrio Hcs Hne)
      as (st' & w' & Hrun & Hcalls & _ & Hphase & Hflag & Hothers).
    exists st', w'. split; [exact Hrun |].
    split; [exact Hflag |]. split; [exact Hothers |].
    rewrite Hflag. fold (orientation w index_var s pat mat).
    split.
    + rewrite Hcalls. destruct (orientation w index_var s pat mat); reflexivity.
    + rewrite Hphase. destruct (orientation w index_var s pat mat); reflexivity.
Qed.

(** ** The phase tally and the row *)

Lemma bind_ok_inv {A B} (r : result A) (f : A → result B) (b : B) :
  r ≫= f = Ok b → ∃ a, r = Ok a ∧ f a = Ok b.
Proof. destruct r as [a | e]; simpl; [eauto | discriminate]. Qed.

(** The loop of lines 270-274 adds one for each compatible sample, and it
    has looked up the genotype of every sample when a dominant allele
    exists. *)
Lemma compat_fold (var : VcfRecord) (st : Locals) (p : option nat)
    (l : list string) (n m : nat) :
  foldR (compat_step var st p) l n = Ok m →
  m = n + length (filter (λ s, compatible var st p s = true) l)
  ∧ (p ≠ None → ∀ s, s ∈ l → is_Some (GT var !! s)).
Proof.
  revert n. induction l as [| s l IH]; intros n; simpl.
  - intros [= <-]. split; [lia | intros _ s Hs; inversion Hs].
  - intros Hrun. apply bind_ok_inv in Hrun as (n' & Hstep & Hrest).
    destruct (IH _ Hrest) as [-> Hget]. clear IH Hrest.
    rewrite filter_cons. unfold compat_step in Hstep.
    destruct p as [p |].
    + unfold getitem in Hstep. destruct (GT var !! s) as [sgt |] eqn:Hs; [| discriminate].
      simpl in Hstep. injection Hstep as <-.
      assert (Hcomp : compatible var st (Some p) s
                      = py_in (Some p) sgt || bool_decide (s ∈ sample_no_calls st))
        by (unfold compatible; rewrite Hs; reflexivity).
      split.
      * destruct (decide (compatible var st (Some p) s = true)) as [Ht | Hf];
          rewrite Hcomp in *.
        -- rewrite Ht. simpl. lia.
        -- destruct (py_in (Some p) sgt || bool_decide (s ∈ sample_no_calls st));
             [done | lia].
      * intros _ s' Hs'. apply elem_of_cons in Hs' as [-> | Hs'];
          [rewrite Hs; eauto | apply Hget; done].
    + injection Hstep as <-. split; [| done].
      rewrite decide_False by discriminate. reflexivity.
Qed.

Lemma dominant_none_or_counts (phased : list (option nat)) :
  dominant phased = None →
  phased = [] ∨ count_ref phased = length phased - count_ref phased.
Proof.
  unfold dominant. destruct phased as [| a l]; [auto |]. simpl truthy. cbv iota zeta.
  repeat case_decide; try discriminate. intros _. right. lia.
Qed.

(** The row that [summarise] builds. *)
Lemma summarise_row (gt_filter : GtFilter) (var : VcfRecord)
    (samples unrelateds : list string) (output_alleles : bool) (st : Locals) (r : row) :
  summarise gt_filter var samples unrelateds output_alleles st = Ok r →
  let phased := phased_values st in
  ∃ n_compat hap cols an af,
    foldR (compat_step var st (dominant phased)) (not_phased samples st)
          (in_phase_count phased) = Ok n_compat ∧
    (if bool_decide (in_phase_count phased ≠ 0) && bool_decide (dominant phased ≠ None)
     then allele_of var (dominant phased) else Ok "?") = Ok hap ∧
    r = [CStr (CHROM var); CInt (POS var); CStr (ID var); CStr (REF var); CStr (ALT var);
         CStr hap; CInt (Z.of_nat (in_phase_count phased)); CInt (Z.of_nat n_compat)]
        ++ cols
        ++ [an; af; CBool (truthy phased);
            CBool (bool_decide (length phased = length samples));
            CInt (Z.of_nat (size (sample_no_calls st)))].
Proof.
  intros Hrun phased. unfold summarise in Hrun. fold phased in Hrun.
  apply bind_ok_inv in Hrun as (counts & _ & Hrun).
  apply bind_ok_inv in Hrun as (n_compat & Hcompat & Hrun).
  apply bind_ok_inv in Hrun as (hap & Hhap & Hrun).
  apply bind_ok_inv in Hrun as (het & _ & Hrun).
  apply bind_ok_inv in Hrun as (hom & _ & Hrun).
  injection Hrun as <-.
  exists n_compat, hap. eexists. eexists. eexists.
  split; [exact Hcompat |]. split; [exact Hhap |]. reflexivity.
Qed.

(** A row comes out of [parse_haplotypes] only through [summarise], on the
    locals the loop over the samples ends with. *)
Lemma parse_haplotypes_row (var : VcfRecord) (samples unrelateds : list string)
    (ped_file : PedFile) (gt_filter : GtFilter) (output_alleles index_var : bool)
    (w w' : World) (r : row) :
  parse_haplotypes var samples unrelateds ped_file gt_filter output_alleles index_var w
  = (Ok (Some r), w') →
  ∃ st a0 a1,
    ALLELES var = [a0; a1] ∧
    phase_samples ped_file gt_filter var index_var samples w = (Ok st, w') ∧
    sample_with_alt st = true ∧
    summarise gt_filter var samples unrelateds output_alleles st = Ok r.
Proof.
  unfold parse_haplotypes.
  destruct (ALLELES var) as [| a0 [| a1 [| a2 l]]]; try discriminate.
  destruct (bool_decide (String.length a0 ≠ String.length a1)); [discriminate |].
  unfold mbind at 1. unfold M_bind.
  destruct (phase_samples ped_file gt_filter var index_var samples w) as [[st | e] w1];
    [| discriminate].
  destruct (sample_with_alt st) eqn:Halt; simpl; [| discriminate].
  unfold mbind, M_bind, lift.
  destruct (summarise gt_filter var samples unrelateds output_alleles st) as [r' | e]
    eqn:Hsum; [| discriminate].
  simpl. intros [= <- <-]. exists st, a0, a1. done.
Qed.

Lemma compatible_no_dominant (var : VcfRecord) (st : Locals) (l : list string) :
  filter (λ s, compatible var st None s = true) l = [].
Proof.
  induction l as [| s l IH]; [reflexivity |].
  rewrite filter_cons, decide_False by discriminate. exact IH.
Qed.

(** C3. In every row that [parse_haplotypes] returns, N_COMPAT (cell 7) is
    N_IN_PHASE (cell 6) plus one for every compatible sample of interest
    that is not phased, hence at least N_IN_PHASE; when a dominant phase
    allele exists, every no-call sample of interest that is not phased is
    among those counted; when none exists, N_COMPAT equals N_IN_PHASE. *)
Theorem n_compat_counts (var : VcfRecord) (samples unrelateds : list string)
    (ped_file : PedFile) (gt_filter : GtFilter) (output_alleles index_var : bool)
    (w w' : World) (r : row) :
  parse_haplotypes var samples unrelateds ped_file gt_filter output_alleles index_var w
  = (Ok (Some r), w') →
  ∃ st n_in_phase n_compat,
    phase_samples ped_file gt_filter var index_var samples w = (Ok st, w') ∧
    r !! 6 = Some (CInt (Z.of_nat n_in_phase)) ∧
    r !! 7 = Some (CInt (Z.of_nat n_compat)) ∧
    n_in_phase ≤ n_compat ∧
    n_compat = n_in_phase + length (compatible_unphased var samples st) ∧
    (dominant (phased_values st) ≠ None →
     ∀ s, s ∈ samples → allele_in_phase st !! s = None → s ∈ sample_no_calls st →
          s ∈ compatible_unphased var samples st) ∧
    (dominant (phased_values st) = None → n_compat = n_in_phase).
Proof.
  intros Hrun.
  apply parse_haplotypes_row in Hrun as (st & a0 & a1 & _ & Hloop & _ & Hsum).
  apply summarise_row in Hsum as (n_compat & hap & cols & an & af & Hfold & _ & ->).
  apply compat_fold in Hfold as [Hn Hget].
  exists st, (in_phase_count (phased_values st)), n_compat.
  split; [exact Hloop |]. split; [reflexivity |]. split; [reflexivity |].
  split; [lia |]. split; [exact Hn |]. split.
  - intros Hdom s Hs Hunphased Hnocall.
    unfold compatible_unphased, not_phased.
    apply list_elem_of_filter. split.
    + unfold compatible.
      destruct (dominant (phased_values st)) as [p |]; [| done].
      destruct (Hget ltac:(done) s) as [sgt ->].
      { unfold not_phased. apply list_elem_of_filter. done. }
      rewrite (bool_decide_eq_true_2 _ Hnocall). apply orb_true_r.
    + apply list_elem_of_filter. done.
  - intros Hdom. rewrite Hn, Hdom, compatible_no_dominant. simpl. lia.
Qed.

Lemma in_phase_count_tie (phased : list (option nat)) :
  phased ≠ [] →
  count_ref phased = length phased - count_ref phased →
  dominant phased = None ∧ in_phase_count phased = count_ref phased
  ∧ 0 < count_ref phased.
Proof.
  intros Hne Htie. unfold dominant, in_phase_count.
  destruct phased as [| a l]; [done |]. simpl truthy. cbv iota zeta.
  rewrite <- Htie. repeat case_decide; try lia.
  split; [reflexivity |]. split; [lia |].
  simpl length in Htie. lia.
Qed.

(** C10. When at least one sample of interest is phased and the phased
    samples split evenly between the reference and the alternate allele,
    the row that [parse_haplotypes] returns has '?' in the HAP column
    (cell 5) and the tied count, which is positive, as N_IN_PHASE
    (cell 6). *)
Theorem tie_reports_unknown_haplotype (var : VcfRecord) (samples unrelateds : list string)
    (ped_file : PedFile) (gt_filter : GtFilter) (output_alleles index_var : bool)
    (w w' : World) (r : row) :
  parse_haplotypes var samples unrelateds ped_file gt_filter output_alleles index_var w
  = (Ok (Some r), w') →
  ∃ st,
    phase_samples ped_file gt_filter var index_var samples w = (Ok st, w') ∧
    (phased_values st ≠ [] →
     count_ref (phased_values st) = length (phased_values st) - count_ref (phased_values st) →
     r !! 5 = Some (CStr "?") ∧
     r !! 6 = Some (CInt (Z.of_nat (count_ref (phased_values st)))) ∧
     0 < count_ref (phased_values st)).
Proof.
  intros Hrun.
  apply parse_haplotypes_row in Hrun as (st & a0 & a1 & _ & Hloop & _ & Hsum).
  apply summarise_row in Hsum as (n_compat & hap & cols & an & af & _ & Hhap & ->).
  exists st. split; [exact Hloop |].
  intros Hne Htie.
  destruct (in_phase_count_tie _ Hne Htie) as (Hdom & Hcount & Hpos).
  rewrite Hdom in Hhap. rewrite andb_false_r in Hhap. injection Hhap as <-.
  rewrite Hcount. done.
Qed.

(** ** Rejected variants *)

(** A sample without the alternate allele, a no-call or homozygous for the
    reference, goes through the loop body without a change to the world
    and without raising the flag [sample_with_alt]. *)
Lemma phase_sample_no_alt (ped_file : PedFile) (gt_filter : GtFilter) (var : VcfRecord)
    (index_var : bool) (st : Locals) (s : string) (a0 a1 : string) (w : World) :
  ALLELES var = [a0; a1] →
  (admissible gt_filter var s = true → ∃ sgt, GT var !! s = Some sgt ∧ diploid_call sgt) →
  ¬ carries_alt gt_filter var s →
  ∃ st', phase_sample ped_file gt_filter var index_var st s w = (Ok st', w)
         ∧ sample_with_alt st' = sample_with_alt st.
Proof.
  intros HA Hwf Hno. unfold phase_sample.
  destruct (gt_is_ok gt_filter var s 0) eqn:H0; cbn [negb orb];
    [| eexists; split; reflexivity].
  destruct (gt_is_ok gt_filter var s 1) eqn:H1; cbn [negb orb];
    [| eexists; split; reflexivity].
  assert (Hadm : admissible gt_filter var s = true)
    by (unfold admissible; rewrite H0, H1; reflexivity).
  destruct (Hwf Hadm) as (sgt & Hs & Hdip).
  rewrite (bind_lift_ok _ sgt) by (unfold getitem; rewrite Hs; reflexivity).
  destruct Hdip as [-> | (a & b & -> & Ha & Hb)].
  - eexists; split; reflexivity.
  - assert (a = 0 ∧ b = 0) as [-> ->].
    { split.
      - destruct a as [| [| a]]; [done | | lia].
        exfalso. apply Hno. split; [done |]. eexists. split; [exact Hs | left].
      - destruct b as [| [| b]]; [done | | lia].
        exfalso. apply Hno. split; [done |]. eexists. split; [exact Hs | right; left]. }
    change (bool_decide (len_set [Some 0; Some 0] = 1)) with true.
    change (py_in None [Some 0; Some 0]) with false.
    change (py_in (Some 1) [Some 0; Some 0]) with false.
    cbn [andb].
    unfold join_alleles, mbind, M_bind, lift. simpl. unfold index. rewrite HA. simpl.
    eexists; split; reflexivity.
Qed.

Lemma phase_samples_no_alt (ped_file : PedFile) (gt_filter : GtFilter) (var : VcfRecord)
    (index_var : bool) (samples : list string) (st : Locals) (a0 a1 : string) (w : World) :
  ALLELES var = [a0; a1] →
  well_called gt_filter var samples →
  (∀ s, s ∈ samples → ¬ carries_alt gt_filter var s) →
  ∃ st', foldM (phase_sample ped_file gt_filter var index_var) samples st w = (Ok st', w)
         ∧ sample_with_alt st' = sample_with_alt st.
Proof.
  intros HA. revert st. induction samples as [| s samples IH]; intros st Hwf Hno; simpl.
  - exists st. split; reflexivity.
  - destruct (phase_sample_no_alt ped_file gt_filter var index_var st s a0 a1 w HA)
      as (st1 & Hstep & Halt).
    { intros Hadm. apply Hwf; [left | exact Hadm]. }
    { apply Hno. left. }
    destruct (IH st1) as (st' & Hrest & Halt').
    { intros s' Hs'. apply Hwf. right. exact Hs'. }
    { intros s' Hs'. apply Hno. right. exact Hs'. }
    exists st'. split; [| congruence].
    unfold mbind, M_bind. rewrite Hstep. exact Hrest.
Qed.

(** A rejected variant: [None], and of the world only the log has one more
    debug record. *)
Lemma parse_haplotypes_rejected (var : VcfRecord) (samples unrelateds : list string)
    (ped_file : PedFile) (gt_filter : GtFilter) (output_alleles index_var : bool)
    (w : World) :
  rejected gt_filter var samples →
  ∃ d, level_of d = DEBUG ∧
    parse_haplotypes var samples unrelateds ped_file gt_filter output_alleles index_var w
    = (Ok None, mkWorld (reverse_allele_order w) (logged w ++ [d]) (written w)).
Proof.
  intros Hrej. unfold parse_haplotypes.
  destruct (ALLELES var) as [| a0 [| a1 [| a2 l]]] eqn:HA;
    try (eexists; split; [| reflexivity]; reflexivity).
  destruct (bool_decide (String.length a0 ≠ String.length a1)) eqn:Hlen;
    [eexists; split; [| reflexivity]; reflexivity |].
  apply bool_decide_eq_false in Hlen.
  destruct Hrej as [Hn | [(b0 & b1 & Hb & Hd) | [Hwf Hno]]];
    [rewrite HA in Hn; simpl in Hn; lia
    | rewrite HA in Hb; injection Hb as <- <-; contradiction |].
  destruct (phase_samples_no_alt ped_file gt_filter var index_var samples init_locals
              a0 a1 w HA Hwf Hno) as (st' & Hloop & Halt).
  unfold phase_samples, mbind at 1. unfold M_bind at 1. rewrite Hloop.
  simpl in Halt. rewrite Halt. simpl.
  eexists; split; [| reflexivity]; reflexivity.
Qed.

Lemma warnings_debug (w : World) (d : logrecord) :
  level_of d = DEBUG →
  warnings (mkWorld (reverse_allele_order w) (logged w ++ [d]) (written w)) = warnings w.
Proof.
  intros Hd. unfold warnings. simpl. rewrite filter_app, length_app.
  rewrite filter_cons, decide_False; [simpl; lia |].
  unfold is_warning. rewrite Hd. discriminate.
Qed.

(** *** Without any assumption on the genotypes *)

Lemma returns_ret {A} (P : A → Prop) (a : A) : P a → returns P (mret a).
Proof. intros Ha w a' w' [= <- _]. exact Ha. Qed.

Lemma returns_bind {A B} (Q : A → Prop) (P : B → Prop) (m : M A) (f : A → M B) :
  returns Q m → (∀ a, Q a → returns P (f a)) → returns P (m ≫= f).
Proof.
  intros Hm Hf w b w'. unfold mbind, M_bind.
  destruct (m w) as [[a | e] w1] eqn:Hrun; [| discriminate].
  apply Hf. eapply Hm. exact Hrun.
Qed.

Lemma returns_any {A} (m : M A) : returns (λ _, True) m.
Proof. intros w a w' _. exact I. Qed.

Lemma returns_lift {A} (P : A → Prop) (r : result A) :
  (∀ a, r = Ok a → P a) → returns P (lift r).
Proof. intros Hr w a w' [= -> _]. apply Hr. reflexivity. Qed.

Lemma returns_foldM {A B} (P : A → Prop) (f : A → B → M A) (l : list B) (a : A) :
  (∀ a x, x ∈ l → P a → returns P (f a x)) → P a → returns P (foldM f l a).
Proof.
  revert a. induction l as [| x l IH]; intros a Hf Ha; simpl.
  - apply returns_ret. exact Ha.
  - apply (returns_bind P).
    + apply Hf; [left | exact Ha].
    + intros a' Ha'. apply IH; [| exact Ha'].
      intros a0 y Hy. apply Hf. right. exact Hy.
Qed.

(** The reports of a sample keep the flag [sample_with_alt]. *)
Lemma unphased_keeps_alt (var : VcfRecord) (sgt : gt) (st : Locals) :
  returns (λ st', sample_with_alt st' = sample_with_alt st) (unphased var sgt st).
Proof.
  unfold unphased. apply (returns_bind (λ _, True)); [apply returns_any | intros c _].
  apply returns_ret. reflexivity.
Qed.

Lemma report_phase_keeps_alt (var : VcfRecord) (index_var : bool) (s : string)
    (pat mat : nat) (st : Locals) :
  returns (λ st', sample_with_alt st' = sample_with_alt st)
          (report_phase var index_var s pat mat st).
Proof.
  unfold report_phase.
  apply (returns_bind (λ _, True)); [apply returns_any | intros _ _].
  apply (returns_bind (λ _, True)); [apply returns_any | intros rev _].
  destruct rev;
    (apply (returns_bind (λ _, True)); [apply returns_any | intros a1 _];
     apply (returns_bind (λ _, True)); [apply returns_any | intros a2 _];
     apply returns_ret; reflexivity).
Qed.

(** A sample that does not carry the alternate allele in an admissible
    call never raises the flag [sample_with_alt], whatever its genotype. *)
Lemma phase_sample_keeps_alt (ped_file : PedFile) (gt_filter : GtFilter)
    (var : VcfRecord) (index_var : bool) (st : Locals) (s : string) :
  ¬ carries_alt gt_filter var s →
  returns (λ st', sample_with_alt st' = sample_with_alt st)
          (phase_sample ped_file gt_filter var index_var st s).
Proof.
  intros Hno. unfold phase_sample.
  destruct (gt_is_ok gt_filter var s 0) eqn:H0; cbn [negb orb];
    [| apply returns_ret; reflexivity].
  destruct (gt_is_ok gt_filter var s 1) eqn:H1; cbn [negb orb];
    [| apply returns_ret; reflexivity].
  apply (returns_bind (λ sgt, GT var !! s = Some sgt)).
  { apply returns_lift. unfold getitem. intros sgt. destruct (GT var !! s); congruence. }
  intros sgt Hs.
  destruct (bool_decide (len_set sgt = 1) && py_in None sgt);
    [apply returns_ret; reflexivity |].
  assert (Halt : py_in (Some 1) sgt = false).
  { apply py_in_false. intros Hin. apply Hno. split.
    - unfold admissible. rewrite H0, H1. reflexivity.
    - exists sgt. split; assumption. }
  rewrite Halt.
  destruct (bool_decide (len_set sgt = 1)).
  - do 5 (apply (returns_bind (λ _, True)); [apply returns_any | intros ? _]).
    apply returns_ret. reflexivity.
  - do 4 (apply (returns_bind (λ _, True)); [apply returns_any | intros ? _]).
    unfold phase_het.
    destruct (negb _ && negb _); [apply unphased_keeps_alt |].
    destruct (complete_sides _ _) as [[pat mat] |]; [| apply unphased_keeps_alt].
    destruct (bool_decide (mat = pat)); [| apply report_phase_keeps_alt].
    apply (returns_bind (λ _, True)); [apply returns_any | intros _ _].
    apply unphased_keeps_alt.
Qed.

(** An unusable variant never yields a row. *)
Lemma parse_haplotypes_unusable (var : VcfRecord) (samples unrelateds : list string)
    (ped_file : PedFile) (gt_filter : GtFilter) (output_alleles index_var : bool) :
  unusable gt_filter var samples →
  returns (λ r, r = None)
    (parse_haplotypes var samples unrelateds ped_file gt_filter output_alleles index_var).
Proof.
  intros Hun. unfold parse_haplotypes.
  destruct (ALLELES var) as [| a0 [| a1 [| a2 l]]] eqn:HA;
    try (apply (returns_bind (λ _, True)); [apply returns_any | intros _ _];
         apply returns_ret; reflexivity).
  destruct (bool_decide (String.length a0 ≠ String.length a1)) eqn:Hlen.
  { apply (returns_bind (λ _, True)); [apply returns_any | intros _ _].
    apply returns_ret. reflexivity. }
  apply bool_decide_eq_false in Hlen.
  destruct Hun as [Hn | [(b0 & b1 & Hb & Hd) | Hno]];
    [rewrite HA in Hn; simpl in Hn; lia
    | rewrite HA in Hb; injection Hb as <- <-; contradiction |].
  apply (returns_bind (λ st, sample_with_alt st = false)).
  - unfold phase_samples. apply returns_foldM; [| reflexivity].
    intros st s Hs Hst w st' w' Hrun.
    rewrite (phase_sample_keeps_alt ped_file gt_filter var index_var st s (Hno s Hs)
               w st' w' Hrun).
    exact Hst.
  - intros st ->. simpl.
    apply (returns_bind (λ _, True)); [apply returns_any | intros _ _].
    apply returns_ret. reflexivity.
Qed.

Section RejectedInScan.
Context {F : Type} `{Float F}.

(** The region walk writes nothing for a rejected variant and leaves the
    orientation memory alone. *)
Lemma region_step_rejected (samples unrelateds : list string) (ped_file : PedFile)
    (gt_filter : GtFilter) (informative_only phased_in_all output_alleles : bool)
    (max_no_calls : option Z) (gnomad_readers : list GnomadFilter)
    (avoid_bed : option BedFinder) (min_other_allele_freq : option F)
    (gnomad_pop : string) (nw : nat * nat) (var : VcfRecord) (w : World) :
  rejected gt_filter var samples →
  ∃ w', region_step samples unrelateds ped_file gt_filter informative_only
          phased_in_all output_alleles max_no_calls gnomad_readers avoid_bed
          min_other_allele_freq gnomad_pop nw var w = (Ok (S nw.1, nw.2), w')
        ∧ written w' = written w
        ∧ reverse_allele_order w' = reverse_allele_order w.
Proof.
  intros Hrej. unfold region_step. destruct nw as [n k].
  unfold mbind at 1. unfold M_bind at 1.
  set (w1 := (if bool_decide (n `mod` 100 = 0) && negb (bool_decide (n = 0))
              then log (Progress n k (CHROM var) (POS var)) else mret tt) w).
  assert (Hw1 : ∃ w2, w1 = (Ok tt, w2) ∧ written w2 = written w
                      ∧ reverse_allele_order w2 = reverse_allele_order w).
  { subst w1. destruct (_ && _); eexists; split; try reflexivity; split; reflexivity. }
  destruct Hw1 as (w2 & -> & Hwr & Hmem).
  destruct (match avoid_bed with
            | Some b => bed_fetch b (CHROM var) (POS var) (SPAN var)
            | None => false
            end).
  - eexists. split; [reflexivity |]. simpl. split; assumption.
  - destruct (parse_haplotypes_rejected var samples unrelateds ped_file gt_filter
                output_alleles false w2 Hrej) as (d & _ & Hrun).
    unfold mbind, M_bind. rewrite Hrun.
    eexists. split; [reflexivity |]. simpl. split; assumption.
Qed.
End RejectedInScan.

Lemma preserves_bind_post {A B} (R : relation World) `{!PreOrder R} (Q : A → Prop)
    (m : M A) (f : A → M B) :
  returns Q m → preserves R m → (∀ a, Q a → preserves R (f a)) →
  preserves R (m ≫= f).
Proof.
  intros Hq Hm Hf w. unfold mbind, M_bind.
  pose proof (Hm w) as Hw. pose proof (Hq w) as Hp.
  destruct (m w) as [[a | e] w1]; simpl in *; [| exact Hw].
  etrans; [exact Hw |]. apply Hf. eapply Hp. reflexivity.
Qed.

Section UnusableInScan.
Context {F : Type} `{Float F}.

(** The region walk writes nothing for an unusable variant, whatever the
    genotypes are. *)
Lemma region_step_unusable (samples unrelateds : list string) (ped_file : PedFile)
    (gt_filter : GtFilter) (informative_only phased_in_all output_alleles : bool)
    (max_no_calls : option Z) (gnomad_readers : list GnomadFilter)
    (avoid_bed : option BedFinder) (min_other_allele_freq : option F)
    (gnomad_pop : string) (nw : nat * nat) (var : VcfRecord) :
  unusable gt_filter var samples →
  preserves same_written
    (region_step samples unrelateds ped_file gt_filter informative_only phased_in_all
       output_alleles max_no_calls gnomad_readers avoid_bed min_other_allele_freq
       gnomad_pop nw var).
Proof.
  intros Hun. unfold region_step. destruct nw as [n k].
  apply preserves_bind; [typeclasses eauto | preserves_auto | intros _].
  destruct (match avoid_bed with
            | Some b => bed_fetch b (CHROM var) (POS var) (SPAN var)
            | None => false
            end); [preserves_auto |].
  apply (preserves_bind_post same_written (λ r, r = None)).
  - apply parse_haplotypes_unusable. exact Hun.
  - apply parse_haplotypes_same_written.
  - intros r ->. preserves_auto.
Qed.
End UnusableInScan.

(** The rejection rules.  A variant that is not biallelic, or whose two
    alleles differ in length, or of which no sample of interest carries the
    alternate allele in an admissible call, makes [parse_haplotypes] return
    [None]; the
    orientation memory and the output are as before, no warning is logged,
    and the region walk writes no line for it.  This holds when every
    admissible sample of interest has a diploid call, fully called or fully
    missing.  Whatever the genotypes are, such a variant never yields a
    row, nothing is written for it, by the engine or by the region walk,
    and a call that is not the one on the index variant leaves every flag
    as it was. *)
Theorem rejected_variant_returns_none (var : VcfRecord) (samples unrelateds : list string)
    (ped_file : PedFile) (gt_filter : GtFilter) (output_alleles index_var : bool)
    (w : World) :
  (rejected gt_filter var samples →
   (∃ w',
      parse_haplotypes var samples unrelateds ped_file gt_filter output_alleles
        index_var w = (Ok None, w') ∧
      reverse_allele_order w' = reverse_allele_order w ∧
      written w' = written w ∧
      warnings w' = warnings w)
   ∧ (∀ (F : Type) (HF : Float F) informative_only phased_in_all max_no_calls
        gnomad_readers avoid_bed (min_other_allele_freq : option F) gnomad_pop nw,
      ∃ w',
        region_step samples unrelateds ped_file gt_filter informative_only phased_in_all
          output_alleles max_no_calls gnomad_readers avoid_bed min_other_allele_freq
          gnomad_pop nw var w = (Ok (S nw.1, nw.2), w') ∧
        written w' = written w ∧
        reverse_allele_order w' = reverse_allele_order w))
  ∧ (unusable gt_filter var samples →
     (∀ r, (parse_haplotypes var samples unrelateds ped_file gt_filter output_alleles
              index_var w).1 ≠ Ok (Some r))
     ∧ written (parse_haplotypes var samples unrelateds ped_file gt_filter
                  output_alleles index_var w).2 = written w
     ∧ (index_var = false →
        same_flags w (parse_haplotypes var samples unrelateds ped_file gt_filter
                        output_alleles index_var w).2)
     ∧ (∀ (F : Type) (HF : Float F) informative_only phased_in_all max_no_calls
          gnomad_readers avoid_bed (min_other_allele_freq : option F) gnomad_pop nw,
        let step := region_step samples unrelateds ped_file gt_filter informative_only
                      phased_in_all output_alleles max_no_calls gnomad_readers avoid_bed
                      min_other_allele_freq gnomad_pop nw var w in
        written step.2 = written w ∧ same_flags w step.2)).
Proof.
  split.
  - intros Hrej. split.
    + destruct (parse_haplotypes_rejected var samples unrelateds ped_file gt_filter
                  output_alleles index_var w Hrej) as (d & Hd & Hrun).
      eexists. split; [exact Hrun |]. simpl.
      split; [reflexivity |]. split; [reflexivity |]. apply warnings_debug. exact Hd.
    + intros. apply region_step_rejected. exact Hrej.
  - intros Hun. split; [| split; [| split]].
    + intros r Hr.
      pose proof (parse_haplotypes_unusable var samples unrelateds ped_file gt_filter
                    output_alleles index_var Hun w) as Hnone.
      destruct (parse_haplotypes _ _ _ _ _ _ _ w) as [res w'].
      simpl in Hr. subst res. specialize (Hnone _ _ eq_refl). discriminate.
    + apply parse_haplotypes_same_written.
    + intros ->. apply parse_haplotypes_same_flags.
    + intros. split.
      * apply (region_step_unusable samples unrelateds ped_file gt_filter informative_only
                 phased_in_all output_alleles max_no_calls gnomad_readers avoid_bed
                 min_other_allele_freq gnomad_pop nw var Hun).
      * apply region_step_same_flags.
Qed.

(** ** output_row: the frequency filter and the appended fields *)

Section AnnotatorFacts.
Context {F : Type} `{Float F}.

(** The filter of lines 112-130 for one database, when N_COMPAT is the
    number of samples. *)
Lemma passes_min_af_covering (r : row) (var : VcfRecord) (min_af : F)
    (samples : list string) (hap : cell) (af : string) (w : World) :
  r !! 7 = Some (CInt (Z.of_nat (length samples))) →
  r !! 5 = Some hap →
  af = "." ∨ is_Some (float af) →
  ∃ w', passes_min_af r var (Some min_af) (Some samples) af w
        = (Ok (negb (suppressed_by (bool_decide (hap = CStr (REF var))) min_af af)), w')
        ∧ written w' = written w
        ∧ reverse_allele_order w' = reverse_allele_order w.
Proof.
  intros H7 H5 Haf. unfold passes_min_af, suppressed_by, other_allele_freq.
  unfold index. rewrite H7, H5.
  unfold mbind, M_bind, lift, py_len. simpl.
  rewrite bool_decide_eq_true_2 by reflexivity.
  destruct (bool_decide (af = ".")) eqn:Hdot.
  - destruct (bool_decide (hap = CStr (REF var))); simpl.
    + eexists. split; [reflexivity |]. split; reflexivity.
    + destruct (f_lt f_one min_af); simpl;
        eexists; (split; [reflexivity |]); split; reflexivity.
  - apply bool_decide_eq_false in Hdot.
    destruct Haf as [-> | [x Hx]]; [done |].
    unfold to_float. rewrite Hx.
    destruct (bool_decide (hap = CStr (REF var))); simpl;
      match goal with |- context [f_lt ?a ?b] => destruct (f_lt a b) end; simpl;
      eexists; (split; [reflexivity |]); split; reflexivity.
Qed.

(** The loop over the databases: it stops at the first that suppresses
    the row, and otherwise keeps the fields of [keep_max]. *)
Lemma annotate_covering (r : row) (var : VcfRecord) (min_af : F)
    (samples : list string) (hap : cell) (gnomad_pop : string)
    (readers : list GnomadFilter) (found : list (string * string * string))
    (mx : string * string * string) (w : World) :
  r !! 7 = Some (CInt (Z.of_nat (length samples))) →
  r !! 5 = Some hap →
  answers var gnomad_pop readers found →
  ∃ w', annotate r var (Some min_af) (Some samples) gnomad_pop readers mx w
        = (Ok (if existsb (λ t, suppressed_by (bool_decide (hap = CStr (REF var)))
                                  min_af t.1.1) found
               then None
               else Some (fold_left (λ mx t, keep_max mx t.1.1 t.1.2 t.2) found mx)), w')
        ∧ written w' = written w
        ∧ reverse_allele_order w' = reverse_allele_order w.
Proof.
  intros H7 H5 Hans. revert mx w.
  induction Hans as [| reader [[af popmax] pop] readers found [Hfound Haf] _ IH];
    intros mx w; cbn [annotate existsb fold_left fst snd].
  - exists w. done.
  - unfold mbind at 1. unfold M_bind at 1. unfold lift at 1. rewrite Hfound.
    destruct (passes_min_af_covering r var min_af samples hap af w H7 H5 Haf)
      as (w1 & Hpass & Hwr & Hmem).
    unfold mbind at 1. unfold M_bind at 1. rewrite Hpass.
    destruct (suppressed_by (bool_decide (hap = CStr (REF var))) min_af af);
      cbn [negb orb].
    + exists w1. done.
    + destruct (IH (keep_max mx af popmax pop) w1) as (w' & Hrun & Hwr' & Hmem').
      exists w'. split; [exact Hrun |]. split; congruence.
Qed.
End AnnotatorFacts.

Section FrequencyFilter.
Context {F : Type} `{Float F}.

(** With a threshold configured and N_COMPAT (cell 7) equal to the number
    of samples, [output_row] goes through the databases in order.  With no
    database the row is written as it is.  Otherwise 0 is returned and
    nothing written as soon as [suppressed_by] holds of the answer of one
    database; if it holds of none, the three kept fields are appended, the
    row is written and 1 is returned. *)
Lemma output_row_by_database (r : row) (var : VcfRecord)
    (gnomad_readers : list GnomadFilter) (min_af : F) (samples : list string)
    (hap : cell) (gnomad_pop : string) (found : list (string * string * string))
    (w : World) :
  r !! 7 = Some (CInt (Z.of_nat (length samples))) →
  r !! 5 = Some hap →
  answers var gnomad_pop gnomad_readers found →
  let hap_is_ref := bool_decide (hap = CStr (REF var)) in
  let suppressed := existsb (λ t, suppressed_by hap_is_ref min_af t.1.1) found in
  let '(max_af, max_popmax, max_pop) := kept_fields found in
  (suppressed_by true min_af "." = true)
  ∧ (∀ af x, af ≠ "." → float af = Some x →
       other_allele_freq true af = Some x
       ∧ other_allele_freq false af = Some (f_sub f_one x))
  ∧ ∃ w',
      output_row r var gnomad_readers (Some min_af) (Some samples) gnomad_pop w
      = (Ok (if truthy gnomad_readers && suppressed then 0 else 1), w') ∧
      reverse_allele_order w' = reverse_allele_order w ∧
      written w'
      = written w
        ++ (if negb (truthy gnomad_readers) then [RowLine r]
            else if suppressed then []
            else [RowLine (r ++ [CStr max_af; CStr max_popmax; CStr max_pop])]).
Proof.
  intros H7 H5 Hans hap_is_ref suppressed.
  destruct (kept_fields found) as [[max_af max_popmax] max_pop] eqn:Hkept.
  split; [reflexivity |]. split.
  { intros af x Hne Hx. unfold other_allele_freq.
    rewrite bool_decide_eq_false_2 by exact Hne. rewrite Hx. done. }
  unfold output_row.
  destruct gnomad_readers as [| reader readers].
  - simpl. eexists. split; [reflexivity |]. done.
  - cbn [truthy negb andb].
    destruct (annotate_covering r var min_af samples hap gnomad_pop
                (reader :: readers) found (".", ".", ".")
                (mkWorld (reverse_allele_order w)
                   (logged w ++ [SearchingGnomad (CHROM var) (POS var) (REF var) (ALT var)])
                   (written w)) H7 H5 Hans)
      as (w1 & Hrun & Hwr & Hmem).
    unfold mbind at 1. unfold M_bind at 1. unfold log at 1.
    unfold mbind at 1. unfold M_bind at 1. rewrite Hrun.
    fold hap_is_ref. fold suppressed. fold (kept_fields found). rewrite Hkept.
    destruct suppressed.
    + exists w1. simpl in *. rewrite app_nil_r. done.
    + eexists. split; [reflexivity |]. simpl in *. split; congruence.
Qed.

(** C7 (as amended). With a threshold configured, N_COMPAT (cell 7) equal
    to the number of samples and, when the haplotype allele (cell 5) is the
    reference, the variant absent from all databases or present in all of
    them: with no database the row is written as it is.  Otherwise, when
    the haplotype allele is the reference and the variant is absent from
    all databases, the row is suppressed (0 is returned and nothing
    written).  A database that has the variant gives as frequency of the
    other allele the alternate frequency when the haplotype allele is the
    reference and 1 minus it when the haplotype allele is the alternate; a
    database that lacks it gives 1 when the haplotype allele is the
    alternate.  The row is suppressed as well when one of these
    frequencies is below the threshold, and in no other case: then the
    three kept fields are appended, the row is written and 1 is
    returned. *)
Theorem frequency_filter_by_database (r : row) (var : VcfRecord)
    (gnomad_readers : list GnomadFilter) (min_af : F) (samples : list string)
    (hap : cell) (gnomad_pop : string) (found : list (string * string * string))
    (w : World) :
  r !! 7 = Some (CInt (Z.of_nat (length samples))) →
  r !! 5 = Some hap →
  answers var gnomad_pop gnomad_readers found →
  (hap = CStr (REF var) →
   (∀ t, t ∈ found → t.1.1 = ".") ∨ (∀ t, t ∈ found → t.1.1 ≠ ".")) →
  let hap_is_ref := bool_decide (hap = CStr (REF var)) in
  let suppressed := existsb (λ t, suppressed_by hap_is_ref min_af t.1.1) found in
  let '(max_af, max_popmax, max_pop) := kept_fields found in
  (hap_is_ref = true → found ≠ [] → (∀ t, t ∈ found → t.1.1 = ".") → suppressed = true)
  ∧ (∀ af x, af ≠ "." → float af = Some x →
       suppressed_by true min_af af = f_lt x min_af
       ∧ suppressed_by false min_af af = f_lt (f_sub f_one x) min_af)
  ∧ suppressed_by false min_af "." = f_lt f_one min_af
  ∧ ∃ w',
      output_row r var gnomad_readers (Some min_af) (Some samples) gnomad_pop w
      = (Ok (if truthy gnomad_readers && suppressed then 0 else 1), w') ∧
      reverse_allele_order w' = reverse_allele_order w ∧
      written w'
      = written w
        ++ (if negb (truthy gnomad_readers) then [RowLine r]
            else if suppressed then []
            else [RowLine (r ++ [CStr max_af; CStr max_popmax; CStr max_pop])]).
Proof.
  intros H7 H5 Hans _ hap_is_ref suppressed.
  pose proof (output_row_by_database r var gnomad_readers min_af samples hap gnomad_pop
                found w H7 H5 Hans) as Hrun.
  cbv zeta in Hrun. fold hap_is_ref in Hrun. fold suppressed in Hrun.
  destruct (kept_fields found) as [[max_af max_popmax] max_pop].
  destruct Hrun as (_ & _ & Hrun).
  split.
  { intros Href Hne Hall. subst suppressed. rewrite Href.
    destruct found as [| t found]; [contradiction |].
    cbn [existsb]. rewrite (Hall t ltac:(left)). reflexivity. }
  split.
  { intros af x Hne Hx. unfold suppressed_by, other_allele_freq.
    rewrite bool_decide_eq_false_2 by exact Hne. rewrite Hx. done. }
  split; [reflexivity | exact Hrun].
Qed.
End FrequencyFilter.

(** ** The lines of a scan *)

Lemma pop_snoc (l : row) (c : cell) : pop (l ++ [c]) = Ok (c, l).
Proof. unfold pop. rewrite last_snoc, removelast_last. reflexivity. Qed.








Section ScanLines.
Context {F : Type} `{Float F}.

Lemma passes_min_af_same_written (r : row) (var : VcfRecord) (min_af : option F)
    (samples : option (list string)) (af : string) :
  preserves same_written (passes_min_af r var min_af samples af).
Proof. unfold passes_min_af. preserves_auto. Qed.

Lemma annotate_same_written (r : row) (var : VcfRecord) (min_af : option F)
    (samples : option (list string)) (gnomad_pop : string)
    (readers : list GnomadFilter) (mx : string * string * string) :
  preserves same_written (annotate r var min_af samples gnomad_pop readers mx).
Proof.
  revert mx. induction readers as [| reader readers IH]; intros mx; simpl.
  - preserves_auto.
  - pose proof (passes_min_af_same_written r var min_af samples).
    preserves_auto.
Qed.


End ScanLines.


Section RegionLines.
Context {F : Type} `{Float F}.




End RegionLines.

(** ** The whole scan: left flank, index row, right flank *)







Section WholeScan.
Context {F : Type} `{Float F}.

(** Without a threshold the loop over the databases never suppresses. *)
Lemma annotate_no_threshold (r : row) (var : VcfRecord)
    (samples : option (list string)) (gnomad_pop : string)
    (readers : list GnomadFilter) (mx : string * string * string)
    (w w' : World) (o : option (string * string * string)) :
  annotate r var None samples gnomad_pop readers mx w = (Ok o, w') → is_Some o.
Proof.
  revert mx w. induction readers as [| reader readers IH]; intros mx w; simpl.
  - intros [= <- _]. eauto.
  - unfold mbind at 1. unfold M_bind at 1. unfold lift at 1.
    destruct (search_gnomad var reader gnomad_pop) as [[[af popmax] pop] | e];
      [| discriminate].
    unfold mbind at 1. unfold M_bind at 1. simpl. apply IH.
Qed.


End WholeScan.

Lemma bind_log {B} (r : logrecord) (f : unit → M B) (w : World) :
  (log r ≫= f) w
  = f tt (mkWorld (reverse_allele_order w) (logged w ++ [r]) (written w)).
Proof. reflexivity. Qed.


Section PositionOrder.
Context {F : Type} `{Float F}.

End PositionOrder.

(** ** The claims on worked inputs *)

(** C1 (as amended). Each parent's transmitted allele is derived from that
    parent's genotype and, for one case, the other parent's: the alternate
    allele when the genotype contains the alternate and either does not
    contain the reference or the other parent's genotype is usable and does
    not contain the alternate; the reference allele when the genotype is
    usable and does not contain the alternate; and the side is left
    undetermined when the genotype is not usable, or contains both alleles
    while the other parent's genotype is not usable or contains the
    alternate. *)
Theorem transmitted_allele_rule (pgt ogt : gt) :
  (transmitted pgt ogt = Some 1
   ↔ Some 1 ∈ pgt ∧ (Some 0 ∉ pgt ∨ ((Some 1 ∉ ogt) ∧ (ogt ≠ []))))
  ∧ (transmitted pgt ogt = Some 0 ↔ pgt ≠ [] ∧ Some 1 ∉ pgt)
  ∧ (transmitted pgt ogt = None
     ↔ pgt = [] ∨ (Some 1 ∈ pgt ∧ Some 0 ∈ pgt ∧ (ogt = [] ∨ Some 1 ∈ ogt))).
Proof.
  split; [apply transmitted_alt |]. split; [apply transmitted_ref |].
  unfold transmitted.
  destruct (py_in (Some 1) pgt) eqn:H1; [apply py_in_true in H1 | apply py_in_false in H1].
  - destruct (py_in (Some 0) pgt) eqn:H0; [apply py_in_true in H0 | apply py_in_false in H0];
      cbn [negb orb].
    + destruct (py_in (Some 1) ogt) eqn:Ho;
        [apply py_in_true in Ho | apply py_in_false in Ho]; cbn [negb andb].
      * split; [intros _; right; auto | reflexivity].
      * destruct (truthy ogt) eqn:Ht;
          [apply truthy_true in Ht | apply truthy_false in Ht].
        -- split; [discriminate |].
           intros [-> | (_ & _ & [? | ?])]; [inversion H1 | done | done].
        -- split; [intros _; right; auto | reflexivity].
    + split; [discriminate |].
      intros [-> | (_ & ? & _)]; [inversion H1 | done].
  - destruct (truthy pgt) eqn:Ht; [apply truthy_true in Ht | apply truthy_false in Ht].
    + split; [discriminate | intros [? | [? _]]; done].
    + split; [intros _; left; exact Ht | reflexivity].
Qed.

(** C1, as the specification states it, fails when both parents are
    heterozygous: the rule of the specification gives the father the
    reference allele, the program leaves his side undetermined, and the
    child is reported unphased. *)
Lemma het_parents_side_undetermined :
  truthy Example.ref_alt = true
  ∧ transmitted_as_specified Example.ref_alt Example.ref_alt = Some 0
  ∧ transmitted Example.ref_alt Example.ref_alt = None
  ∧ (phase_samples Example.ped_file Example.gt_filter Example.both_het false
       ["child"] Example.empty_world).1
    = Ok (mkLocals ["A/G"] [("A/G", "A/G")] ∅ ∅ true).
Proof. repeat split; vm_compute; reflexivity. Qed.

(** C7, as the specification states it, fails when no frequency database
    is given: with a threshold, the reference allele as haplotype allele
    and N_COMPAT equal to the number of samples, the row is written. *)
Lemma no_database_no_suppression :
  Example.ref_row !! 5 = Some (CStr (REF Example.paternal_alt))
  ∧ Example.ref_row !! 7 = Some (CInt (Z.of_nat (length ["child"])))
  ∧ Forall (λ reader : GnomadFilter,
              search_gnomad Example.paternal_alt reader "POPMAX" = Ok (".", ".", ".")) []
  ∧ output_row Example.ref_row Example.paternal_alt [] (Some (1 # 100)%Q)
      (Some ["child"]) "POPMAX" Example.empty_world
    = (Ok 1, mkWorld ∅ [] [RowLine Example.ref_row]).
Proof.
  split; [reflexivity |]. split; [reflexivity |]. split; [constructor |].
  vm_compute. reflexivity.
Qed.

(** C9 on two databases: the alternate frequencies 0.5 and 9e-05 are
    compared as texts, and the fields kept are those of 9e-05, the smaller
    number. *)
Theorem lexicographic_maximum_kept :
  output_row Example.ref_row Example.paternal_alt
    [Example.database "0.5" "0.6" "afr"; Example.database "9e-05" "0.0002" "nfe"]
    (None : option Q) None "POPMAX" Example.empty_world
  = (Ok 1,
     mkWorld ∅ [SearchingGnomad "1" 1300 "A" "G"]
       [RowLine (Example.ref_row ++ [CStr "9e-05"; CStr "0.0002"; CStr "nfe"])])
  ∧ float_Q "0.5" = Some (1 # 2)%Q
  ∧ float_Q "9e-05" = Some (9 # 100000)%Q
  ∧ (9 # 100000 < 1 # 2)%Q.
Proof. repeat split; vm_compute; reflexivity. Qed.

(** The child of the worked family at a site, with the genotypes of its
    parents as the program takes them. *)
Ltac example_trio :=
  unfold het_trio;
  split; [reflexivity |]; split; [reflexivity |];
  split; [vm_compute; reflexivity |]; split; [left; reflexivity |];
  exists (mkIndividual "F1" (Some "dad") (Some "mum"));
  split; [vm_compute; reflexivity |]; split; vm_compute; reflexivity.



(** C2 on the worked family: the flag of the child was set by the index
    variant; at a later site where the alternate allele is paternal, the
    child is still reported with the maternal allele first. *)
Lemma orientation_fixed_by_index_variant_witness :
  ALLELES Example.paternal_alt = ["A"; "G"]
  ∧ het_trio Example.ped_file Example.gt_filter Example.paternal_alt "child"
      Example.ref_alt Example.ref_alt Example.ref_ref
  ∧ complete_sides (transmitted Example.ref_alt Example.ref_ref)
      (transmitted Example.ref_ref Example.ref_alt) = Some (1, 0)
  ∧ flag (reverse_allele_order Example.child_reversed) "child" = true
  ∧ ∃ st' w',
      phase_sample Example.ped_file Example.gt_filter Example.paternal_alt false
        init_locals "child" Example.child_reversed = (Ok st', w') ∧
      flag (reverse_allele_order w') "child" = true ∧
      calls st' = ["A|G"] ∧
      allele_in_phase st' !! "child" = Some (Some 0).
Proof.
  assert (HA : ALLELES Example.paternal_alt = ["A"; "G"]) by reflexivity.
  assert (Htrio : het_trio Example.ped_file Example.gt_filter Example.paternal_alt "child"
                    Example.ref_alt Example.ref_alt Example.ref_ref) by example_trio.
  assert (Hcs : complete_sides (transmitted Example.ref_alt Example.ref_ref)
                  (transmitted Example.ref_ref Example.ref_alt) = Some (1, 0))
    by reflexivity.
  assert (Hflag0 : flag (reverse_allele_order Example.child_reversed) "child" = true)
    by (vm_compute; reflexivity).
  split; [exact HA |]. split; [exact Htrio |]. split; [exact Hcs |].
  split; [exact Hflag0 |].
  destruct (proj2 (proj2 orientation_fixed_by_index_variant) Example.ped_file
              Example.gt_filter Example.paternal_alt false init_locals "child"
              Example.ref_alt Example.ref_alt Example.ref_ref "A" "G" 1 0
              Example.child_reversed HA Htrio Hcs ltac:(discriminate))
    as (st' & w' & Hrun & Hflag & _ & Hcalls & Hph).
  rewrite Hflag0 in Hflag. simpl in Hflag. rewrite Hflag in Hcalls, Hph.
  exists st', w'. repeat split; assumption.
Defined.

(** C3 on the worked family: the child is phased, the sibling is not
    called; the sibling counts as compatible. *)
Lemma n_compat_counts_witness :
  let run := parse_haplotypes Example.sib_missing ["child"; "sib"] [] Example.ped_file
               Example.gt_filter false false Example.empty_world in
  let r := [CStr "1"; CInt 1200; CStr "rs"; CStr "A"; CStr "G"; CStr "G"; CInt 1; CInt 2;
            CStr "G|A"; CStr "NoCall"; CInt 0; CInt 0; CBool true; CBool false; CInt 1] in
  run = (Ok (Some r), run.2)
  ∧ ∃ st n_in_phase n_compat,
      phase_samples Example.ped_file Example.gt_filter Example.sib_missing false
        ["child"; "sib"] Example.empty_world = (Ok st, run.2) ∧
      r !! 6 = Some (CInt (Z.of_nat n_in_phase)) ∧
      r !! 7 = Some (CInt (Z.of_nat n_compat)) ∧
      n_in_phase ≤ n_compat ∧
      n_compat = n_in_phase + length (compatible_unphased Example.sib_missing
                                        ["child"; "sib"] st).
Proof.
  intros run r.
  assert (Hrun : run = (Ok (Some r), run.2)) by (vm_compute; reflexivity).
  split; [exact Hrun |].
  destruct (n_compat_counts Example.sib_missing ["child"; "sib"] [] Example.ped_file
              Example.gt_filter false false Example.empty_world run.2 r Hrun)
    as (st & n_in & n_c & Hloop & H6 & H7 & Hle & Hsum & _).
  exists st, n_in, n_c. repeat split; assumption.
Defined.

(** C10 on the worked family: the child is in phase with the alternate
    allele, the sibling with the reference allele. *)
Lemma tie_reports_unknown_haplotype_witness :
  let run := parse_haplotypes Example.paternal_alt ["child"; "sib"] [] Example.ped_file
               Example.gt_filter false false Example.empty_world in
  let r := [CStr "1"; CInt 1300; CStr "rs"; CStr "A"; CStr "G"; CStr "?"; CInt 1; CInt 1;
            CStr "G|A"; CStr "A|A"; CInt 0; CInt 0; CBool true; CBool true; CInt 0] in
  run = (Ok (Some r), run.2)
  ∧ ∃ st,
      phase_samples Example.ped_file Example.gt_filter Example.paternal_alt false
        ["child"; "sib"] Example.empty_world = (Ok st, run.2) ∧
      phased_values st ≠ [] ∧
      count_ref (phased_values st) = length (phased_values st) - count_ref (phased_values st) ∧
      r !! 5 = Some (CStr "?") ∧
      r !! 6 = Some (CInt (Z.of_nat (count_ref (phased_values st)))) ∧
      0 < count_ref (phased_values st).
Proof.
  intros run r.
  assert (Hrun : run = (Ok (Some r), run.2)) by (vm_compute; reflexivity).
  split; [exact Hrun |].
  destruct (tie_reports_unknown_haplotype Example.paternal_alt ["child"; "sib"] []
              Example.ped_file Example.gt_filter false false Example.empty_world run.2 r
              Hrun)
    as (st & Hloop & Htie).
  assert (Hst : (phase_samples Example.ped_file Example.gt_filter Example.paternal_alt
                   false ["child"; "sib"] Example.empty_world).1 = Ok st)
    by (rewrite Hloop; reflexivity).
  vm_compute in Hst. injection Hst as <-.
  assert (Hne : phased_values
                  (mkLocals ["G|A"; "A|A"] [("G", "A"); ("A", "A")] ∅
                     (<["child":=Some 1]> (<["sib":=Some 0]> ∅)) true) ≠ [])
    by (vm_compute; discriminate).
  exists (mkLocals ["G|A"; "A|A"] [("G", "A"); ("A", "A")] ∅
            (<["child":=Some 1]> (<["sib":=Some 0]> ∅)) true).
  split; [exact Hloop |]. split; [exact Hne |].
  split; [vm_compute; reflexivity |].
  apply Htie; [exact Hne | vm_compute; reflexivity].
Defined.

(** The site of the worked family where no sample of interest has the
    alternate allele is rejected by the third rule. *)
Lemma example_no_alt_rejected :
  rejected Example.gt_filter Example.no_alt ["child"; "sib"].
Proof.
  right. right. split.
  - intros s Hs _.
    apply elem_of_cons in Hs as [-> | Hs];
      [| apply list_elem_of_singleton in Hs as ->].
    + exists Example.ref_ref. split; [vm_compute; reflexivity |].
      right. exists 0, 0. split; [reflexivity | lia].
    + exists Example.missing. split; [vm_compute; reflexivity | left; reflexivity].
  - intros s Hs (_ & sgt & Hgt & Halt).
    apply elem_of_cons in Hs as [-> | Hs];
      [| apply list_elem_of_singleton in Hs as ->];
      vm_compute in Hgt; injection Hgt as <-;
      repeat (apply elem_of_cons in Halt as [Halt | Halt]; [discriminate Halt |]);
      inversion Halt.
Defined.

(** C6. The rule for a variant of which no sample of interest carries the
    alternate allele fails on a sample called on one allele only: at the
    site [Example.half_called], two alleles of one base each, the child has
    the admissible genotype 0/. and no sample of interest carries the
    alternate allele, yet [parse_haplotypes] does not return [None]:
    [max(sgt)] of line 190 compares [None] with an integer and the call
    ends in a TypeError, on a flanking variant and on the index variant
    alike. *)
Lemma half_called_sample_raises :
  ALLELES Example.half_called = ["A"; "G"]
  ∧ GT Example.half_called !! "child" = Some [Some 0; None]
  ∧ admissible Example.gt_filter Example.half_called "child" = true
  ∧ no_sample_with_alt Example.gt_filter Example.half_called ["child"]
  ∧ parse_haplotypes Example.half_called ["child"] [] Example.ped_file
      Example.gt_filter false false Example.empty_world
    = (Raise TypeError, Example.empty_world)
  ∧ parse_haplotypes Example.half_called ["child"] [] Example.ped_file
      Example.gt_filter false true Example.empty_world
    = (Raise TypeError, Example.empty_world).
Proof.
  split; [reflexivity |]. split; [vm_compute; reflexivity |].
  split; [reflexivity |].
  split; [| split; vm_compute; reflexivity].
  intros s Hs (_ & sgt & Hgt & Halt).
  apply list_elem_of_singleton in Hs as ->.
  vm_compute in Hgt. injection Hgt as <-.
  repeat (apply elem_of_cons in Halt as [Halt | Halt]; [discriminate Halt |]).
  inversion Halt.
Qed.

(** The rejection rules on the worked family. *)
Lemma rejected_variant_returns_none_witness :
  rejected Example.gt_filter Example.no_alt ["child"; "sib"]
  ∧ ∃ w',
      parse_haplotypes Example.no_alt ["child"; "sib"] [] Example.ped_file
        Example.gt_filter false false Example.child_reversed = (Ok None, w') ∧
      reverse_allele_order w' = reverse_allele_order Example.child_reversed ∧
      written w' = written Example.child_reversed ∧
      warnings w' = warnings Example.child_reversed.
Proof.
  split; [exact example_no_alt_rejected |].
  exact (proj1 (proj1 (rejected_variant_returns_none Example.no_alt ["child"; "sib"] []
                         Example.ped_file Example.gt_filter false false
                         Example.child_reversed)
                  example_no_alt_rejected)).
Defined.

(** C7 on two databases that both have the variant, at frequencies 0.5
    and 0.001; the haplotype allele is the reference and the threshold is
    0.01: the row is suppressed at the second. *)
Lemma frequency_filter_by_database_witness :
  let found := [("0.5", "0.6", "afr"); ("0.001", "0.002", "nfe")] in
  let readers := [Example.database "0.5" "0.6" "afr";
                  Example.database "0.001" "0.002" "nfe"] in
  Example.ref_row !! 7 = Some (CInt (Z.of_nat (length ["child"])))
  ∧ Example.ref_row !! 5 = Some (CStr "A")
  ∧ answers Example.paternal_alt "POPMAX" readers found
  ∧ (∀ t, t ∈ found → t.1.1 ≠ ".")
  ∧ ∃ w',
      output_row Example.ref_row Example.paternal_alt readers (Some (1 # 100)%Q)
        (Some ["child"]) "POPMAX" Example.empty_world = (Ok 0, w') ∧
      written w' = [].
Proof.
  intros found readers.
  assert (H7 : Example.ref_row !! 7 = Some (CInt (Z.of_nat (length ["child"]))))
    by reflexivity.
  assert (H5 : Example.ref_row !! 5 = Some (CStr "A")) by reflexivity.
  assert (Hans : answers Example.paternal_alt "POPMAX" readers found).
  { constructor; [split; [vm_compute; reflexivity | right; eexists; vm_compute; reflexivity] |].
    constructor; [split; [vm_compute; reflexivity | right; eexists; vm_compute; reflexivity]
                 | constructor]. }
  assert (Hin : ∀ t, t ∈ found → t.1.1 ≠ ".").
  { intros t Ht.
    repeat (apply elem_of_cons in Ht as [-> | Ht]; [discriminate |]). inversion Ht. }
  split; [exact H7 |]. split; [exact H5 |]. split; [exact Hans |]. split; [exact Hin |].
  pose proof (frequency_filter_by_database Example.ref_row Example.paternal_alt readers
                (1 # 100)%Q ["child"] (CStr "A") "POPMAX" found Example.empty_world
                H7 H5 Hans (λ _, or_intror Hin)) as Hfilter.
  vm_compute in Hfilter.
  destruct Hfilter as (_ & _ & _ & w' & Hrun & _ & Hwr).
  exists w'. split; [| exact Hwr].
  vm_compute. exact Hrun.
Defined.

(** The case the amended C7 leaves out: the first database has the variant
    at frequency 0.5, the second does not have it, and the haplotype
    allele is the reference.  The row is suppressed at the second
    database. *)
Lemma absent_from_one_database_suppresses :
  search_gnomad Example.paternal_alt (Example.database "0.5" "0.6" "afr") "POPMAX"
  = Ok ("0.5", "0.6", "afr")
  ∧ search_gnomad Example.paternal_alt Example.empty_database "POPMAX"
    = Ok (".", ".", ".")
  ∧ output_row Example.ref_row Example.paternal_alt
      [Example.database "0.5" "0.6" "afr"; Example.empty_database] (Some (1 # 100)%Q)
      (Some ["child"]) "POPMAX" Example.empty_world
    = (Ok 0, mkWorld ∅ [SearchingGnomad "1" 1300 "A" "G"; SkipAbsentRef] []).
Proof. repeat split; vm_compute; reflexivity. Qed.






(** * Further properties of the program *)

(** ** The loop over the samples: one call per sample, no-calls apart *)

Lemma returns_weaken {A} (P Q : A → Prop) (m : M A) :
  (∀ a, P a → Q a) → returns P m → returns Q m.
Proof. intros HPQ Hm w a w' Hrun. apply HPQ. eapply Hm. exact Hrun. Qed.

Lemma unphased_adds_call (var : VcfRecord) (sgt : gt) (s : string) (st0 st : Locals) :
  calls st = calls st0 → alleles st = alleles st0 →
  sample_no_calls st = sample_no_calls st0 → allele_in_phase st = allele_in_phase st0 →
  returns (one_call_added s st0) (unphased var sgt st).
Proof.
  intros Hc Ha Hn Hp. unfold unphased.
  apply (returns_bind (λ _, True)); [apply returns_any | intros c _].
  apply returns_ret. exists c, (c, c). simpl. rewrite Hc, Ha, Hn, Hp. auto.
Qed.

Lemma report_phase_adds_call (var : VcfRecord) (index_var : bool) (s : string)
    (pat mat : nat) (st0 st : Locals) :
  calls st = calls st0 → alleles st = alleles st0 →
  sample_no_calls st = sample_no_calls st0 → allele_in_phase st = allele_in_phase st0 →
  returns (one_call_added s st0) (report_phase var index_var s pat mat st).
Proof.
  intros Hc Ha Hn Hp. unfold report_phase.
  apply (returns_bind (λ _, True)); [apply returns_any | intros _ _].
  apply (returns_bind (λ _, True)); [apply returns_any | intros rev _].
  destruct rev;
    (apply (returns_bind (λ _, True)); [apply returns_any | intros a1 _];
     apply (returns_bind (λ _, True)); [apply returns_any | intros a2 _];
     apply returns_ret; eexists _, _; simpl; rewrite Hc, Ha, Hn, Hp;
     split; [reflexivity |]; split; [reflexivity |]; split; [reflexivity |];
     right; eexists; reflexivity).
Qed.

(** The loop body, whatever the genotypes: a no-call sample is recorded as
    such, any other sample adds one call and at most its own entry in
    [allele_in_phase]. *)
Lemma phase_sample_shape (ped_file : PedFile) (gt_filter : GtFilter)
    (var : VcfRecord) (index_var : bool) (st : Locals) (s : string) :
  returns (λ st', (no_call_sample gt_filter var s ∧ st' = no_call s st)
                  ∨ (¬ no_call_sample gt_filter var s ∧ one_call_added s st st'))
          (phase_sample ped_file gt_filter var index_var st s).
Proof.
  unfold phase_sample.
  destruct (negb (gt_is_ok gt_filter var s 0) || negb (gt_is_ok gt_filter var s 1))
    eqn:Hadm.
  { apply returns_ret. left. split; [| reflexivity]. left.
    unfold admissible. destruct (gt_is_ok gt_filter var s 0), (gt_is_ok gt_filter var s 1);
      simpl in *; congruence. }
  assert (Hok : admissible gt_filter var s = true).
  { unfold admissible. destruct (gt_is_ok gt_filter var s 0), (gt_is_ok gt_filter var s 1);
      simpl in *; congruence. }
  apply (returns_bind (λ sgt, GT var !! s = Some sgt)).
  { apply returns_lift. unfold getitem. intros sgt. destruct (GT var !! s); congruence. }
  intros sgt Hs.
  destruct (bool_decide (len_set sgt = 1) && py_in None sgt) eqn:Hmiss.
  { apply returns_ret. left. split; [| reflexivity]. right.
    apply andb_true_iff in Hmiss as [Hl Hn].
    apply bool_decide_eq_true in Hl. apply py_in_true in Hn. eauto. }
  assert (Hnot : ¬ no_call_sample gt_filter var s).
  { intros [Hbad | (sgt' & Hs' & Hl & Hn)]; [congruence |].
    rewrite Hs in Hs'. injection Hs' as <-.
    apply andb_false_iff in Hmiss as [Hf | Hf].
    - apply bool_decide_eq_false in Hf. contradiction.
    - apply py_in_false in Hf. contradiction. }
  apply (returns_weaken (one_call_added s st)); [intros st' Hst'; right; done |].
  set (st1 := if py_in (Some 1) sgt then saw_alt st else st).
  assert (Hst1 : calls st1 = calls st ∧ alleles st1 = alleles st
                 ∧ sample_no_calls st1 = sample_no_calls st
                 ∧ allele_in_phase st1 = allele_in_phase st)
    by (subst st1; destruct (py_in (Some 1) sgt); done).
  destruct Hst1 as (Hc & Ha & Hn & Hp).
  destruct (bool_decide (len_set sgt = 1)).
  - do 5 (apply (returns_bind (λ _, True)); [apply returns_any | intros ? _]).
    apply returns_ret. eexists _, _. simpl. rewrite Hc, Ha, Hn, Hp.
    split; [reflexivity |]. split; [reflexivity |]. split; [reflexivity |].
    right. eexists. reflexivity.
  - do 4 (apply (returns_bind (λ _, True)); [apply returns_any | intros ? _]).
    unfold phase_het.
    destruct (negb _ && negb _); [apply unphased_adds_call; assumption |].
    destruct (complete_sides _ _) as [[pat mat] |];
      [| apply unphased_adds_call; assumption].
    destruct (bool_decide (mat = pat)); [| apply report_phase_adds_call; assumption].
    apply (returns_bind (λ _, True)); [apply returns_any | intros _ _].
    apply unphased_adds_call; assumption.
Qed.

Lemma loop_invariant_step (gt_filter : GtFilter) (var : VcfRecord)
    (seen : list string) (s : string) (st st' : Locals) :
  loop_invariant gt_filter var seen st →
  (no_call_sample gt_filter var s ∧ st' = no_call s st)
  ∨ (¬ no_call_sample gt_filter var s ∧ one_call_added s st st') →
  loop_invariant gt_filter var (seen ++ [s]) st'.
Proof.
  intros (Hc & Ha & Hn & Hp) [[Hnc ->] | [Hnc (c & al & Hc' & Ha' & Hn' & Hp')]].
  - unfold loop_invariant. simpl. rewrite !length_app. simpl.
    split; [lia |]. split; [lia |]. split.
    + intros x. rewrite elem_of_union, elem_of_singleton, Hn, elem_of_app,
        list_elem_of_singleton.
      split.
      * intros [-> | [Hx Hxn]]; [split; [right; reflexivity | exact Hnc] |].
        split; [left; exact Hx | exact Hxn].
      * intros [[Hx | ->] Hxn]; [right; done | left; reflexivity].
    + intros x Hx. destruct (Hp x Hx) as [Hseen Hxn].
      split; [apply elem_of_app; left; exact Hseen | exact Hxn].
  - unfold loop_invariant. rewrite Hc', Ha', Hn', !length_app. simpl.
    split; [lia |]. split; [lia |]. split.
    + intros x. rewrite Hn, elem_of_app, list_elem_of_singleton.
      split; [intros [Hx Hxn]; split; [left; exact Hx | exact Hxn] |].
      intros [[Hx | ->] Hxn]; [done | contradiction].
    + intros x Hx. rewrite elem_of_app, list_elem_of_singleton.
      destruct Hp' as [Hsame | [a Hins]].
      * rewrite Hsame in Hx. destruct (Hp x Hx). auto.
      * rewrite Hins in Hx. destruct (decide (s = x)) as [<- | Hne]; [auto |].
        rewrite lookup_insert_ne in Hx by exact Hne. destruct (Hp x Hx). auto.
Qed.

Lemma phase_loop_invariant (ped_file : PedFile) (gt_filter : GtFilter)
    (var : VcfRecord) (index_var : bool) (samples seen : list string) (st : Locals) :
  loop_invariant gt_filter var seen st →
  returns (loop_invariant gt_filter var (seen ++ samples))
          (foldM (phase_sample ped_file gt_filter var index_var) samples st).
Proof.
  revert seen st. induction samples as [| s samples IH]; intros seen st Hinv; simpl.
  - apply returns_ret. rewrite app_nil_r. exact Hinv.
  - apply (returns_bind (loop_invariant gt_filter var (seen ++ [s]))).
    + eapply returns_weaken; [| apply phase_sample_shape].
      intros st' Hst'. eapply loop_invariant_step; eassumption.
    + intros st' Hst'. specialize (IH (seen ++ [s]) st' Hst').
      rewrite <- app_assoc in IH. exact IH.
Qed.

(** The invariant holds of the locals the whole loop ends with. *)
Lemma phase_samples_loop_invariant (ped_file : PedFile) (gt_filter : GtFilter)
    (var : VcfRecord) (index_var : bool) (samples : list string)
    (w w' : World) (st : Locals) :
  phase_samples ped_file gt_filter var index_var samples w = (Ok st, w') →
  loop_invariant gt_filter var samples st.
Proof.
  intros Hrun.
  apply (phase_loop_invariant ped_file gt_filter var index_var samples [] init_locals)
    in Hrun; [exact Hrun |].
  unfold loop_invariant. simpl. split; [reflexivity |]. split; [reflexivity |].
  split.
  - intros s. split; [intros Hs; set_solver | intros [Hs _]; inversion Hs].
  - intros s [a Ha]. rewrite lookup_empty in Ha. discriminate.
Qed.

(** X1. When the loop over the samples ends normally, it has appended
    exactly one call and one allele pair per sample of interest; the set
    of no-calls holds exactly the samples of interest with an inadmissible
    or fully missing genotype; and a sample in [allele_in_phase] is a
    sample of interest that is not a no-call. *)
Theorem phase_samples_invariant (ped_file : PedFile) (gt_filter : GtFilter)
    (var : VcfRecord) (index_var : bool) (samples : list string)
    (w w' : World) (st : Locals) :
  phase_samples ped_file gt_filter var index_var samples w = (Ok st, w') →
  length (calls st) = length samples ∧
  length (alleles st) = length samples ∧
  (∀ s, s ∈ sample_no_calls st ↔ s ∈ samples ∧ no_call_sample gt_filter var s) ∧
  (∀ s, is_Some (allele_in_phase st !! s) → s ∈ samples ∧ ¬ no_call_sample gt_filter var s).
Proof. intros Hrun. exact (phase_samples_loop_invariant _ _ _ _ _ _ _ _ Hrun). Qed.

(** ** The cells of a row and their bounds *)

(** The row [summarise] builds, with its sample columns. *)
Lemma summarise_cells (gt_filter : GtFilter) (var : VcfRecord)
    (samples unrelateds : list string) (output_alleles : bool) (st : Locals) (r : row) :
  summarise gt_filter var samples unrelateds output_alleles st = Ok r →
  ∃ n_compat hap an af,
    foldR (compat_step var st (dominant (phased_values st))) (not_phased samples st)
          (in_phase_count (phased_values st)) = Ok n_compat ∧
    r = [CStr (CHROM var); CInt (POS var); CStr (ID var); CStr (REF var); CStr (ALT var);
         CStr hap; CInt (Z.of_nat (in_phase_count (phased_values st)));
         CInt (Z.of_nat n_compat)]
        ++ (if output_alleles
            then concat ((λ al, [CStr al.1; CStr al.2]) <$> alleles st)
            else CStr <$> calls st)
        ++ [an; af; CBool (truthy (phased_values st));
            CBool (bool_decide (length (phased_values st) = length samples));
            CInt (Z.of_nat (size (sample_no_calls st)))].
Proof.
  intros Hrun. unfold summarise in Hrun.
  apply bind_ok_inv in Hrun as (counts & _ & Hrun).
  apply bind_ok_inv in Hrun as (n_compat & Hcompat & Hrun).
  apply bind_ok_inv in Hrun as (hap & _ & Hrun).
  apply bind_ok_inv in Hrun as (het & _ & Hrun).
  apply bind_ok_inv in Hrun as (hom & _ & Hrun).
  injection Hrun as <-.
  exists n_compat, hap. eexists _, _. split; [exact Hcompat | reflexivity].
Qed.

Lemma length_allele_cells (l : list (string * string)) :
  length (concat ((λ al, [CStr al.1; CStr al.2]) <$> l)) = 2 * length l.
Proof.
  induction l as [| al l IH]; [reflexivity |].
  rewrite fmap_cons. cbn [concat]. rewrite length_app, IH. simpl. lia.
Qed.

Lemma length_filter_split {A} (P : A → Prop) `{!∀ x, Decision (P x)} (l : list A) :
  length (filter P l) + length (filter (λ x, ¬ P x) l) = length l.
Proof.
  induction l as [| x l IH]; [reflexivity |].
  rewrite !filter_cons. destruct (decide (P x)) as [Hp | Hp].
  - rewrite decide_False by tauto. simpl. lia.
  - rewrite decide_True by exact Hp. simpl. lia.
Qed.

(** A map whose keys are all in a list has at most as many entries as the
    list has elements with an entry. *)
Lemma size_keys_in_list {V} (m : gmap string V) (l : list string) :
  (∀ k, is_Some (m !! k) → k ∈ l) →
  size m + length (filter (λ x, m !! x = None) l) ≤ length l.
Proof.
  intros Hkeys.
  assert (Hle : size m ≤ length (filter (λ x, ¬ m !! x = None) l)).
  { rewrite <- length_map_to_list, <- (length_fmap fst).
    apply submseteq_length, NoDup_submseteq; [apply NoDup_fst_map_to_list |].
    intros k Hk. apply list_elem_of_fmap in Hk as ([k' v] & -> & Hkv).
    apply elem_of_map_to_list in Hkv. simpl.
    apply list_elem_of_filter. split; [congruence | apply Hkeys; eauto]. }
  pose proof (length_filter_split (λ x, m !! x = None) l). lia.
Qed.

Lemma in_phase_count_le (phased : list (option nat)) :
  in_phase_count phased ≤ length phased.
Proof.
  unfold in_phase_count. destruct (truthy phased); [| lia].
  pose proof (length_filter (λ a, a = Some 0) phased). unfold count_ref. lia.
Qed.

Lemma in_phase_count_pos (phased : list (option nat)) :
  truthy phased = true ↔ 0 < in_phase_count phased.
Proof.
  unfold in_phase_count. destruct phased as [| a l]; simpl; [split; [discriminate | lia] |].
  split; [intros _ | reflexivity].
  pose proof (length_filter (λ x, x = Some 0) (a :: l)). unfold count_ref.
  simpl length in *. lia.
Qed.

Lemma length_phased_values (st : Locals) :
  length (phased_values st) = size (allele_in_phase st).
Proof. unfold phased_values. rewrite length_fmap. apply length_map_to_list. Qed.

Lemma size_set_in_list (X : gset string) (l : list string) :
  (∀ x, x ∈ X → x ∈ l) → size X ≤ length l.
Proof.
  intros Hsub. unfold size, set_size. simpl.
  apply submseteq_length, NoDup_submseteq; [apply NoDup_elements |].
  intros x Hx. apply Hsub. apply elem_of_elements. exact Hx.
Qed.

(** The layout of a row and the bounds on its counts. *)
Lemma parse_haplotypes_layout (var : VcfRecord) (samples unrelateds : list string)
    (ped_file : PedFile) (gt_filter : GtFilter) (output_alleles index_var : bool)
    (w w' : World) (r : row) :
  parse_haplotypes var samples unrelateds ped_file gt_filter output_alleles index_var w
  = (Ok (Some r), w') →
  ∃ hap n_in_phase n_compat cols an af informative all_phased no_calls,
    r = [CStr (CHROM var); CInt (POS var); CStr (ID var); CStr (REF var); CStr (ALT var);
         CStr hap; CInt (Z.of_nat n_in_phase); CInt (Z.of_nat n_compat)]
        ++ cols
        ++ [an; af; CBool informative; CBool all_phased; CInt (Z.of_nat no_calls)] ∧
    length cols = (if output_alleles then 2 * length samples else length samples) ∧
    length r = 13 + length cols ∧
    n_in_phase ≤ n_compat ∧ n_compat ≤ length samples ∧
    no_calls ≤ length samples ∧
    (informative = true ↔ 0 < n_in_phase) ∧
    (all_phased = true → no_calls = 0 ∧ n_compat = n_in_phase).
Proof.
  intros Hrun.
  apply parse_haplotypes_row in Hrun as (st & a0 & a1 & _ & Hloop & _ & Hsum).
  apply phase_samples_loop_invariant in Hloop as (Hcalls & Halleles & Hnc & Hphased).
  apply summarise_cells in Hsum as (n_compat & hap & an & af & Hfold & ->).
  apply compat_fold in Hfold as [Hn _].
  pose proof (in_phase_count_le (phased_values st)) as Hin.
  rewrite length_phased_values in Hin.
  pose proof (size_keys_in_list (allele_in_phase st) samples
                (λ k Hk, proj1 (Hphased k Hk))) as Hsize.
  fold (not_phased samples st) in Hsize.
  pose proof (length_filter (λ s, compatible var st (dominant (phased_values st)) s = true)
                (not_phased samples st)) as Hcompat.
  assert (Hncs : size (sample_no_calls st) ≤ length samples).
  { apply size_set_in_list. intros x Hx. apply Hnc in Hx as [Hx _]. exact Hx. }
  eexists hap, _, n_compat, _, an, af, _, _, _.
  split; [reflexivity |].
  assert (Hcols : length (if output_alleles
                          then concat ((λ al, [CStr al.1; CStr al.2]) <$> alleles st)
                          else CStr <$> calls st)
                  = (if output_alleles then 2 * length samples else length samples)).
  { destruct output_alleles; [rewrite length_allele_cells, Halleles; reflexivity |].
    rewrite length_fmap. exact Hcalls. }
  split; [exact Hcols |].
  split; [simpl; rewrite length_app; simpl; lia |].
  split; [lia |]. split; [lia |]. split; [exact Hncs |].
  split; [apply in_phase_count_pos |].
  intros Hall. apply bool_decide_eq_true in Hall. rewrite length_phased_values in Hall.
  assert (Hnone : not_phased samples st = []).
  { apply length_zero_iff_nil. lia. }
  split.
  - assert (Hempty : sample_no_calls st = ∅).
    { apply set_eq. intros x. split; [| intros Hx; set_solver].
      intros Hx. apply Hnc in Hx as [Hx Hxn]. exfalso.
      destruct (allele_in_phase st !! x) as [a |] eqn:Hax.
      - destruct (Hphased x ltac:(eauto)) as [_ Hxn']. contradiction.
      - assert (Hin' : x ∈ not_phased samples st)
          by (apply list_elem_of_filter; done).
        rewrite Hnone in Hin'. inversion Hin'. }
    rewrite Hempty. reflexivity.
  - rewrite Hn, Hnone. simpl. lia.
Qed.

(** X2. Every row [parse_haplotypes] returns has the five cells of the
    variant, HAP, N_IN_PHASE and N_COMPAT, then one cell per sample of
    interest (two when alleles are output), then OTHER_N_ALLELES, ALT_MAF,
    the two flags and the number of no-calls: 13 cells plus the sample
    columns.  The counts satisfy N_IN_PHASE <= N_COMPAT <= number of
    samples and no-calls <= number of samples; the first flag is true
    exactly when N_IN_PHASE is positive; and when the second flag is true
    there is no no-call and N_COMPAT equals N_IN_PHASE. *)
Theorem row_layout_and_bounds (var : VcfRecord) (samples unrelateds : list string)
    (ped_file : PedFile) (gt_filter : GtFilter) (output_alleles index_var : bool)
    (w w' : World) (r : row) :
  parse_haplotypes var samples unrelateds ped_file gt_filter output_alleles index_var w
  = (Ok (Some r), w') →
  ∃ hap n_in_phase n_compat cols an af informative all_phased no_calls,
    r = [CStr (CHROM var); CInt (POS var); CStr (ID var); CStr (REF var); CStr (ALT var);
         CStr hap; CInt (Z.of_nat n_in_phase); CInt (Z.of_nat n_compat)]
        ++ cols
        ++ [an; af; CBool informative; CBool all_phased; CInt (Z.of_nat no_calls)] ∧
    length cols = (if output_alleles then 2 * length samples else length samples) ∧
    length r = 13 + length cols ∧
    n_in_phase ≤ n_compat ∧ n_compat ≤ length samples ∧
    no_calls ≤ length samples ∧
    (informative = true ↔ 0 < n_in_phase) ∧
    (all_phased = true → no_calls = 0 ∧ n_compat = n_in_phase).
Proof. apply parse_haplotypes_layout. Qed.

(** ** The loop body on one sample *)

(** X3. A sample with an admissible homozygous diploid genotype is phased
    with its own allele: the call is the allele twice, joined by a bar, the
    sample enters [allele_in_phase] with that allele, and neither the
    pedigree nor the world is touched. *)
Theorem homozygous_sample_phased (ped_file : PedFile) (gt_filter : GtFilter)
    (var : VcfRecord) (index_var : bool) (st : Locals) (s : string)
    (a : nat) (a0 a1 : string) (w : World) :
  ALLELES var = [a0; a1] →
  admissible gt_filter var s = true →
  GT var !! s = Some [Some a; Some a] →
  a < 2 →
  let x := allele_text a0 a1 a in
  phase_sample ped_file gt_filter var index_var st s w
  = (Ok (set_in_phase s (Some a)
           (append_call (x +:+ "|" +:+ x) (x, x)
              (if decide (a = 1) then saw_alt st else st))), w).
Proof.
  intros HA Hadm Hs Ha x. unfold phase_sample.
  unfold admissible in Hadm. apply andb_true_iff in Hadm as [-> ->]. cbn [negb orb].
  rewrite (bind_lift_ok _ [Some a; Some a]) by (unfold getitem; rewrite Hs; reflexivity).
  destruct a as [| [| a]]; [| | lia]; subst x.
  - change (bool_decide (len_set [Some 0; Some 0] = 1)) with true.
    change (py_in None [Some 0; Some 0]) with false.
    change (py_in (Some 1) [Some 0; Some 0]) with false. cbn [andb].
    unfold join_alleles, mbind, M_bind, lift. simpl. unfold index. rewrite HA. reflexivity.
  - change (bool_decide (len_set [Some 1; Some 1] = 1)) with true.
    change (py_in None [Some 1; Some 1]) with false.
    change (py_in (Some 1) [Some 1; Some 1]) with true. cbn [andb].
    unfold join_alleles, mbind, M_bind, lift. simpl. unfold index. rewrite HA. reflexivity.
Qed.

Lemma homozygous_sample_phased_witness :
  ALLELES Example.paternal_alt = ["A"; "G"]
  ∧ admissible Example.gt_filter Example.paternal_alt "sib" = true
  ∧ GT Example.paternal_alt !! "sib" = Some [Some 0; Some 0]
  ∧ phase_sample (mkPedFile ∅) Example.gt_filter Example.paternal_alt false init_locals
      "sib" Example.empty_world
    = (Ok (mkLocals ["A|A"] [("A", "A")] ∅ (<["sib":=Some 0]> ∅) false),
       Example.empty_world).
Proof.
  assert (HA : ALLELES Example.paternal_alt = ["A"; "G"]) by reflexivity.
  assert (Hadm : admissible Example.gt_filter Example.paternal_alt "sib" = true)
    by reflexivity.
  assert (Hs : GT Example.paternal_alt !! "sib" = Some [Some 0; Some 0])
    by (vm_compute; reflexivity).
  split; [exact HA |]. split; [exact Hadm |]. split; [exact Hs |].
  exact (homozygous_sample_phased (mkPedFile ∅) Example.gt_filter Example.paternal_alt
           false init_locals "sib" 0 "A" "G" Example.empty_world HA Hadm Hs
           ltac:(lia)).
Defined.

(** X4. A heterozygous sample neither of whose sides is determined, because
    each parent is unusable or is heterozygous while the other is unusable
    or carries the alternate allele, is reported with the slash-joined
    genotype, the texts of its two alleles in the order of the genotype
    with "/" between them, as call and as both alleles; it does not enter
    [allele_in_phase], and the world is unchanged: nothing is logged. *)
Theorem undetermined_sample_unphased (ped_file : PedFile) (gt_filter : GtFilter)
    (var : VcfRecord) (index_var : bool) (st : Locals) (s : string)
    (fgt mgt : gt) (a0 a1 : string) (g0 g1 : nat) (w : World) :
  ALLELES var = [a0; a1] →
  het_trio ped_file gt_filter var s [Some g0; Some g1] fgt mgt →
  transmitted fgt mgt = None →
  transmitted mgt fgt = None →
  let c := allele_text a0 a1 g0 +:+ "/" +:+ allele_text a0 a1 g1 in
  phase_sample ped_file gt_filter var index_var st s w
  = (Ok (append_call c (c, c) (saw_alt st)), w).
Proof.
  intros HA Htrio Hp Hm c.
  assert (Hc : join_alleles "/" var [Some g0; Some g1] = Ok c).
  { apply join_alleles_het_text; [exact HA |].
    destruct Htrio as (_ & _ & _ & Hsgt & _). exact Hsgt. }
  rewrite (phase_sample_het _ _ _ _ _ _ _ _ _ _ Htrio).
  unfold phase_het. rewrite Hp, Hm. simpl complete_sides.
  assert (Hun : unphased var [Some g0; Some g1] (saw_alt st) w
                = (Ok (append_call c (c, c) (saw_alt st)), w))
    by (unfold unphased, mbind, M_bind, lift; rewrite Hc; reflexivity).
  destruct (negb (truthy fgt) && negb (truthy mgt)); exact Hun.
Qed.

Lemma undetermined_sample_unphased_witness :
  ALLELES Example.both_het = ["A"; "G"]
  ∧ het_trio Example.ped_file Example.gt_filter Example.both_het "child"
      [Some 0; Some 1] Example.ref_alt Example.ref_alt
  ∧ transmitted Example.ref_alt Example.ref_alt = None
  ∧ phase_sample Example.ped_file Example.gt_filter Example.both_het false init_locals
      "child" Example.empty_world
    = (Ok (mkLocals ["A/G"] [("A/G", "A/G")] ∅ ∅ true), Example.empty_world).
Proof.
  assert (HA : ALLELES Example.both_het = ["A"; "G"]) by reflexivity.
  assert (Htrio : het_trio Example.ped_file Example.gt_filter Example.both_het "child"
                    [Some 0; Some 1] Example.ref_alt Example.ref_alt) by example_trio.
  assert (Ht : transmitted Example.ref_alt Example.ref_alt = None) by reflexivity.
  split; [exact HA |]. split; [exact Htrio |]. split; [exact Ht |].
  exact (undetermined_sample_unphased Example.ped_file Example.gt_filter Example.both_het
           false init_locals "child" Example.ref_alt Example.ref_alt
           "A" "G" 0 1 Example.empty_world HA Htrio Ht Ht).
Defined.

(** X5. For an admissible heterozygous sample the pedigree and the parents'
    genotypes are looked up without a guard: when the sample is not in the
    pedigree, or its father is named there but has no genotype in the
    record, or, the father's genotype being found or the father unnamed,
    the same holds for the mother, the loop body raises KeyError and leaves
    the world as it was. *)
Theorem missing_relative_raises (ped_file : PedFile) (gt_filter : GtFilter)
    (var : VcfRecord) (index_var : bool) (st : Locals) (s : string) (sgt : gt)
    (w : World) :
  admissible gt_filter var s = true →
  GT var !! s = Some sgt →
  sgt = [Some 0; Some 1] ∨ sgt = [Some 1; Some 0] →
  individuals ped_file !! s = None
  ∨ (∃ ind f, individuals ped_file !! s = Some ind
              ∧ father ind = Some f ∧ GT var !! f = None)
  ∨ (∃ ind fgt m, individuals ped_file !! s = Some ind
                  ∧ parent_gt gt_filter var (father ind) = Ok fgt
                  ∧ mother ind = Some m ∧ GT var !! m = None) →
  phase_sample ped_file gt_filter var index_var st s w = (Raise KeyError, w).
Proof.
  intros Hadm Hs Hsgt Hmiss. unfold phase_sample.
  unfold admissible in Hadm. apply andb_true_iff in Hadm as [-> ->]. cbn [negb orb].
  rewrite (bind_lift_ok _ sgt) by (unfold getitem; rewrite Hs; reflexivity).
  assert (Hlen : bool_decide (len_set sgt = 1) = false)
    by (destruct Hsgt as [-> | ->]; reflexivity).
  assert (Hmax : py_max sgt = Ok (Some 1))
    by (destruct Hsgt as [-> | ->]; reflexivity).
  rewrite Hlen. cbn [andb].
  rewrite (bind_lift_ok _ _ _ _ Hmax).
  destruct Hmiss as [Hind | [(ind & f & Hind & Hf & Hgf)
                            | (ind & fgt & m & Hind & Hf & Hm & Hgm)]].
  - unfold mbind, M_bind, lift, getitem. rewrite Hind. reflexivity.
  - rewrite (bind_lift_ok _ ind) by (unfold getitem; rewrite Hind; reflexivity).
    unfold mbind, M_bind, lift, parent_gt, getitem. rewrite Hf, Hgf. reflexivity.
  - rewrite (bind_lift_ok _ ind) by (unfold getitem; rewrite Hind; reflexivity).
    rewrite (bind_lift_ok _ _ _ _ Hf).
    unfold mbind, M_bind, lift, parent_gt, getitem. rewrite Hm, Hgm. reflexivity.
Qed.

Lemma missing_relative_raises_witness :
  let var := Example.site 1000 [("child", Example.ref_alt); ("mum", Example.ref_ref)] in
  admissible Example.gt_filter var "child" = true
  ∧ GT var !! "child" = Some Example.ref_alt
  ∧ (∃ ind f, individuals Example.ped_file !! "child" = Some ind
              ∧ father ind = Some f ∧ GT var !! f = None)
  ∧ phase_sample Example.ped_file Example.gt_filter var false init_locals "child"
      Example.empty_world = (Raise KeyError, Example.empty_world).
Proof.
  intros var.
  assert (Hadm : admissible Example.gt_filter var "child" = true) by reflexivity.
  assert (Hs : GT var !! "child" = Some Example.ref_alt) by (vm_compute; reflexivity).
  assert (Hf : ∃ ind f, individuals Example.ped_file !! "child" = Some ind
                        ∧ father ind = Some f ∧ GT var !! f = None).
  { exists (mkIndividual "F1" (Some "dad") (Some "mum")), "dad".
    split; [vm_compute; reflexivity |]. split; [reflexivity | vm_compute; reflexivity]. }
  split; [exact Hadm |]. split; [exact Hs |]. split; [exact Hf |].
  exact (missing_relative_raises Example.ped_file Example.gt_filter var false init_locals
           "child" Example.ref_alt Example.empty_world Hadm Hs (or_introl eq_refl)
           (or_intror (or_introl Hf))).
Defined.

Lemma phase_samples_invariant_witness :
  let run := phase_samples Example.ped_file Example.gt_filter Example.sib_missing false
               ["child"; "sib"] Example.empty_world in
  let st := mkLocals ["G|A"; "NoCall"] [("G", "A"); ("NoCall", "NoCall")] {["sib"]}
              (<["child":=Some 1]> ∅) true in
  run = (Ok st, run.2)
  ∧ length (calls st) = 2
  ∧ (∀ s, s ∈ sample_no_calls st
          ↔ s ∈ ["child"; "sib"]
            ∧ no_call_sample Example.gt_filter Example.sib_missing s).
Proof.
  intros run st.
  assert (Hrun : run = (Ok st, run.2)) by (vm_compute; reflexivity).
  split; [exact Hrun |].
  destruct (phase_samples_invariant Example.ped_file Example.gt_filter Example.sib_missing
              false ["child"; "sib"] Example.empty_world run.2 st Hrun)
    as (Hc & _ & Hn & _).
  split; [exact Hc | exact Hn].
Defined.

Lemma row_layout_and_bounds_witness :
  let run := parse_haplotypes Example.sib_missing ["child"; "sib"] [] Example.ped_file
               Example.gt_filter true false Example.empty_world in
  let r := [CStr "1"; CInt 1200; CStr "rs"; CStr "A"; CStr "G"; CStr "G"; CInt 1; CInt 2;
            CStr "G"; CStr "A"; CStr "NoCall"; CStr "NoCall";
            CInt 0; CInt 0; CBool true; CBool false; CInt 1] in
  run = (Ok (Some r), run.2)
  ∧ ∃ cols : row, length cols = 2 * length ["child"; "sib"] ∧ length r = 13 + length cols.
Proof.
  intros run r.
  assert (Hrun : run = (Ok (Some r), run.2)) by (vm_compute; reflexivity).
  split; [exact Hrun |].
  destruct (row_layout_and_bounds Example.sib_missing ["child"; "sib"] [] Example.ped_file
              Example.gt_filter true false Example.empty_world run.2 r Hrun)
    as (hap & n_in & n_c & cols & an & af & inf & allp & nc & _ & Hcols & Hlen & _).
  exists cols. split; [exact Hcols | exact Hlen].
Defined.

(** ** search_gnomad *)

Lemma search_hit_absent (var h : VcfRecord) (pop : string) (v0 : AltAllele)
    (rest : list AltAllele) (i : nat) (ds : list AltAllele) :
  DECOMPOSED_ALLELES var = v0 :: rest →
  v0 ∉ ds →
  search_hit var h pop i ds = Ok None.
Proof.
  intros Hv. revert i. induction ds as [| d ds IH]; intros i Hnot; simpl; [reflexivity |].
  unfold index. rewrite Hv. simpl.
  rewrite decide_False by (intros ->; apply Hnot; left).
  apply IH. intros Hin. apply Hnot. right. exact Hin.
Qed.

(** The inner loop stops at the first allele of the hit that equals the
    first allele of the variant. *)
Lemma search_hit_first (var h : VcfRecord) (pop : string) (v0 : AltAllele)
    (rest : list AltAllele) (i : nat) (d1 d2 : list AltAllele) :
  DECOMPOSED_ALLELES var = v0 :: rest →
  v0 ∉ d1 →
  search_hit var h pop i (d1 ++ v0 :: d2)
  = (af ← info_item h "AF" (i + length d1);
     p_af ← info_item h ("AF_" +:+ pop) (i + length d1);
     popmax ← info_item h "POPMAX" (i + length d1);
     Ok (Some (af, p_af, popmax))).
Proof.
  intros Hv. revert i. induction d1 as [| d d1 IH]; intros i Hnot; simpl.
  - unfold index. rewrite Hv. simpl. rewrite decide_True by reflexivity.
    rewrite Nat.add_0_r. reflexivity.
  - unfold index. rewrite Hv. simpl.
    rewrite decide_False by (intros ->; apply Hnot; left).
    rewrite IH by (intros Hin; apply Hnot; right; exact Hin).
    replace (S i + length d1) with (i + S (length d1)) by lia. reflexivity.
Qed.

(** X6. When none of the overlapping records of a frequency database has
    the first decomposed allele of the variant among its own, in
    particular when there is no overlapping record, [search_gnomad]
    returns the three fields as ".". *)
Theorem search_gnomad_absent (var : VcfRecord) (gnomad_reader : GnomadFilter)
    (pop : string) (v0 : AltAllele) (rest : list AltAllele) :
  DECOMPOSED_ALLELES var = v0 :: rest →
  (∀ h, h ∈ get_overlapping_records gnomad_reader var → v0 ∉ DECOMPOSED_ALLELES h) →
  search_gnomad var gnomad_reader pop = Ok (".", ".", ".").
Proof.
  intros Hv. unfold search_gnomad.
  induction (get_overlapping_records gnomad_reader var) as [| h hits IH]; intros Hnot;
    simpl; [reflexivity |].
  rewrite (search_hit_absent var h pop v0 rest 0 _ Hv) by (apply Hnot; left).
  simpl. apply IH. intros h' Hh'. apply Hnot. right. exact Hh'.
Qed.

Lemma search_gnomad_absent_witness :
  DECOMPOSED_ALLELES Example.paternal_alt = [mkAltAllele "1" 1300 "A" "G"]
  ∧ (∀ h, h ∈ get_overlapping_records Example.empty_database Example.paternal_alt →
          mkAltAllele "1" 1300 "A" "G" ∉ DECOMPOSED_ALLELES h)
  ∧ search_gnomad Example.paternal_alt Example.empty_database "POPMAX" = Ok (".", ".", ".").
Proof.
  assert (Hv : DECOMPOSED_ALLELES Example.paternal_alt = [mkAltAllele "1" 1300 "A" "G"])
    by reflexivity.
  assert (Hnot : ∀ h, h ∈ get_overlapping_records Example.empty_database
                            Example.paternal_alt →
                      mkAltAllele "1" 1300 "A" "G" ∉ DECOMPOSED_ALLELES h)
    by (intros h Hh; inversion Hh).
  split; [exact Hv |]. split; [exact Hnot |].
  exact (search_gnomad_absent Example.paternal_alt Example.empty_database "POPMAX"
           _ _ Hv Hnot).
Defined.

(** X7. [search_gnomad] answers from the first overlapping record that has
    the first decomposed allele of the variant among its own, at the
    position [i] of the first such allele: the [i]-th comma-separated value
    of its AF, AF_<pop> and POPMAX fields.  A field that is missing makes
    the look-up raise KeyError and a field with fewer than [i + 1] values
    IndexError, in the order AF, AF_<pop>, POPMAX. *)
Theorem search_gnomad_first_match (var : VcfRecord) (gnomad_reader : GnomadFilter)
    (pop : string) (v0 : AltAllele) (rest : list AltAllele)
    (before after : list VcfRecord) (h : VcfRecord) (d1 d2 : list AltAllele) :
  DECOMPOSED_ALLELES var = v0 :: rest →
  get_overlapping_records gnomad_reader var = before ++ h :: after →
  (∀ h', h' ∈ before → v0 ∉ DECOMPOSED_ALLELES h') →
  DECOMPOSED_ALLELES h = d1 ++ v0 :: d2 →
  v0 ∉ d1 →
  search_gnomad var gnomad_reader pop
  = match INFO_FIELDS h !! "AF", INFO_FIELDS h !! ("AF_" +:+ pop),
          INFO_FIELDS h !! "POPMAX" with
    | None, _, _ => Raise KeyError
    | Some afs, p_afs, popmaxes =>
        match split ","%char afs !! length d1 with
        | None => Raise IndexError
        | Some af =>
            match p_afs with
            | None => Raise KeyError
            | Some p_afs =>
                match split ","%char p_afs !! length d1 with
                | None => Raise IndexError
                | Some p_af =>
                    match popmaxes with
                    | None => Raise KeyError
                    | Some popmaxes =>
                        match split ","%char popmaxes !! length d1 with
                        | None => Raise IndexError
                        | Some popmax => Ok (af, p_af, popmax)
                        end
                    end
                end
            end
        end
    end.
Proof.
  intros Hv Hhits Hbefore Hd Hd1. unfold search_gnomad. rewrite Hhits. clear Hhits.
  induction before as [| h' before IH]; simpl.
  - rewrite Hd, (search_hit_first var h pop v0 rest 0 d1 d2 Hv Hd1). simpl.
    unfold info_item, getitem, index.
    destruct (INFO_FIELDS h !! "AF") as [afs |]; simpl; [| reflexivity].
    destruct (split "," afs !! length d1) as [af |]; simpl; [| reflexivity].
    destruct (INFO_FIELDS h !! ("AF_" +:+ pop)) as [p_afs |]; simpl; [| reflexivity].
    destruct (split "," p_afs !! length d1) as [p_af |]; simpl; [| reflexivity].
    destruct (INFO_FIELDS h !! "POPMAX") as [popmaxes |]; simpl; [| reflexivity].
    destruct (split "," popmaxes !! length d1) as [popmax |]; reflexivity.
  - rewrite (search_hit_absent var h' pop v0 rest 0 _ Hv) by (apply Hbefore; left).
    simpl. apply IH. intros h'' Hh''. apply Hbefore. right. exact Hh''.
Qed.

Lemma search_gnomad_first_match_witness :
  let v0 := mkAltAllele "1" 1300 "A" "G" in
  let other := mkAltAllele "1" 1300 "A" "T" in
  let h := mkVcfRecord "1" 1300 "." "A" "T,G" ["A"; "T"; "G"] 1300 [other; v0]
             (list_to_map [("AF", "0.1,0.5"); ("AF_POPMAX", "0.2,0.6");
                           ("POPMAX", "eas,afr")]) ∅ in
  let reader := mkGnomadFilter (λ _, [h]) in
  DECOMPOSED_ALLELES Example.paternal_alt = [v0]
  ∧ DECOMPOSED_ALLELES h = [other] ++ v0 :: []
  ∧ (v0 ∉ [other])
  ∧ search_gnomad Example.paternal_alt reader "POPMAX" = Ok ("0.5", "0.6", "afr").
Proof.
  intros v0 other h reader.
  assert (Hv : DECOMPOSED_ALLELES Example.paternal_alt = [v0]) by reflexivity.
  assert (Hd : DECOMPOSED_ALLELES h = [other] ++ v0 :: []) by reflexivity.
  assert (Hnot : v0 ∉ [other]).
  { intros Hin. apply list_elem_of_singleton in Hin. discriminate Hin. }
  split; [exact Hv |]. split; [exact Hd |]. split; [exact Hnot |].
  rewrite (search_gnomad_first_match Example.paternal_alt reader "POPMAX" v0 [] [] [] h
             [other] [] Hv eq_refl ltac:(intros h' Hh'; inversion Hh') Hd Hnot).
  vm_compute. reflexivity.
Defined.

(** ** search_var *)

Lemma filter_head {A} (P : A → Prop) `{!∀ x, Decision (P x)} (l : list A) (x : A)
    (l' : list A) :
  filter P l = x :: l' ↔
  ∃ l1 l2, l = l1 ++ x :: l2 ∧ P x ∧ Forall (λ y, ¬ P y) l1 ∧ l' = filter P l2.
Proof.
  revert x l'. induction l as [| y l IH]; intros x l'.
  - split; [discriminate |]. intros (l1 & l2 & Hl & _). destruct l1; discriminate.
  - rewrite filter_cons. destruct (decide (P y)) as [Hy | Hy].
    + split.
      * intros [= -> <-]. exists [], l. simpl. auto.
      * intros (l1 & l2 & Hl & Hx & Hl1 & ->).
        destruct l1 as [| z l1]; simpl in Hl; injection Hl as -> ->; [reflexivity |].
        apply Forall_cons in Hl1 as [Hz _]. contradiction.
    + rewrite IH. split.
      * intros (l1 & l2 & -> & Hx & Hl1 & ->). exists (y :: l1), l2.
        simpl. repeat split; [exact Hx | constructor; assumption].
      * intros (l1 & l2 & Hl & Hx & Hl1 & ->).
        destruct l1 as [| z l1]; simpl in Hl; injection Hl as -> ->; [contradiction |].
        apply Forall_cons in Hl1 as [_ Hl1]. exists l1, l2. auto.
Qed.

(** X8. [search_var] looks at the records that overlap the span of the
    reference allele, from position [pos - 1] (0-based) to
    [pos + len(ref) - 1], and returns the first that has a decomposed
    allele at [pos] with the alleles asked for; it raises RuntimeError
    exactly when no record of the window has one. *)
Theorem search_var_first_match (vcf : VcfReader) (chrom : string) (pos : Z)
    (ref alt : string) :
  let window := fetch vcf chrom (pos - 1) (pos + Z.of_nat (String.length ref) - 1) in
  (∀ iv, search_var vcf chrom pos ref alt = Ok iv
         ↔ ∃ before after,
             window = before ++ iv :: after ∧
             matches_var pos ref alt iv = true ∧
             Forall (λ v, matches_var pos ref alt v = false) before)
  ∧ (search_var vcf chrom pos ref alt = Raise RuntimeError
     ↔ Forall (λ v, matches_var pos ref alt v = false) window)
  ∧ (∀ e, search_var vcf chrom pos ref alt = Raise e → e = RuntimeError).
Proof.
  intros window. unfold search_var. fold window.
  destruct (filter (λ var, matches_var pos ref alt var = true) window) as [| v l] eqn:Hf.
  - assert (Hall : Forall (λ v, matches_var pos ref alt v = false) window).
    { apply Forall_forall. intros v Hv.
      destruct (matches_var pos ref alt v) eqn:Hm; [| reflexivity].
      assert (Hin : v ∈ filter (λ var, matches_var pos ref alt var = true) window)
        by (apply list_elem_of_filter; done).
      rewrite Hf in Hin. inversion Hin. }
    split; [| split; [done | intros e [= <-]; reflexivity]].
    intros iv. split; [discriminate |].
    intros (before & after & Hw & Hm & _). rewrite Forall_forall in Hall.
    rewrite Hall in Hm; [discriminate |]. rewrite Hw. apply elem_of_app. right. left.
  - apply filter_head in Hf as (l1 & l2 & Hw & Hv & Hl1 & _).
    assert (Hbefore : Forall (λ y, matches_var pos ref alt y = false) l1).
    { eapply Forall_impl; [exact Hl1 |]. intros y Hy. simpl in Hy.
      destruct (matches_var pos ref alt y); [contradiction | reflexivity]. }
    split; [| split; [| discriminate]].
    + intros iv. split.
      * intros [= <-]. exists l1, l2. done.
      * intros (before & after & Hw' & Hm & Hb). f_equal.
        rewrite Hw in Hw'.
        assert (Hlen : length l1 = length before).
        { destruct (Nat.lt_trichotomy (length l1) (length before)) as [Hlt | [Heq | Hgt]];
            [| exact Heq |]; exfalso.
          - assert (Hat : (before ++ iv :: after) !! length l1 = Some v)
              by (rewrite <- Hw'; apply list_lookup_middle; reflexivity).
            rewrite lookup_app_l in Hat by exact Hlt.
            rewrite Forall_forall in Hb.
            rewrite (Hb v) in Hv; [discriminate |].
            eapply list_elem_of_lookup_2. exact Hat.
          - assert (Hat : (l1 ++ v :: l2) !! length before = Some iv)
              by (rewrite Hw'; apply list_lookup_middle; reflexivity).
            rewrite lookup_app_l in Hat by exact Hgt.
            rewrite Forall_forall in Hbefore.
            rewrite (Hbefore iv) in Hm; [discriminate |].
            eapply list_elem_of_lookup_2. exact Hat. }
        assert (Hat : (l1 ++ v :: l2) !! length l1 = Some iv).
        { rewrite Hw', Hlen. apply list_lookup_middle. reflexivity. }
        rewrite list_lookup_middle in Hat by reflexivity. congruence.
    + split; [discriminate |]. intros Hall. rewrite Forall_forall in Hall.
      rewrite (Hall v) in Hv; [discriminate |].
      rewrite Hw. apply elem_of_app. right. left.
Qed.

(** ** The samples of interest and the background samples (lines 380-393) *)

(** The check from any set of families collected so far. *)
Lemma check_samples_general (vreader : VcfReader) (ped_file : PedFile)
    (samples : list string) (families0 : gset string) :
  (Forall (λ s, s ∈ header_samples vreader ∧ is_Some (individuals ped_file !! s)) samples
   → ∃ families,
       check_samples vreader ped_file samples families0 = Ok families ∧
       ∀ f, f ∈ families
            ↔ f ∈ families0 ∨ ∃ s, s ∈ samples ∧ family_of ped_file s = Some f)
  ∧ (¬ Forall (λ s, s ∈ header_samples vreader ∧ is_Some (individuals ped_file !! s))
         samples
     → check_samples vreader ped_file samples families0 = Raise RuntimeError).
Proof.
  revert families0. induction samples as [| s samples IH]; intros families0; simpl.
  - split; [| intros Hn; exfalso; apply Hn; constructor].
    intros _. exists families0. split; [reflexivity |].
    intros f. split; [auto |]. intros [Hf | (s & Hs & _)]; [exact Hf | inversion Hs].
  - destruct (py_in s (header_samples vreader)) eqn:Hh;
      [apply py_in_true in Hh | apply py_in_false in Hh]; simpl.
    2: { split; [intros Hall; apply Forall_cons in Hall as [[? _] _]; contradiction
                | reflexivity]. }
    destruct (individuals ped_file !! s) as [ind |] eqn:Hind.
    2: { split; [| reflexivity].
         intros Hall. apply Forall_cons in Hall as [[_ [x Hx]] _]. congruence. }
    destruct (IH ({[fid ind]} ∪ families0)) as [IHok IHbad]. split.
    + intros Hall. apply Forall_cons in Hall as [_ Hall].
      destruct (IHok Hall) as (families & Hrun & Hfam).
      exists families. split; [exact Hrun |]. intros f. rewrite Hfam.
      rewrite elem_of_union, elem_of_singleton. split.
      * intros [[-> | Hf] | (s' & Hs' & Hf)].
        -- right. exists s. split; [left |]. unfold family_of. rewrite Hind. reflexivity.
        -- left. exact Hf.
        -- right. exists s'. split; [right; exact Hs' | exact Hf].
      * intros [Hf | (s' & Hs' & Hf)]; [left; right; exact Hf |].
        apply elem_of_cons in Hs' as [-> | Hs'].
        -- unfold family_of in Hf. rewrite Hind in Hf. injection Hf as <-.
           left. left. reflexivity.
        -- right. exists s'. split; assumption.
    + intros Hn. apply IHbad. intros Hall. apply Hn. constructor; [| exact Hall].
      split; [exact Hh | eauto].
Qed.

Lemma check_samples_ok (vreader : VcfReader) (ped_file : PedFile)
    (samples : list string) (families : gset string) :
  check_samples vreader ped_file samples ∅ = Ok families →
  Forall (λ s, s ∈ header_samples vreader ∧ is_Some (individuals ped_file !! s)) samples
  ∧ ∀ f, f ∈ families ↔ ∃ s, s ∈ samples ∧ family_of ped_file s = Some f.
Proof.
  intros Hrun. destruct (check_samples_general vreader ped_file samples ∅) as [Hok Hbad].
  destruct (decide (Forall (λ s, s ∈ header_samples vreader
                                 ∧ is_Some (individuals ped_file !! s)) samples))
    as [Hall | Hnot]; [| rewrite (Hbad Hnot) in Hrun; discriminate].
  split; [exact Hall |].
  destruct (Hok Hall) as (families' & Hrun' & Hfam).
  rewrite Hrun in Hrun'. injection Hrun' as <-.
  intros f. rewrite Hfam.
  split; [intros [Hf | Hf]; [apply elem_of_empty in Hf; contradiction | exact Hf] | auto].
Qed.

(** X9. The check of the samples of interest succeeds exactly when every
    one of them is in the header of the VCF and in the pedigree; the
    families it collects are those of the samples of interest; otherwise
    it raises RuntimeError. *)
Theorem check_samples_families (vreader : VcfReader) (ped_file : PedFile)
    (samples : list string) :
  (Forall (λ s, s ∈ header_samples vreader ∧ is_Some (individuals ped_file !! s)) samples
   → ∃ families,
       check_samples vreader ped_file samples ∅ = Ok families ∧
       ∀ f, f ∈ families ↔ ∃ s, s ∈ samples ∧ family_of ped_file s = Some f)
  ∧ (¬ Forall (λ s, s ∈ header_samples vreader ∧ is_Some (individuals ped_file !! s))
         samples
     → check_samples vreader ped_file samples ∅ = Raise RuntimeError).
Proof.
  destruct (check_samples_general vreader ped_file samples ∅) as [Hok Hbad].
  split; [| exact Hbad].
  intros Hall. destruct (Hok Hall) as (families & Hrun & Hfam).
  exists families. split; [exact Hrun |]. intros f. rewrite Hfam.
  split; [intros [Hf | Hf]; [apply elem_of_empty in Hf; contradiction | exact Hf] | auto].
Qed.

Lemma find_unrelateds_app (ped_file : PedFile) (header : list string)
    (families : gset string) (acc : list string) :
  find_unrelateds ped_file header families acc
  = acc ++ find_unrelateds ped_file header families [].
Proof.
  revert families acc. induction header as [| s header IH]; intros families acc; simpl.
  - rewrite app_nil_r. reflexivity.
  - destruct (individuals ped_file !! s) as [ind |].
    + destruct (bool_decide (fid ind ∈ families)); [apply IH |].
      rewrite IH, (IH _ [s]), <- app_assoc. reflexivity.
    + rewrite IH, (IH _ [s]), <- app_assoc. reflexivity.
Qed.

Lemma find_unrelateds_facts (ped_file : PedFile) (header : list string)
    (families : gset string) :
  let unrelateds := find_unrelateds ped_file header families [] in
  unrelateds `sublist_of` header
  ∧ (∀ u f, u ∈ unrelateds → family_of ped_file u = Some f → f ∉ families)
  ∧ (∀ s, s ∈ header → family_of ped_file s = None → s ∈ unrelateds)
  ∧ (∀ s f, s ∈ header → family_of ped_file s = Some f → f ∉ families →
            ∃ u, u ∈ unrelateds ∧ family_of ped_file u = Some f)
  ∧ NoDup (omap (family_of ped_file) unrelateds).
Proof.
  revert families. induction header as [| s header IH]; intros families unrelateds.
  - subst unrelateds. simpl. split; [constructor |].
    split; [intros u f Hu; inversion Hu |].
    split; [intros s Hs; inversion Hs |].
    split; [intros s f Hs; inversion Hs | constructor].
  - subst unrelateds. simpl. unfold family_of in *.
    destruct (individuals ped_file !! s) as [ind |] eqn:Hind.
    + destruct (bool_decide (fid ind ∈ families)) eqn:Hfam;
        [apply bool_decide_eq_true in Hfam | apply bool_decide_eq_false in Hfam].
      * destruct (IH families) as (Hsub & Hout & Habsent & Hrep & Hnd).
        split; [apply sublist_cons; exact Hsub |]. split; [exact Hout |].
        split.
        { intros s' Hs' Hnone. apply elem_of_cons in Hs' as [-> | Hs'];
            [rewrite Hind in Hnone; discriminate | apply Habsent; assumption]. }
        split; [| exact Hnd].
        intros s' f Hs' Hf Hnot. apply elem_of_cons in Hs' as [-> | Hs'];
          [| eapply Hrep; eassumption].
        rewrite Hind in Hf. injection Hf as <-. contradiction.
      * rewrite find_unrelateds_app.
        destruct (IH ({[fid ind]} ∪ families)) as (Hsub & Hout & Habsent & Hrep & Hnd).
        split; [simpl; apply sublist_skip; exact Hsub |].
        split.
        { intros u f Hu Hf. simpl in Hu. apply elem_of_cons in Hu as [-> | Hu].
          - rewrite Hind in Hf. injection Hf as <-. exact Hfam.
          - specialize (Hout u f Hu Hf). intros Hin. apply Hout.
            apply elem_of_union. right. exact Hin. }
        split.
        { intros s' Hs' Hnone. simpl. apply elem_of_cons in Hs' as [-> | Hs'];
            [rewrite Hind in Hnone; discriminate |].
          right. apply Habsent; assumption. }
        split.
        { intros s' f Hs' Hf Hnot. simpl.
          destruct (decide (f = fid ind)) as [-> | Hne].
          - exists s. split; [left |]. rewrite Hind. reflexivity.
          - apply elem_of_cons in Hs' as [-> | Hs'].
            + rewrite Hind in Hf. injection Hf as <-. contradiction.
            + destruct (Hrep s' f Hs' Hf) as (u & Hu & Huf).
              { intros Hin. apply elem_of_union in Hin as [Hin | Hin];
                  [apply elem_of_singleton in Hin; contradiction | contradiction]. }
              exists u. split; [right; exact Hu | exact Huf]. }
        simpl. rewrite Hind. simpl. constructor; [| exact Hnd].
        intros Hin. apply list_elem_of_omap in Hin as (u & Hu & Huf).
        apply (Hout u (fid ind) Hu Huf). apply elem_of_union. left.
        apply elem_of_singleton. reflexivity.
    + rewrite find_unrelateds_app.
      destruct (IH families) as (Hsub & Hout & Habsent & Hrep & Hnd).
      split; [simpl; apply sublist_skip; exact Hsub |].
      split.
      { intros u f Hu Hf. simpl in Hu. apply elem_of_cons in Hu as [-> | Hu];
          [rewrite Hind in Hf; discriminate | eapply Hout; eassumption]. }
      split.
      { intros s' Hs' Hnone. simpl. apply elem_of_cons in Hs' as [-> | Hs'];
          [left | right; apply Habsent; assumption]. }
      split.
      { intros s' f Hs' Hf Hnot. simpl. apply elem_of_cons in Hs' as [-> | Hs'];
          [rewrite Hind in Hf; discriminate |].
        destruct (Hrep s' f Hs' Hf Hnot) as (u & Hu & Huf).
        exists u. split; [right; exact Hu | exact Huf]. }
      simpl. rewrite Hind. simpl. exact Hnd.
Qed.

(** The loop of lines 388-393 on a header with one more sample at its end. *)
Lemma find_unrelateds_snoc (ped_file : PedFile) (header : list string)
    (families : gset string) (acc : list string) (s : string) :
  find_unrelateds ped_file (header ++ [s]) families acc
  = find_unrelateds ped_file header families acc
    ++ (if first_of_family ped_file families header s then [s] else []).
Proof.
  revert families acc. induction header as [| h header IH]; intros families acc; simpl.
  - unfold first_of_family, family_of.
    destruct (individuals ped_file !! s) as [ind |]; simpl; [| reflexivity].
    destruct (decide (fid ind ∈ families)) as [Hin | Hout].
    + rewrite bool_decide_eq_true_2 by exact Hin.
      rewrite bool_decide_eq_false_2 by (intros [Hn _]; contradiction).
      rewrite app_nil_r. reflexivity.
    + rewrite bool_decide_eq_false_2 by exact Hout.
      rewrite bool_decide_eq_true_2 by (split; [exact Hout | constructor]).
      reflexivity.
  - assert (Hsame : ∀ fams',
              (∀ f, family_of ped_file s = Some f →
                    ((f ∉ fams') ↔ (f ∉ families) ∧ family_of ped_file h ≠ Some f)) →
              first_of_family ped_file families (h :: header) s
              = first_of_family ped_file fams' header s).
    { intros fams' Hf. unfold first_of_family.
      destruct (family_of ped_file s) as [f |]; [| reflexivity].
      apply bool_decide_ext. rewrite Forall_cons, (Hf f eq_refl). tauto. }
    unfold family_of in Hsame.
    destruct (individuals ped_file !! h) as [ind |] eqn:Hh; simpl in Hsame.
    + destruct (bool_decide (fid ind ∈ families)) eqn:Hin.
      * apply bool_decide_eq_true in Hin. rewrite IH. f_equal.
        rewrite (Hsame families); [reflexivity |].
        intros f _. split; [| tauto].
        intros Hf. split; [exact Hf |]. intros [= <-]. contradiction.
      * apply bool_decide_eq_false in Hin. rewrite IH. f_equal.
        rewrite (Hsame ({[fid ind]} ∪ families)); [reflexivity |].
        intros f _. rewrite not_elem_of_union, not_elem_of_singleton.
        split; [intros [Hne Hf]; split; [exact Hf | congruence]
               | intros [Hf Hne]; split; [congruence | exact Hf]].
    + rewrite IH. f_equal. rewrite (Hsame families); [reflexivity |].
      intros f _. split; [intros Hf; split; [exact Hf | discriminate] | tauto].
Qed.

(** A background sample of a family is the first sample of that family in
    the header. *)
Lemma find_unrelateds_first (ped_file : PedFile) (header : list string)
    (families : gset string) (u f : string) :
  u ∈ find_unrelateds ped_file header families [] →
  family_of ped_file u = Some f →
  ∃ before after,
    header = before ++ u :: after
    ∧ Forall (λ p, family_of ped_file p ≠ Some f) before.
Proof.
  induction header as [| s header IH] using rev_ind; intros Hu Hf.
  - inversion Hu.
  - rewrite find_unrelateds_snoc in Hu. apply elem_of_app in Hu as [Hu | Hu].
    + destruct (IH Hu Hf) as (before & after & -> & Hbefore).
      exists before, (after ++ [s]). rewrite <- app_assoc. done.
    + destruct (first_of_family ped_file families header s) eqn:Hfirst;
        [| inversion Hu].
      apply list_elem_of_singleton in Hu as ->.
      unfold first_of_family in Hfirst. rewrite Hf in Hfirst.
      apply bool_decide_eq_true in Hfirst as [_ Hbefore].
      exists header, []. done.
Qed.

(** X10. The background samples are samples of the header, in the order of
    the header; each is absent from the pedigree or of a family that is
    none of the families given; every header sample absent from the
    pedigree is among them; every other family with a sample in the header
    is represented; no two of them are of the same family; and the one
    that represents a family is the first sample of that family in the
    header.  In full: a sample at the end of a header is taken exactly
    when it is absent from the pedigree, or its family is none of the
    given ones and no sample before it in the header is of that family. *)
Theorem find_unrelateds_background (ped_file : PedFile) (header : list string)
    (families : gset string) :
  let unrelateds := find_unrelateds ped_file header families [] in
  unrelateds `sublist_of` header
  ∧ (∀ u f, u ∈ unrelateds → family_of ped_file u = Some f → f ∉ families)
  ∧ (∀ s, s ∈ header → family_of ped_file s = None → s ∈ unrelateds)
  ∧ (∀ s f, s ∈ header → family_of ped_file s = Some f → f ∉ families →
            ∃ u, u ∈ unrelateds ∧ family_of ped_file u = Some f)
  ∧ NoDup (omap (family_of ped_file) unrelateds)
  ∧ (∀ u f, u ∈ unrelateds → family_of ped_file u = Some f →
            ∃ before after,
              header = before ++ u :: after
              ∧ Forall (λ p, family_of ped_file p ≠ Some f) before)
  ∧ (∀ s, find_unrelateds ped_file (header ++ [s]) families []
          = unrelateds ++ (if first_of_family ped_file families header s
                           then [s] else [])).
Proof.
  intros unrelateds.
  destruct (find_unrelateds_facts ped_file header families)
    as (Hsub & Hout & Hnone & Hrep & Hnodup).
  split; [exact Hsub |]. split; [exact Hout |]. split; [exact Hnone |].
  split; [exact Hrep |]. split; [exact Hnodup |].
  split; [intros u f; apply find_unrelateds_first |].
  intros s. apply find_unrelateds_snoc.
Qed.

(** X11. When the check of the samples of interest has succeeded, no
    background sample is a sample of interest or of the family of one. *)
Theorem background_excludes_families (vreader : VcfReader) (ped_file : PedFile)
    (samples : list string) (families : gset string) (u s : string) :
  check_samples vreader ped_file samples ∅ = Ok families →
  u ∈ find_unrelateds ped_file (header_samples vreader) families [] →
  s ∈ samples →
  u ≠ s ∧ ∃ f, family_of ped_file s = Some f ∧ family_of ped_file u ≠ Some f.
Proof.
  intros Hcheck Hu Hs.
  apply check_samples_ok in Hcheck as [Hall Hfam].
  rewrite Forall_forall in Hall. destruct (Hall s Hs) as [_ [ind Hind]].
  assert (Hf : family_of ped_file s = Some (fid ind))
    by (unfold family_of; rewrite Hind; reflexivity).
  assert (Hin : fid ind ∈ families) by (apply Hfam; eauto).
  destruct (find_unrelateds_facts ped_file (header_samples vreader) families)
    as (_ & Hout & _).
  assert (Hne : family_of ped_file u ≠ Some (fid ind)).
  { intros Huf. exact (Hout u (fid ind) Hu Huf Hin). }
  split; [intros ->; contradiction | eauto].
Qed.

Lemma background_excludes_families_witness :
  let vreader := mkVcfReader ["child"; "sib"; "dad"; "mum"; "other"; "cousin"] (λ _ _ _, []) in
  let ped_file := mkPedFile (<["cousin":=mkIndividual "F2" None None]>
                               (individuals Example.ped_file)) in
  check_samples vreader ped_file ["child"] ∅ = Ok {["F1"]}
  ∧ find_unrelateds ped_file (header_samples vreader) {["F1"]} [] = ["other"; "cousin"]
  ∧ "other" ≠ "child"
  ∧ ∃ f, family_of ped_file "child" = Some f ∧ family_of ped_file "other" ≠ Some f.
Proof.
  intros vreader ped_file.
  assert (Hcheck : check_samples vreader ped_file ["child"] ∅ = Ok {["F1"]})
    by (vm_compute; reflexivity).
  assert (Hu : find_unrelateds ped_file (header_samples vreader) {["F1"]} []
               = ["other"; "cousin"]) by (vm_compute; reflexivity).
  split; [exact Hcheck |]. split; [exact Hu |].
  apply (background_excludes_families vreader ped_file ["child"] {["F1"]} "other" "child"
           Hcheck); [rewrite Hu; left | left].
Defined.

(** ** What [output_row] writes and returns *)

Section OutputRowFacts.
Context {F : Type} `{Float F}.

Lemma annotate_same_memory (r : row) (var : VcfRecord) (min_af : option F)
    (samples : option (list string)) (gnomad_pop : string)
    (readers : list GnomadFilter) (mx : string * string * string) :
  preserves same_memory (annotate r var min_af samples gnomad_pop readers mx).
Proof.
  revert mx. induction readers as [| reader readers IH]; intros mx; simpl.
  - preserves_auto.
  - assert (∀ af, preserves same_memory (passes_min_af r var min_af samples af))
      by (intros af; unfold passes_min_af; preserves_auto).
    preserves_auto.
Qed.

Lemma output_row_same_memory (r : row) (var : VcfRecord)
    (gnomad_readers : list GnomadFilter) (min_af : option F)
    (samples : option (list string)) (gnomad_pop : string) :
  preserves same_memory (output_row r var gnomad_readers min_af samples gnomad_pop).
Proof.
  unfold output_row.
  pose proof (annotate_same_memory r var min_af samples gnomad_pop gnomad_readers).
  preserves_auto.
Qed.

(** The outcomes of [output_row] and what each has written. *)
Lemma output_row_outcome (r : row) (var : VcfRecord)
    (gnomad_readers : list GnomadFilter) (min_af : option F)
    (samples : option (list string)) (gnomad_pop : string) (w w' : World)
    (res : result nat) :
  output_row r var gnomad_readers min_af samples gnomad_pop w = (res, w') →
  match res with
  | Ok k =>
      (k = 0 ∧ written w' = written w ∧ gnomad_readers ≠ [] ∧ is_Some min_af)
      ∨ (k = 1 ∧ ∃ extra, written w' = written w ++ [RowLine (r ++ extra)]
                          ∧ length extra = if truthy gnomad_readers then 3 else 0)
  | Raise _ => written w' = written w
  end.
Proof.
  unfold output_row.
  destruct gnomad_readers as [| reader readers]; cbn [truthy].
  { simpl. intros [= <- <-]. right. split; [reflexivity |].
    exists []. rewrite app_nil_r. done. }
  unfold mbind at 1. unfold M_bind at 1. unfold log at 1.
  unfold mbind at 1. unfold M_bind at 1.
  set (w1 := mkWorld _ _ _).
  pose proof (annotate_same_written r var min_af samples gnomad_pop (reader :: readers)
                (".", ".", ".") w1) as Hsame.
  assert (Hsome : ∀ w2, annotate r var min_af samples gnomad_pop (reader :: readers)
                          (".", ".", ".") w1 = (Ok None, w2) → is_Some min_af).
  { intros w2 Hrun. destruct min_af as [m |]; [eauto |].
    apply annotate_no_threshold in Hrun as [x Hx]. discriminate. }
  destruct (annotate _ _ _ _ _ _ _ w1) as [[o | e] w2];
    unfold same_written in Hsame; subst w1; simpl in Hsame;
    [| intros [= <- <-]; exact Hsame].
  destruct o as [[[a b] c] |]; simpl; intros [= <- <-].
  - right. split; [reflexivity |]. exists [CStr a; CStr b; CStr c].
    simpl. rewrite Hsame. done.
  - left. split; [reflexivity |]. split; [exact Hsame |]. split; [done |].
    apply (Hsome w2). reflexivity.
Qed.

(** X12. [output_row] never touches the orientation memory.  When it
    returns 0 it has written nothing, and this happens only with a
    database and a threshold; when it returns 1 it has written one line,
    the row followed by three cells when there is a database and by
    nothing otherwise; it returns nothing else; and when it raises it has
    written nothing. *)
Theorem output_row_counts_lines (r : row) (var : VcfRecord)
    (gnomad_readers : list GnomadFilter) (min_af : option F)
    (samples : option (list string)) (gnomad_pop : string) (w : World) :
  let run := output_row r var gnomad_readers min_af samples gnomad_pop w in
  reverse_allele_order run.2 = reverse_allele_order w ∧
  match run.1 with
  | Ok k =>
      (k = 0 ∧ written run.2 = written w ∧ gnomad_readers ≠ [] ∧ is_Some min_af)
      ∨ (k = 1 ∧ ∃ extra, written run.2 = written w ++ [RowLine (r ++ extra)]
                          ∧ length extra = if truthy gnomad_readers then 3 else 0)
  | Raise _ => written run.2 = written w
  end.
Proof.
  intros run.
  split; [apply (output_row_same_memory r var gnomad_readers min_af samples gnomad_pop w) |].
  subst run.
  destruct (output_row r var gnomad_readers min_af samples gnomad_pop w)
    as [res w'] eqn:Hrun.
  exact (output_row_outcome _ _ _ _ _ _ _ _ _ Hrun).
Qed.

(** The filter of lines 112-130 lets everything through when N_COMPAT is
    not the number of samples. *)
Lemma passes_min_af_inactive (r : row) (var : VcfRecord) (min_af : option F)
    (samples : list string) (n : Z) (af : string) (w : World) :
  min_af = None ∨ (r !! 7 = Some (CInt n) ∧ n ≠ Z.of_nat (length samples)) →
  passes_min_af r var min_af (Some samples) af w = (Ok true, w).
Proof.
  intros [-> | [H7 Hn]]; [reflexivity |].
  unfold passes_min_af. destruct min_af as [m |]; [| reflexivity].
  unfold index. rewrite H7. unfold mbind, M_bind, lift, py_len. simpl.
  rewrite bool_decide_eq_false_2 by congruence. reflexivity.
Qed.

Lemma annotate_inactive (r : row) (var : VcfRecord) (min_af : option F)
    (samples : list string) (n : Z) (gnomad_pop : string)
    (readers : list GnomadFilter) (found : list (string * string * string))
    (mx : string * string * string) (w : World) :
  min_af = None ∨ (r !! 7 = Some (CInt n) ∧ n ≠ Z.of_nat (length samples)) →
  Forall2 (λ reader t, search_gnomad var reader gnomad_pop = Ok t) readers found →
  annotate r var min_af (Some samples) gnomad_pop readers mx w
  = (Ok (Some (fold_left (λ mx t, keep_max mx t.1.1 t.1.2 t.2) found mx)), w).
Proof.
  intros Hin Hans. revert mx.
  induction Hans as [| reader [[af popmax] pop] readers found Hfound _ IH];
    intros mx; cbn [annotate fold_left fst snd]; [reflexivity |].
  unfold mbind at 1. unfold M_bind at 1. unfold lift at 1. rewrite Hfound.
  unfold mbind at 1. unfold M_bind at 1.
  rewrite (passes_min_af_inactive r var min_af samples n af w Hin).
  apply IH.
Qed.

(** X13. Without a threshold, or when N_COMPAT (cell 7) is an integer
    other than the number of samples, the frequency filter does nothing:
    if every database answers, the row is written, with the three kept
    fields when there is a database, 1 is returned, and the only record
    logged is the one for the search. *)
Theorem frequency_filter_inactive (r : row) (var : VcfRecord)
    (gnomad_readers : list GnomadFilter) (min_af : option F) (samples : list string)
    (n : Z) (gnomad_pop : string) (found : list (string * string * string))
    (w : World) :
  min_af = None ∨ (r !! 7 = Some (CInt n) ∧ n ≠ Z.of_nat (length samples)) →
  Forall2 (λ reader t, search_gnomad var reader gnomad_pop = Ok t) gnomad_readers found →
  let '(max_af, max_popmax, max_pop) := kept_fields found in
  output_row r var gnomad_readers min_af (Some samples) gnomad_pop w
  = (Ok 1,
     mkWorld (reverse_allele_order w)
       (logged w ++ (if truthy gnomad_readers
                     then [SearchingGnomad (CHROM var) (POS var) (REF var) (ALT var)]
                     else []))
       (written w ++ [RowLine (if truthy gnomad_readers
                               then r ++ [CStr max_af; CStr max_popmax; CStr max_pop]
                               else r)])).
Proof.
  intros Hin Hans.
  destruct (kept_fields found) as [[max_af max_popmax] max_pop] eqn:Hkept.
  unfold output_row. destruct gnomad_readers as [| reader readers]; cbn [truthy].
  - simpl. rewrite app_nil_r. destruct w. reflexivity.
  - unfold mbind at 1. unfold M_bind at 1. unfold log at 1.
    unfold mbind at 1. unfold M_bind at 1.
    rewrite (annotate_inactive r var min_af samples n gnomad_pop (reader :: readers)
               found (".", ".", ".") _ Hin Hans).
    fold (kept_fields found). rewrite Hkept. reflexivity.
Qed.
End OutputRowFacts.

Lemma frequency_filter_inactive_witness :
  Example.ref_row !! 7 = Some (CInt 1)
  ∧ output_row Example.ref_row Example.paternal_alt
      [Example.database "0.001" "0.002" "nfe"] (Some (1 # 100)%Q)
      (Some ["child"; "sib"]) "POPMAX" Example.empty_world
    = (Ok 1,
       mkWorld ∅ [SearchingGnomad "1" 1300 "A" "G"]
         [RowLine (Example.ref_row ++ [CStr "0.001"; CStr "0.002"; CStr "nfe"])]).
Proof.
  split; [reflexivity |].
  apply (frequency_filter_inactive Example.ref_row Example.paternal_alt
           [Example.database "0.001" "0.002" "nfe"] (Some (1 # 100)%Q) ["child"; "sib"] 1
           "POPMAX" [("0.001", "0.002", "nfe")] Example.empty_world).
  - right. split; [reflexivity | simpl; lia].
  - repeat constructor.
Defined.

(** ** The fields kept over the databases *)

(** The order of [<] on texts, as [keep_max] uses it. *)
Lemma ltb_lts (a b : string) : String.ltb a b = true ↔ OrderedTypeEx.String_as_OT.lt a b.
Proof.
  rewrite <- OrderedTypeEx.String_as_OT.cmp_lt.
  unfold String.ltb, OrderedTypeEx.String_as_OT.cmp.
  destruct (String.compare a b); split; congruence.
Qed.

Lemma ltb_irrefl (a : string) : String.ltb a a = false.
Proof.
  destruct (String.ltb a a) eqn:Hlt; [| reflexivity].
  apply ltb_lts in Hlt.
  exfalso. exact (OrderedTypeEx.String_as_OT.lt_not_eq _ _ Hlt eq_refl).
Qed.

Lemma ltb_asym (a b : string) : String.ltb a b = true → String.ltb b a = false.
Proof.
  intros Hab. destruct (String.ltb b a) eqn:Hba; [| reflexivity].
  apply ltb_lts in Hab, Hba.
  pose proof (OrderedTypeEx.String_as_OT.lt_trans _ _ _ Hab Hba) as Haa.
  exfalso. exact (OrderedTypeEx.String_as_OT.lt_not_eq _ _ Haa eq_refl).
Qed.

(** [c <= a < b] gives [c < b], so not [b < c] and not [b = c]. *)
Lemma ltb_above (a b c : string) :
  String.ltb a b = true → String.ltb a c = false → String.ltb b c = false ∧ c ≠ b.
Proof.
  intros Hab Hac.
  assert (Hcb : String.ltb c b = true).
  { unfold String.ltb in Hac.
    destruct (String.compare a c) eqn:Hcmp; [| discriminate |].
    - apply String.compare_eq_iff in Hcmp as <-. exact Hab.
    - assert (Hca : String.ltb c a = true).
      { unfold String.ltb. rewrite String.compare_antisym, Hcmp. reflexivity. }
      apply ltb_lts. apply ltb_lts in Hca, Hab.
      exact (OrderedTypeEx.String_as_OT.lt_trans _ _ _ Hca Hab). }
  split; [apply ltb_asym; exact Hcb |].
  intros ->. rewrite ltb_irrefl in Hcb. discriminate.
Qed.

Lemma keep_max_step (seen : list (string * string * string))
    (mx t : string * string * string) :
  kept_so_far seen mx → kept_so_far (seen ++ [t]) (keep_max mx t.1.1 t.1.2 t.2).
Proof.
  intros [Hdot Hmax]. destruct t as [[af popmax] pop]. unfold keep_max. simpl.
  destruct (decide (af = ".")) as [-> | Haf].
  { rewrite bool_decide_eq_false_2 by (intros Hne; apply Hne; reflexivity).
    split.
    - intros Hmx. destruct (Hdot Hmx) as [-> Hall]. split; [reflexivity |].
      intros t Ht. apply elem_of_app in Ht as [Ht | Ht]; [auto |].
      apply list_elem_of_singleton in Ht as ->. reflexivity.
    - intros Hmx. destruct (Hmax Hmx) as [(before & after & -> & Hfirst) Hle]. split.
      + exists before, (after ++ [(".", popmax, pop)]).
        rewrite <- app_assoc. split; [reflexivity | exact Hfirst].
      + intros t Ht Hne. apply elem_of_app in Ht as [Ht | Ht]; [auto |].
        apply list_elem_of_singleton in Ht as ->. simpl in Hne. congruence. }
  rewrite bool_decide_eq_true_2 by exact Haf.
  destruct (decide (mx.1.1 = ".")) as [Hmx | Hmx].
  { rewrite bool_decide_eq_true_2 by exact Hmx. cbn [orb].
    destruct (Hdot Hmx) as [_ Hall]. split; [simpl; congruence |]. intros _. simpl. split.
    - exists seen, []. split; [reflexivity |].
      intros t Ht. rewrite (Hall t Ht). congruence.
    - intros t Ht Hne. apply elem_of_app in Ht as [Ht | Ht].
      + rewrite (Hall t Ht) in Hne. congruence.
      + apply list_elem_of_singleton in Ht as ->. apply ltb_irrefl. }
  rewrite bool_decide_eq_false_2 by exact Hmx. cbn [orb].
  destruct (Hmax Hmx) as [(before & after & Hseen & Hfirst) Hle].
  destruct (String.ltb mx.1.1 af) eqn:Hlt.
  - split; [simpl; congruence |]. intros _. simpl. split.
    + exists seen, []. split; [reflexivity |].
      intros t Ht. destruct (decide (t.1.1 = ".")) as [-> | Hne]; [congruence |].
      intros Heq. destruct (ltb_above _ _ _ Hlt (Hle t Ht Hne)) as [_ Hneq]. auto.
    + intros t Ht Hne. apply elem_of_app in Ht as [Ht | Ht].
      * exact (proj1 (ltb_above _ _ _ Hlt (Hle t Ht Hne))).
      * apply list_elem_of_singleton in Ht as ->. apply ltb_irrefl.
  - split; [contradiction |]. intros _. split.
    + exists before, (after ++ [(af, popmax, pop)]). rewrite Hseen, <- app_assoc.
      split; [reflexivity | exact Hfirst].
    + intros t Ht Hne. apply elem_of_app in Ht as [Ht | Ht]; [auto |].
      apply list_elem_of_singleton in Ht as ->. exact Hlt.
Qed.

Lemma keep_max_fold (found seen : list (string * string * string))
    (mx : string * string * string) :
  kept_so_far seen mx →
  kept_so_far (seen ++ found) (fold_left (λ mx t, keep_max mx t.1.1 t.1.2 t.2) found mx).
Proof.
  revert seen mx. induction found as [| t found IH]; intros seen mx Hinv; simpl.
  - rewrite app_nil_r. exact Hinv.
  - replace (seen ++ t :: found) with ((seen ++ [t]) ++ found)
      by (rewrite <- app_assoc; reflexivity).
    apply IH, keep_max_step, Hinv.
Qed.

(** X14. Over the answers of the databases, in order, the three fields
    kept are "." throughout exactly when no database has the variant;
    otherwise they are the answer of the first database whose frequency
    text is the greatest, in the order of texts, among the answers other
    than ".". *)
Theorem kept_fields_first_greatest (found : list (string * string * string)) :
  let kept := kept_fields found in
  (kept.1.1 = "." ↔ ∀ t, t ∈ found → t.1.1 = ".")
  ∧ (kept.1.1 = "." → kept = (".", ".", "."))
  ∧ (kept.1.1 ≠ "." →
     (∃ before after, found = before ++ kept :: after
                      ∧ ∀ t, t ∈ before → t.1.1 ≠ kept.1.1)
     ∧ ∀ t, t ∈ found → t.1.1 ≠ "." → String.ltb kept.1.1 t.1.1 = false).
Proof.
  intros kept.
  assert (Hinv : kept_so_far found kept).
  { apply (keep_max_fold found [] (".", ".", ".")). split.
    - intros _. split; [reflexivity |]. intros t Ht. inversion Ht.
    - intros Hne. exfalso. apply Hne. reflexivity. }
  destruct Hinv as [Hdot Hmax]. split; [| split].
  - split; [intros Hk; exact (proj2 (Hdot Hk)) |].
    intros Hall. destruct (decide (kept.1.1 = ".")) as [Hk | Hk]; [exact Hk |].
    destruct (Hmax Hk) as [(before & after & Hfound & _) _].
    apply Hall. rewrite Hfound. apply elem_of_app. right. left.
  - intros Hk. exact (proj1 (Hdot Hk)).
  - exact Hmax.
Qed.

(** ** The fatal errors of [vcf_to_hap] *)

Section FatalErrors.
Context {F : Type} `{Float F}.

(** X15. A sample of interest that is not in the header of the VCF or not
    in the pedigree, an index variant that no record of its window matches,
    or an index variant whose record is not biallelic, ends the run in a
    RuntimeError before anything is written; the orientation memory is
    untouched. *)
Theorem fatal_errors_before_output (argv : list string) (vreader : VcfReader)
    (samples : list string) (ped_file : PedFile)
    (v_chrom : string) (v_pos : Z) (v_ref v_alt : string) (flanks : Z)
    (gnomad_readers : list GnomadFilter) (gt_filter : GtFilter)
    (informative_only phased_in_all : bool) (max_no_calls : option Z)
    (output_alleles : bool) (min_other_allele_freq : option F)
    (bfinder : option BedFinder) (gnomad_pop : string) (w : World) :
  ¬ Forall (λ s, s ∈ header_samples vreader ∧ is_Some (individuals ped_file !! s)) samples
  ∨ (∀ var, var ∈ fetch vreader v_chrom (v_pos - 1)
                    (v_pos + Z.of_nat (String.length v_ref) - 1) →
            matches_var v_pos v_ref v_alt var = false)
  ∨ (∃ iv, search_var vreader v_chrom v_pos v_ref v_alt = Ok iv
           ∧ length (ALLELES iv) ≠ 2) →
  let run := vcf_to_hap argv vreader samples ped_file (v_chrom, v_pos, v_ref, v_alt)
               flanks gnomad_readers gt_filter informative_only phased_in_all
               max_no_calls output_alleles min_other_allele_freq bfinder gnomad_pop w in
  run.1 = Raise RuntimeError
  ∧ written run.2 = written w
  ∧ reverse_allele_order run.2 = reverse_allele_order w.
Proof.
  intros Hbad run. subst run. unfold vcf_to_hap.
  destruct (check_samples_general vreader ped_file samples ∅) as [Hok Hnot].
  destruct (decide (Forall (λ s, s ∈ header_samples vreader
                                 ∧ is_Some (individuals ped_file !! s)) samples))
    as [Hall | Hnall].
  2: { unfold mbind, M_bind, lift. rewrite (Hnot Hnall). done. }
  destruct (Hok Hall) as (families & Hcs & _).
  rewrite (bind_lift_ok _ _ _ _ Hcs), bind_log.
  destruct Hbad as [Hn | [Hnone | (iv & Hsv & Hlen)]]; [contradiction | |].
  - assert (Hsv : search_var vreader v_chrom v_pos v_ref v_alt = Raise RuntimeError).
    { unfold search_var.
      destruct (filter _ _) as [| var l] eqn:Hf; [reflexivity |].
      assert (Hin : var ∈ filter (λ var, matches_var v_pos v_ref v_alt var = true)
                      (fetch vreader v_chrom (v_pos - 1)
                         (v_pos + Z.of_nat (String.length v_ref) - 1)))
        by (rewrite Hf; left).
      apply list_elem_of_filter in Hin as [Hm Hin]. rewrite (Hnone var Hin) in Hm.
      discriminate. }
    unfold mbind, M_bind, lift. rewrite Hsv. done.
  - rewrite (bind_lift_ok _ _ _ _ Hsv).
    rewrite bool_decide_eq_true_2 by exact Hlen. done.
Qed.

(** X16. When the samples of interest pass the check and the index
    variant is found and has two alleles, but [parse_haplotypes] rejects
    it (its two alleles differ in length, or every admissible sample of
    interest has a diploid call and none carries the alternate allele),
    the run ends in a TypeError at line 404, with nothing written and the
    orientation memory untouched. *)
Theorem rejected_index_variant_raises (argv : list string) (vreader : VcfReader)
    (samples : list string) (ped_file : PedFile)
    (v_chrom : string) (v_pos : Z) (v_ref v_alt : string) (flanks : Z)
    (gnomad_readers : list GnomadFilter) (gt_filter : GtFilter)
    (informative_only phased_in_all : bool) (max_no_calls : option Z)
    (output_alleles : bool) (min_other_allele_freq : option F)
    (bfinder : option BedFinder) (gnomad_pop : string) (w : World) (iv : VcfRecord) :
  Forall (λ s, s ∈ header_samples vreader ∧ is_Some (individuals ped_file !! s)) samples →
  search_var vreader v_chrom v_pos v_ref v_alt = Ok iv →
  length (ALLELES iv) = 2 →
  rejected gt_filter iv samples →
  let run := vcf_to_hap argv vreader samples ped_file (v_chrom, v_pos, v_ref, v_alt)
               flanks gnomad_readers gt_filter informative_only phased_in_all
               max_no_calls output_alleles min_other_allele_freq bfinder gnomad_pop w in
  run.1 = Raise TypeError
  ∧ written run.2 = written w
  ∧ reverse_allele_order run.2 = reverse_allele_order w.
Proof.
  intros Hall Hsv Hlen Hrej run.
  enough (∃ w', run = (Raise TypeError, w') ∧ written w' = written w
                ∧ reverse_allele_order w' = reverse_allele_order w)
    as (w' & -> & Hw') by exact (conj eq_refl Hw').
  subst run. unfold vcf_to_hap.
  destruct (check_samples_general vreader ped_file samples ∅) as [Hok _].
  destruct (Hok Hall) as (families & Hcs & _).
  rewrite (bind_lift_ok _ _ _ _ Hcs), bind_log.
  rewrite (bind_lift_ok _ _ _ _ Hsv).
  rewrite bool_decide_eq_false_2 by (intros Hne; apply Hne; exact Hlen).
  set (w1 := mkWorld _ _ _).
  destruct (parse_haplotypes_rejected iv samples
              (find_unrelateds ped_file (header_samples vreader) families [])
              ped_file gt_filter false true w1 Hrej) as (d & _ & Hrun).
  unfold mbind at 1. unfold M_bind at 1. rewrite Hrun.
  subst w1. unfold mbind, M_bind, lift. simpl. eexists. split; [reflexivity |]. done.
Qed.
End FatalErrors.

Lemma fatal_errors_before_output_witness :
  let run := vcf_to_hap ["het_hap_phaser"] Example.vreader ["child"; "cousin"]
               Example.ped_file ("1", 1000%Z, "A", "G") 500 [] Example.gt_filter
               false false None false (None : option Q) None "POPMAX"
               Example.empty_world in
  run.1 = Raise RuntimeError
  ∧ written run.2 = written Example.empty_world
  ∧ reverse_allele_order run.2 = reverse_allele_order Example.empty_world.
Proof.
  apply (fatal_errors_before_output ["het_hap_phaser"] Example.vreader ["child"; "cousin"]
           Example.ped_file "1" 1000 "A" "G" 500 [] Example.gt_filter
           false false None false (None : option Q) None "POPMAX" Example.empty_world).
  left. intros Hall. apply Forall_cons in Hall as [_ Hall].
  apply Forall_cons in Hall as [[Hin _] _].
  repeat (apply elem_of_cons in Hin as [Hin | Hin]; [discriminate Hin |]).
  inversion Hin.
Defined.

Lemma rejected_index_variant_raises_witness :
  let run := vcf_to_hap ["het_hap_phaser"] insertion_reader ["child"]
               Example.ped_file ("1", 1000%Z, "A", "AT") 500 [] Example.gt_filter
               false false None false (None : option Q) None "POPMAX"
               Example.empty_world in
  run.1 = Raise TypeError
  ∧ written run.2 = written Example.empty_world
  ∧ reverse_allele_order run.2 = reverse_allele_order Example.empty_world.
Proof.
  apply (rejected_index_variant_raises ["het_hap_phaser"] insertion_reader ["child"]
           Example.ped_file "1" 1000 "A" "AT" 500 [] Example.gt_filter
           false false None false (None : option Q) None "POPMAX" Example.empty_world
           insertion).
  - repeat constructor. vm_compute. eauto.
  - vm_compute. reflexivity.
  - reflexivity.
  - right. left. exists "A", "AT". split; [reflexivity | simpl; lia].
Defined.

(** ** The rows a region walk writes *)

Lemma wam_same {A} (P : row → Prop) (m : M A) :
  preserves same_written m → writes_at_most P m.
Proof. intros Hm w. left. apply Hm. Qed.

Lemma wam_bind_l {A B} (P : row → Prop) (m : M A) (f : A → M B) :
  preserves same_written m → (∀ a, writes_at_most P (f a)) →
  writes_at_most P (m ≫= f).
Proof.
  intros Hm Hf w. unfold mbind, M_bind. specialize (Hm w). unfold same_written in Hm.
  destruct (m w) as [[a | e] w1]; simpl in *; [| left; exact Hm].
  rewrite <- Hm. apply Hf.
Qed.

Lemma wam_bind_r {A B} (P : row → Prop) (m : M A) (f : A → M B) :
  writes_at_most P m → (∀ a, preserves same_written (f a)) →
  writes_at_most P (m ≫= f).
Proof.
  intros Hm Hf w. unfold mbind, M_bind. specialize (Hm w).
  destruct (m w) as [[a | e] w1]; simpl in *; [| exact Hm].
  specialize (Hf a w1). unfold same_written in Hf. rewrite Hf. exact Hm.
Qed.

Section RegionRows.
Context {F : Type} `{Float F}.

(** [output_row] writes nothing, or the row with as many more cells as
    there are frequency fields. *)
Lemma output_row_wam (r : row) (var : VcfRecord)
    (gnomad_readers : list GnomadFilter) (min_af : option F)
    (samples : option (list string)) (gnomad_pop : string) :
  writes_at_most (λ r', ∃ extra, r' = r ++ extra
                                 ∧ length extra = if truthy gnomad_readers then 3 else 0)
    (output_row r var gnomad_readers min_af samples gnomad_pop).
Proof.
  intros w.
  destruct (output_row r var gnomad_readers min_af samples gnomad_pop w)
    as [res w'] eqn:Hrun.
  apply output_row_outcome in Hrun. simpl.
  destruct res as [k | e]; [| left; exact Hrun].
  destruct Hrun as [(_ & Hw & _) | (_ & extra & Hw & Hlen)]; [left; exact Hw |].
  right. exists (r ++ extra). split; [exists extra; done | exact Hw].
Qed.

(** After the row of the engine has lost its three trailing cells: what
    is written passes the ceiling and the policy. *)
Lemma policies_wam (samples : list string) (informative_only phased_in_all : bool)
    (max_no_calls : option Z) (gnomad_readers : list GnomadFilter)
    (min_other_allele_freq : option F) (gnomad_pop : string) (n k : nat)
    (var : VcfRecord) (body : row) (informative all_phased : bool) (no_calls : nat) :
  writes_at_most
    (λ r, (∀ mx, max_no_calls = Some mx → (Z.of_nat no_calls ≤ mx)%Z)
          ∧ (phased_in_all = true → all_phased = true)
          ∧ (phased_in_all = false → informative_only = true → informative = true)
          ∧ ∃ extra, r = body ++ extra
                     ∧ length extra = if truthy gnomad_readers then 3 else 0)
    (too_many ← match max_no_calls with
                | None => mret false
                | Some mx => lift (cell_gt (CInt (Z.of_nat no_calls)) mx)
                end;
     if too_many : bool then
       c0 ← lift (index body 0); c1 ← lift (index body 1);
       _ ← log (SkipNoCalls c0 c1); mret (S n, k)
     else if phased_in_all then
       if truth (CBool all_phased) then
         j ← output_row body var gnomad_readers min_other_allele_freq
               (Some samples) gnomad_pop;
         mret (S n, k + j)
       else
         c0 ← lift (index body 0); c1 ← lift (index body 1);
         _ ← log (SkipNotAllPhased c0 c1); mret (S n, k)
     else if informative_only then
       if truth (CBool informative) then
         j ← output_row body var gnomad_readers min_other_allele_freq
               (Some samples) gnomad_pop;
         mret (S n, k + j)
       else
         c0 ← lift (index body 0); c1 ← lift (index body 1);
         _ ← log (SkipNotInformative c0 c1); mret (S n, k)
     else
       j ← output_row body var gnomad_readers min_other_allele_freq
             (Some samples) gnomad_pop;
       mret (S n, k + j)).
Proof.
  assert (Hout : ∀ Q : Prop, Q →
            writes_at_most (λ r, Q ∧ ∃ extra, r = body ++ extra
                                   ∧ length extra = if truthy gnomad_readers then 3 else 0)
              (j ← output_row body var gnomad_readers min_other_allele_freq
                     (Some samples) gnomad_pop;
               mret (S n, k + j))).
  { intros Q HQ. apply wam_bind_r; [| intros j; preserves_auto].
    intros w. destruct (output_row_wam body var gnomad_readers min_other_allele_freq
                          (Some samples) gnomad_pop w) as [Hw | (r & Hr & Hw)];
      [left; exact Hw | right; exists r; done]. }
  assert (Hceil : ∀ too_many : bool,
            (too_many = false → ∀ mx, max_no_calls = Some mx → (Z.of_nat no_calls ≤ mx)%Z) →
            writes_at_most
              (λ r, (∀ mx, max_no_calls = Some mx → (Z.of_nat no_calls ≤ mx)%Z)
                    ∧ (phased_in_all = true → all_phased = true)
                    ∧ (phased_in_all = false → informative_only = true
                       → informative = true)
                    ∧ ∃ extra, r = body ++ extra
                               ∧ length extra = if truthy gnomad_readers then 3 else 0)
              (if too_many then
                 c0 ← lift (index body 0); c1 ← lift (index body 1);
                 _ ← log (SkipNoCalls c0 c1); mret (S n, k)
               else if phased_in_all then
                 if truth (CBool all_phased) then
                   j ← output_row body var gnomad_readers min_other_allele_freq
                         (Some samples) gnomad_pop;
                   mret (S n, k + j)
                 else
                   c0 ← lift (index body 0); c1 ← lift (index body 1);
                   _ ← log (SkipNotAllPhased c0 c1); mret (S n, k)
               else if informative_only then
                 if truth (CBool informative) then
                   j ← output_row body var gnomad_readers min_other_allele_freq
                         (Some samples) gnomad_pop;
                   mret (S n, k + j)
                 else
                   c0 ← lift (index body 0); c1 ← lift (index body 1);
                   _ ← log (SkipNotInformative c0 c1); mret (S n, k)
               else
                 j ← output_row body var gnomad_readers min_other_allele_freq
                       (Some samples) gnomad_pop;
                 mret (S n, k + j))).
  { intros [|] Hmx; [apply wam_same; preserves_auto |].
    specialize (Hmx eq_refl).
    destruct phased_in_all; [destruct all_phased | destruct informative_only;
                                                   [destruct informative |]];
      cbn [truth];
      first [ apply wam_same; solve [preserves_auto]
            | intros w;
              destruct (Hout (∀ mx, max_no_calls = Some mx → (Z.of_nat no_calls ≤ mx)%Z)
                          Hmx w) as [Hw | (r & [_ Hr] & Hw)];
              [left; exact Hw | right; exists r; split; [| exact Hw]];
              split; [exact Hmx |]; split; [done |]; split; [done | exact Hr] ]. }
  destruct max_no_calls as [mx |].
  - unfold cell_gt.
    rewrite (bind_lift_pure _ _ _ eq_refl). apply Hceil.
    intros Hgt mx' [= <-]. apply bool_decide_eq_false in Hgt. lia.
  - apply wam_bind_l; [preserves_auto | intros too_many].
    destruct too_many; [apply wam_same; preserves_auto |].
    apply (Hceil false). intros _ mx Hmx. discriminate.
Qed.
End RegionRows.

Section RegionWalk.
Context {F : Type} `{Float F}.

(** One step of the region walk writes nothing, or one accepted row of
    the variant it is on. *)
Lemma region_step_accepted (samples unrelateds : list string) (ped_file : PedFile)
    (gt_filter : GtFilter) (informative_only phased_in_all output_alleles : bool)
    (max_no_calls : option Z) (gnomad_readers : list GnomadFilter)
    (avoid_bed : option BedFinder) (min_other_allele_freq : option F)
    (gnomad_pop : string) (nw : nat * nat) (var : VcfRecord) (w w' : World)
    (res : result (nat * nat)) :
  region_step samples unrelateds ped_file gt_filter informative_only phased_in_all
    output_alleles max_no_calls gnomad_readers avoid_bed min_other_allele_freq
    gnomad_pop nw var w = (res, w') →
  written w' = written w
  ∨ ∃ r, accepted_row samples unrelateds ped_file gt_filter informative_only
           phased_in_all output_alleles max_no_calls gnomad_readers avoid_bed w var r
         ∧ written w' = written w ++ [RowLine r].
Proof.
  unfold region_step. destruct nw as [n k].
  unfold mbind at 1. unfold M_bind at 1.
  set (w1 := (if bool_decide (n `mod` 100 = 0) && negb (bool_decide (n = 0))
              then log (Progress n k (CHROM var) (POS var)) else mret tt) w).
  assert (Hw1 : ∃ w2, w1 = (Ok tt, w2) ∧ written w2 = written w
                      ∧ reverse_allele_order w2 = reverse_allele_order w).
  { subst w1. destruct (_ && _); eexists; split; try reflexivity; split; reflexivity. }
  destruct Hw1 as (w2 & -> & Hwr & Hmem).
  destruct (match avoid_bed with
            | Some b => bed_fetch b (CHROM var) (POS var) (SPAN var)
            | None => false
            end) eqn:Hbed.
  { intros [= _ <-]. left. exact Hwr. }
  unfold mbind at 1. unfold M_bind at 1.
  pose proof (parse_haplotypes_same_written var samples unrelateds ped_file gt_filter
                output_alleles false w2) as Hw3.
  destruct (parse_haplotypes var samples unrelateds ped_file gt_filter output_alleles
              false w2) as [[[row0 |] | e] w3] eqn:Heng;
    unfold same_written in Hw3; simpl in Hw3;
    [| intros [= _ <-]; left; congruence | intros [= _ <-]; left; congruence].
  pose proof Heng as Hlay.
  apply parse_haplotypes_layout in Hlay
    as (hap & n_in & n_compat & cols & an & af & inf & allp & nc & Hrow0 & _).
  set (body := [CStr (CHROM var); CInt (POS var); CStr (ID var); CStr (REF var);
                CStr (ALT var); CStr hap; CInt (Z.of_nat n_in);
                CInt (Z.of_nat n_compat)] ++ cols ++ [an; af]).
  assert (Hbody : row0 = ((body ++ [CBool inf]) ++ [CBool allp]) ++ [CInt (Z.of_nat nc)]).
  { rewrite Hrow0. subst body. rewrite <- !app_assoc. reflexivity. }
  clear Hrow0. clearbody body. subst row0. cbv beta iota.
  rewrite (bind_lift_ok _ _ _ _ (pop_snoc _ _)). cbv beta iota.
  rewrite (bind_lift_ok _ _ _ _ (pop_snoc _ _)). cbv beta iota.
  rewrite (bind_lift_ok _ _ _ _ (pop_snoc _ _)). cbv beta iota.
  intros Hrun.
  pose proof (policies_wam samples informative_only phased_in_all max_no_calls
                gnomad_readers min_other_allele_freq gnomad_pop n k var body inf allp nc
                w3) as Htail.
  rewrite Hrun in Htail. simpl in Htail.
  destruct Htail as [Hw | (r & (Hceil & Hall & Hinf & extra & -> & Hlen) & Hw)];
    [left; congruence |].
  right. exists (body ++ extra). split; [| congruence].
  split.
  { intros b ->. exact Hbed. }
  exists w2, w3, body, inf, allp, nc, extra.
  split; [intros s; rewrite Hmem; reflexivity |].
  split; [rewrite Heng, <- !app_assoc; reflexivity |].
  done.
Qed.

(** The loop of the region walk adds accepted rows of some of the
    variants, in their order. *)
Lemma region_loop_accepted (samples unrelateds : list string) (ped_file : PedFile)
    (gt_filter : GtFilter) (informative_only phased_in_all output_alleles : bool)
    (max_no_calls : option Z) (gnomad_readers : list GnomadFilter)
    (avoid_bed : option BedFinder) (min_other_allele_freq : option F)
    (gnomad_pop : string) (vs : list VcfRecord) (nw : nat * nat) (w0 w : World) :
  same_flags w0 w →
  rows_such (accepted_row samples unrelateds ped_file gt_filter informative_only
               phased_in_all output_alleles max_no_calls gnomad_readers avoid_bed w0)
    vs w
    (foldM (region_step samples unrelateds ped_file gt_filter informative_only
              phased_in_all output_alleles max_no_calls gnomad_readers avoid_bed
              min_other_allele_freq gnomad_pop) vs nw w).2.
Proof.
  revert nw w. induction vs as [| v vs IH]; intros nw w Hflags; simpl.
  - exists [], []. split; [constructor |]. split; [constructor |].
    simpl. rewrite app_nil_r. reflexivity.
  - unfold mbind, M_bind.
    pose proof (region_step_accepted samples unrelateds ped_file gt_filter
                  informative_only phased_in_all output_alleles max_no_calls
                  gnomad_readers avoid_bed min_other_allele_freq gnomad_pop nw v w)
      as Hstep.
    pose proof (region_step_same_flags samples unrelateds ped_file gt_filter
                  informative_only phased_in_all output_alleles max_no_calls
                  gnomad_readers avoid_bed min_other_allele_freq gnomad_pop nw v w)
      as Hfl.
    destruct (region_step _ _ _ _ _ _ _ _ _ _ _ _ nw v w) as [res w1].
    specialize (Hstep w1 res eq_refl). simpl in Hfl.
    assert (Hacc : ∀ r,
              accepted_row samples unrelateds ped_file gt_filter informative_only
                phased_in_all output_alleles max_no_calls gnomad_readers avoid_bed w v r →
              accepted_row samples unrelateds ped_file gt_filter informative_only
                phased_in_all output_alleles max_no_calls gnomad_readers avoid_bed w0 v r).
    { intros r (Hbed & wa & wb & body & inf & allp & nc & extra & Hsame & Hrest).
      split; [exact Hbed |]. exists wa, wb, body, inf, allp, nc, extra.
      split; [etrans; eassumption | exact Hrest]. }
    destruct res as [nw' | e]; simpl.
    + destruct (IH nw' w1 ltac:(etrans; eassumption)) as (vs' & rs & Hsub & Hrows & Hwr).
      destruct Hstep as [Hw1 | (r & Hr & Hw1)].
      * exists vs', rs. split; [apply sublist_cons; exact Hsub |].
        split; [exact Hrows |]. rewrite Hwr, Hw1. reflexivity.
      * exists (v :: vs'), (r :: rs). split; [apply sublist_skip; exact Hsub |].
        split; [constructor; [apply Hacc; exact Hr | exact Hrows] |].
        rewrite Hwr, Hw1, <- app_assoc. reflexivity.
    + destruct Hstep as [Hw1 | (r & Hr & Hw1)].
      * exists [], []. split; [apply sublist_nil_l |]. split; [constructor |].
        simpl. rewrite app_nil_r. exact Hw1.
      * exists [v], [r]. split; [apply sublist_skip, sublist_nil_l |].
        split; [constructor; [apply Hacc; exact Hr | constructor] |]. exact Hw1.
Qed.

(** The rows of a whole region walk. *)
Lemma parse_region_accepted (vcf : VcfReader)
    (samples unrelateds : list string) (ped_file : PedFile) (chrom : string)
    (start end_ : Z) (gt_filter : GtFilter)
    (informative_only phased_in_all output_alleles : bool)
    (max_no_calls : option Z) (gnomad_readers : list GnomadFilter)
    (avoid_bed : option BedFinder) (min_other_allele_freq : option F)
    (gnomad_pop : string) (w : World) :
  let run := parse_region vcf samples unrelateds ped_file chrom start end_ gt_filter
               informative_only phased_in_all output_alleles max_no_calls
               gnomad_readers avoid_bed min_other_allele_freq gnomad_pop w in
  ∃ vs rs,
    vs `sublist_of` fetch vcf chrom (start - 1) end_
    ∧ Forall2 (accepted_row samples unrelateds ped_file gt_filter informative_only
                 phased_in_all output_alleles max_no_calls gnomad_readers avoid_bed w)
              vs rs
    ∧ written run.2 = written w ++ (RowLine <$> rs).
Proof.
  intros run. subst run.
  unfold parse_region, mbind, M_bind, log. cbv beta iota.
  set (w1 := mkWorld _ _ _).
  pose proof (region_loop_accepted samples unrelateds ped_file gt_filter informative_only
                phased_in_all output_alleles max_no_calls gnomad_readers avoid_bed
                min_other_allele_freq gnomad_pop (fetch vcf chrom (start - 1) end_)
                (0, 0) w w1 ltac:(intros s; reflexivity)) as Hloop.
  destruct (foldM _ _ _ w1) as [[nw | e] w2]; exact Hloop.
Qed.
(** X17. Whatever its outcome, [parse_region] has added to the output
    only rows of variants of the region, in the order of the region, and
    each of them is an accepted row: the variant is outside the excluded
    regions, and the row is the one [parse_haplotypes] returned for it,
    with a number of no-calls within the ceiling, phased in all samples
    when that is asked for, informative when only that is asked for,
    without its three trailing cells and with three frequency fields when
    there is a database. *)
Theorem parse_region_writes_accepted_rows (vcf : VcfReader)
    (samples unrelateds : list string) (ped_file : PedFile) (chrom : string)
    (start end_ : Z) (gt_filter : GtFilter)
    (informative_only phased_in_all output_alleles : bool)
    (max_no_calls : option Z) (gnomad_readers : list GnomadFilter)
    (avoid_bed : option BedFinder) (min_other_allele_freq : option F)
    (gnomad_pop : string) (w : World) :
  let run := parse_region vcf samples unrelateds ped_file chrom start end_ gt_filter
               informative_only phased_in_all output_alleles max_no_calls
               gnomad_readers avoid_bed min_other_allele_freq gnomad_pop w in
  ∃ vs rs,
    vs `sublist_of` fetch vcf chrom (start - 1) end_
    ∧ Forall2 (accepted_row samples unrelateds ped_file gt_filter informative_only
                 phased_in_all output_alleles max_no_calls gnomad_readers avoid_bed w)
              vs rs
    ∧ written run.2 = written w ++ (RowLine <$> rs).
Proof. apply parse_region_accepted. Qed.
End RegionWalk.

(** ** The number of cells of the rows of a run *)

Lemma accepted_row_width (samples unrelateds : list string) (ped_file : PedFile)
    (gt_filter : GtFilter) (informative_only phased_in_all output_alleles : bool)
    (max_no_calls : option Z) (gnomad_readers : list GnomadFilter)
    (avoid_bed : option BedFinder) (w : World) (var : VcfRecord) (r : row) :
  accepted_row samples unrelateds ped_file gt_filter informative_only phased_in_all
    output_alleles max_no_calls gnomad_readers avoid_bed w var r →
  length r = flank_width samples output_alleles gnomad_readers.
Proof.
  intros (_ & w1 & w2 & body & inf & allp & nc & extra & _ & Heng & _ & _ & _ & -> & Hlen).
  apply parse_haplotypes_layout in Heng
    as (hap & n_in & n_compat & cols & an & af & inf' & allp' & nc' & _ & Hcols & Hrow & _).
  rewrite length_app in Hrow. simpl in Hrow.
  rewrite length_app, Hlen. unfold flank_width. rewrite <- Hcols. lia.
Qed.

(** The index row as [vcf_to_hap] prepares it (lines 401-407), with its
    number of cells. *)
Lemma index_row_width (iv : VcfRecord) (samples unrelateds : list string)
    (ped_file : PedFile) (gt_filter : GtFilter) (w w' : World) (row0 : row) :
  parse_haplotypes iv samples unrelateds ped_file gt_filter false true w
  = (Ok (Some row0), w') →
  ∃ m1 m2 m3 irow c1 c2 c3,
    mark_index (Some row0) = Ok m1 ∧
    pop m1 = Ok (c3, m2) ∧ pop m2 = Ok (c2, m3) ∧ pop m3 = Ok (c1, irow) ∧
    index_row_for iv irow ∧ length irow = 10 + length samples.
Proof.
  intros Heng.
  apply parse_haplotypes_layout in Heng
    as (hap & n_in & n_compat & cols & an & af & inf & allp & nc & -> & Hcols & _).
  set (rest := [CStr hap; CInt (Z.of_nat n_in); CInt (Z.of_nat n_compat)] ++ cols
               ++ [an; af]).
  exists (((([CStr (CHROM iv); CInt (POS iv); CStr (ID iv +:+ "|INDEX");
             CStr (REF iv); CStr (ALT iv)] ++ rest) ++ [CBool inf]) ++ [CBool allp])
          ++ [CInt (Z.of_nat nc)]).
  do 3 eexists. exists (CBool inf), (CBool allp), (CInt (Z.of_nat nc)).
  split; [subst rest; simpl; rewrite <- !app_assoc; reflexivity |].
  split; [apply pop_snoc |]. split; [apply pop_snoc |]. split; [apply pop_snoc |].
  split; [exists rest; reflexivity |].
  subst rest. simpl. rewrite length_app, Hcols. simpl. lia.
Qed.

Section Widths.
Context {F : Type} `{Float F}.

Lemma parse_region_widths (vcf : VcfReader) (samples unrelateds : list string)
    (ped_file : PedFile) (chrom : string) (start end_ : Z) (gt_filter : GtFilter)
    (informative_only phased_in_all output_alleles : bool)
    (max_no_calls : option Z) (gnomad_readers : list GnomadFilter)
    (avoid_bed : option BedFinder) (min_other_allele_freq : option F)
    (gnomad_pop : string) (w : World) :
  ∃ rs, Forall (λ r, length r = flank_width samples output_alleles gnomad_readers) rs
        ∧ written (parse_region vcf samples unrelateds ped_file chrom start end_
                     gt_filter informative_only phased_in_all output_alleles
                     max_no_calls gnomad_readers avoid_bed min_other_allele_freq
                     gnomad_pop w).2
          = written w ++ (RowLine <$> rs).
Proof.
  destruct (parse_region_accepted vcf samples unrelateds ped_file chrom start end_
              gt_filter informative_only phased_in_all output_alleles max_no_calls
              gnomad_readers avoid_bed min_other_allele_freq gnomad_pop w)
    as (vs & rs & _ & Hrows & Hw).
  exists rs. split; [| exact Hw].
  clear Hw. induction Hrows as [| v r vs rs Hr _ IH]; constructor; [| exact IH].
  eapply accepted_row_width. exact Hr.
Qed.

(** From the two header lines on: flanking rows, the index row, flanking
    rows, with their numbers of cells. *)
Lemma scan_tail_widths (argv hc : list string) (vreader : VcfReader)
    (samples unrelateds : list string) (ped_file : PedFile) (chrom : string)
    (startL endL startR endR : Z) (gt_filter : GtFilter)
    (informative_only phased_in_all output_alleles : bool) (max_no_calls : option Z)
    (gnomad_readers : list GnomadFilter) (bfinder : option BedFinder)
    (min_other_allele_freq : option F) (gnomad_pop : string)
    (iv : VcfRecord) (irow : row) (w : World) :
  index_row_for iv irow →
  length irow = 10 + length samples →
  let run :=
    (_ ← write (CommandLine argv);
     _ ← write (HeaderLine hc);
     _ ← parse_region vreader samples unrelateds ped_file chrom startL endL
           gt_filter informative_only phased_in_all output_alleles max_no_calls
           gnomad_readers bfinder min_other_allele_freq gnomad_pop;
     _ ← output_row irow iv gnomad_readers None None gnomad_pop;
     parse_region vreader samples unrelateds ped_file chrom startR endR
       gt_filter informative_only phased_in_all output_alleles max_no_calls
       gnomad_readers bfinder min_other_allele_freq gnomad_pop) w in
  ∃ left mid right,
    written run.2
    = written w ++ [CommandLine argv; HeaderLine hc]
                ++ (RowLine <$> (left ++ mid ++ right)) ∧
    Forall (λ r, length r = flank_width samples output_alleles gnomad_readers)
           (left ++ right) ∧
    ((mid = [] ∧ right = [])
     ∨ ∃ r, mid = [r] ∧ index_row_for iv r
            ∧ length r = index_width samples gnomad_readers) ∧
    (run.1 = Ok tt → mid ≠ []).
Proof.
  intros [rest Hirow] Hlen run. subst run.
  unfold mbind, M_bind, write. cbv beta iota.
  set (w1 := mkWorld _ _ _).
  assert (Hw1 : written w1 = written w ++ [CommandLine argv; HeaderLine hc]).
  { subst w1. simpl. rewrite <- app_assoc. reflexivity. }
  clearbody w1.
  destruct (parse_region_widths vreader samples unrelateds ped_file chrom startL endL
              gt_filter informative_only phased_in_all output_alleles max_no_calls
              gnomad_readers bfinder min_other_allele_freq gnomad_pop w1)
    as (left & HrowsL & HwL).
  destruct (parse_region vreader samples unrelateds ped_file chrom startL endL
              _ _ _ _ _ _ _ _ _ w1) as [[[] | e] w2]; simpl in HwL.
  2: { exists left, [], []. simpl. rewrite !app_nil_r, HwL, Hw1, <- app_assoc.
       split; [reflexivity |]. split; [exact HrowsL |].
       split; [left; done | discriminate]. }
  pose proof (output_row_outcome irow iv gnomad_readers None None gnomad_pop w2) as Hout.
  destruct (output_row irow iv gnomad_readers None None gnomad_pop w2)
    as [[k | e] w3]; specialize (Hout w3 _ eq_refl); simpl in Hout.
  2: { exists left, [], []. simpl. rewrite !app_nil_r, Hout, HwL, Hw1, <- app_assoc.
       split; [reflexivity |]. split; [exact HrowsL |].
       split; [left; done | discriminate]. }
  destruct Hout as [(_ & _ & _ & [x Hx]) | (_ & extra & Hw3 & Hextra)]; [discriminate |].
  destruct (parse_region_widths vreader samples unrelateds ped_file chrom startR endR
              gt_filter informative_only phased_in_all output_alleles max_no_calls
              gnomad_readers bfinder min_other_allele_freq gnomad_pop w3)
    as (right & HrowsR & HwR).
  exists left, [irow ++ extra], right.
  split.
  { rewrite HwR, Hw3, HwL, Hw1, !fmap_app, <- !app_assoc. reflexivity. }
  split; [apply Forall_app; split; assumption |].
  split; [| intros _; discriminate].
  right. eexists. split; [reflexivity |]. split.
  - exists (rest ++ extra). rewrite Hirow, <- app_assoc. reflexivity.
  - rewrite length_app, Hlen, Hextra. reflexivity.
Qed.

(** X18. Whatever the outcome of a run, the lines it has written are the
    two header lines followed by flanking rows, the row of the index
    variant and flanking rows.  Every flanking row has 10 cells, one cell
    per sample of interest, or two when alleles are output, and three
    more when there is a frequency database.  The index row always has
    one cell per sample of interest, also when alleles are output: it is
    then shorter than the flanking rows by the number of samples. *)
Theorem index_row_one_cell_per_sample (argv : list string) (vreader : VcfReader)
    (samples : list string) (ped_file : PedFile)
    (v_chrom : string) (v_pos : Z) (v_ref v_alt : string) (flanks : Z)
    (gnomad_readers : list GnomadFilter) (gt_filter : GtFilter)
    (informative_only phased_in_all : bool) (max_no_calls : option Z)
    (output_alleles : bool) (min_other_allele_freq : option F)
    (bfinder : option BedFinder) (gnomad_pop : string) (w : World) :
  let run := vcf_to_hap argv vreader samples ped_file (v_chrom, v_pos, v_ref, v_alt)
               flanks gnomad_readers gt_filter informative_only phased_in_all
               max_no_calls output_alleles min_other_allele_freq bfinder gnomad_pop w in
  (∃ head left mid right,
     written run.2 = written w ++ head ++ (RowLine <$> (left ++ mid ++ right)) ∧
     ((head = [] ∧ left = [] ∧ mid = [] ∧ right = [])
      ∨ head = [CommandLine argv;
                HeaderLine (header_cols samples output_alleles gnomad_readers)]) ∧
     Forall (λ r, length r = flank_width samples output_alleles gnomad_readers)
            (left ++ right) ∧
     ((mid = [] ∧ right = [])
      ∨ ∃ iv r, search_var vreader v_chrom v_pos v_ref v_alt = Ok iv
                ∧ mid = [r] ∧ index_row_for iv r
                ∧ length r = index_width samples gnomad_readers) ∧
     (run.1 = Ok tt → head ≠ [] ∧ mid ≠ []))
  ∧ (output_alleles = true →
     flank_width samples output_alleles gnomad_readers
     = index_width samples gnomad_readers + length samples)
  ∧ (output_alleles = false →
     flank_width samples output_alleles gnomad_readers
     = index_width samples gnomad_readers).
Proof.
  intros run.
  split; [| split; intros ->; unfold flank_width, index_width; lia].
  pattern run.
  match goal with |- ?P0 run => set (P := P0) end.
  assert (Habort : ∀ e w', written w' = written w → P (Raise e, w')).
  { intros e w' Hw'. subst P. cbv beta.
    exists [], [], [], []. simpl. rewrite app_nil_r.
    split; [exact Hw' |]. split; [left; done |].
    split; [constructor |]. split; [left; done | discriminate]. }
  subst run. unfold vcf_to_hap.
  destruct (check_samples vreader ped_file samples ∅) as [families | e] eqn:Hcs;
    [| apply Habort; reflexivity].
  rewrite (bind_lift_ok _ _ _ _ eq_refl), bind_log.
  set (w1 := mkWorld _ _ _).
  assert (Hw1 : written w1 = written w) by reflexivity. clearbody w1.
  destruct (search_var vreader v_chrom v_pos v_ref v_alt) as [iv | e] eqn:Hsv;
    [| apply Habort; exact Hw1].
  rewrite (bind_lift_ok _ _ _ _ eq_refl).
  destruct (bool_decide (length (ALLELES iv) ≠ 2)); [apply Habort; exact Hw1 |].
  unfold mbind at 1. unfold M_bind at 1.
  set (unrelateds := find_unrelateds ped_file (header_samples vreader) families []).
  pose proof (parse_haplotypes_same_written iv samples unrelateds ped_file gt_filter
                false true w1) as Hw2.
  pose proof (index_row_width iv samples unrelateds ped_file gt_filter w1) as Hshape.
  destruct (parse_haplotypes iv samples unrelateds ped_file gt_filter false true w1)
    as [[orow | e] w2]; unfold same_written in Hw2; simpl in Hw2;
    [| apply Habort; congruence].
  destruct orow as [row0 |]; [| apply Habort; congruence].
  destruct (Hshape w2 row0 eq_refl)
    as (m1 & m2 & m3 & irow & c1 & c2 & c3 & Hm1 & Hp3 & Hp2 & Hp1 & Hirow & Hlen).
  rewrite (bind_lift_ok _ _ _ _ Hm1).
  rewrite (bind_lift_ok _ _ _ _ Hp3). cbv beta iota.
  rewrite (bind_lift_ok _ _ _ _ Hp2). cbv beta iota.
  rewrite (bind_lift_ok _ _ _ _ Hp1). cbv beta iota.
  pose proof (scan_tail_widths argv (header_cols samples output_alleles gnomad_readers)
                vreader samples unrelateds ped_file v_chrom
                (if bool_decide (flanks < v_pos)%Z then (v_pos - flanks)%Z else 1%Z)
                (v_pos - 1) (v_pos + 1)
                (v_pos + flanks) gt_filter informative_only phased_in_all
                output_alleles max_no_calls gnomad_readers bfinder
                min_other_allele_freq gnomad_pop iv irow w2 Hirow Hlen) as Htail.
  cbv zeta in Htail.
  match type of Htail with context [written (?t).2] => change (P t) end.
  destruct Htail as (left & mid & right & Hwr & Hrows & Hmid & Hok).
  subst P. cbv beta.
  exists [CommandLine argv; HeaderLine (header_cols samples output_alleles gnomad_readers)],
    left, mid, right.
  split; [rewrite Hwr, Hw2, Hw1; reflexivity |].
  split; [right; reflexivity |].
  split; [exact Hrows |].
  split.
  { destruct Hmid as [Hmid | (r & -> & Hr)]; [left; exact Hmid |].
    right. exists iv, r. done. }
  intros Hrun; split; [discriminate | apply Hok; exact Hrun].
Qed.
End Widths.

(** ** The counts over the background samples *)

Lemma number_of_cons (P : string → bool) (u : string) (l : list string) :
  number_of P (u :: l) = (if P u then 1 else 0) + number_of P l.
Proof.
  unfold number_of. rewrite filter_cons.
  destruct (P u); [rewrite decide_True by reflexivity | rewrite decide_False by discriminate];
    reflexivity.
Qed.

(** One pass of the loop of lines 252-256. *)
Lemma count_unrelated_ok (gt_filter : GtFilter) (var : VcfRecord)
    (counts counts' : gmap string nat) (u : string) :
  count_unrelated gt_filter var counts u = Ok counts' →
  is_Some (GT var !! u)
  ∧ (counted gt_filter var u = true →
     ∃ k, background_key var u = Some k ∧ is_Some (counts !! k))
  ∧ ∀ k, counts' !! k
         = (λ n, n + (if counted_as gt_filter var k u then 1 else 0)) <$> counts !! k.
Proof.
  unfold count_unrelated, getitem, counted_as, counted, background_key.
  destruct (GT var !! u) as [ugt |]; [| discriminate]. simpl.
  intros Hrun. split; [eauto |].
  assert (Hsame : ∀ k, counts !! k = (λ n, n + 0) <$> counts !! k).
  { intros k. destruct (counts !! k); simpl; [f_equal; lia | reflexivity]. }
  destruct (all_called ugt) as [ns |]; simpl in *.
  2: { injection Hrun as <-. split; [discriminate | exact Hsame]. }
  destruct ns as [| a ns]; [discriminate |].
  unfold max_called in Hrun. cbn [mbind result_bind] in Hrun.
  destruct (gt_is_ok gt_filter var u (max_list (a :: ns))).
  2: { injection Hrun as <-. split; [discriminate | exact Hsame]. }
  destruct (counts !! gt_key (a :: ns)) as [n |] eqn:Hn; [| discriminate].
  simpl in Hrun. injection Hrun as <-. split.
  { intros _. exists (gt_key (a :: ns)). rewrite Hn. eauto. }
  intros k. cbn [andb]. destruct (decide (k = gt_key (a :: ns))) as [-> | Hk].
  - rewrite lookup_insert_eq, Hn, bool_decide_eq_true_2 by reflexivity.
    simpl. f_equal. lia.
  - rewrite lookup_insert_ne by congruence.
    rewrite bool_decide_eq_false_2 by congruence. exact (Hsame k).
Qed.

(** The whole loop. *)
Lemma count_fold (gt_filter : GtFilter) (var : VcfRecord) (us : list string)
    (counts counts' : gmap string nat) :
  foldR (count_unrelated gt_filter var) us counts = Ok counts' →
  (∀ u, u ∈ us → is_Some (GT var !! u))
  ∧ (∀ u, u ∈ us → counted gt_filter var u = true →
          ∃ k, background_key var u = Some k ∧ is_Some (counts !! k))
  ∧ ∀ k, counts' !! k
         = (λ n, n + number_of (counted_as gt_filter var k) us) <$> counts !! k.
Proof.
  revert counts. induction us as [| u us IH]; intros counts; simpl.
  - intros [= <-]. split; [intros u Hu; inversion Hu |].
    split; [intros u Hu; inversion Hu |].
    intros k. unfold number_of. simpl.
    destruct (counts !! k); simpl; [f_equal; lia | reflexivity].
  - intros Hrun. apply bind_ok_inv in Hrun as (c1 & Hstep & Hrun).
    apply count_unrelated_ok in Hstep as (Hgt & Hkey & Hc1).
    apply IH in Hrun as (Hgts & Hkeys & Hc').
    split; [| split].
    + intros x Hx. apply elem_of_cons in Hx as [-> | Hx]; auto.
    + intros x Hx Hcx. apply elem_of_cons in Hx as [-> | Hx]; [auto |].
      destruct (Hkeys x Hx Hcx) as (k & Hk & Hsome).
      exists k. split; [exact Hk |]. rewrite Hc1 in Hsome.
      destruct (counts !! k); [eauto | destruct Hsome; discriminate].
    + intros k. rewrite Hc', Hc1, number_of_cons.
      destruct (counts !! k); simpl; [f_equal; lia | reflexivity].
Qed.

Lemma sum_values_insert (m : gmap string nat) (k : string) (n : nat) :
  m !! k = None → sum_values (<[k:=n]> m) = n + sum_values m.
Proof.
  intros Hk. unfold sum_values.
  rewrite (map_to_list_insert m k n Hk). reflexivity.
Qed.

Lemma sum_values_three (a b c : nat) :
  sum_values (<["0/0":=a]> (<["0/1":=b]> (<["1/1":=c]> ∅))) = a + b + c.
Proof.
  rewrite !sum_values_insert; [unfold sum_values; rewrite map_to_list_empty; simpl; lia
                              | reflexivity | reflexivity | reflexivity].
Qed.

(** A counted sample is counted under exactly one text. *)
Lemma number_of_counted (gt_filter : GtFilter) (var : VcfRecord) (us : list string) :
  (∀ u, u ∈ us → counted gt_filter var u = true →
        ∃ k, background_key var u = Some k ∧ k ∈ ["0/0"; "0/1"; "1/1"]) →
  number_of (counted gt_filter var) us
  = number_of (counted_as gt_filter var "0/0") us
    + number_of (counted_as gt_filter var "0/1") us
    + number_of (counted_as gt_filter var "1/1") us.
Proof.
  induction us as [| u us IH]; intros Hkeys; [reflexivity |].
  rewrite !number_of_cons, IH by (intros x Hx; apply Hkeys; right; exact Hx).
  unfold counted_as. destruct (counted gt_filter var u) eqn:Hc; [| simpl; lia].
  destruct (Hkeys u ltac:(left) Hc) as (k & -> & Hk). cbn [andb].
  repeat (apply elem_of_cons in Hk as [-> | Hk];
          [repeat case_bool_decide; try discriminate; try congruence; lia |]).
  inversion Hk.
Qed.

(** The counts [summarise] works with, and the two cells it makes of them. *)
Lemma summarise_background (gt_filter : GtFilter) (var : VcfRecord)
    (samples unrelateds : list string) (output_alleles : bool) (st : Locals) (r : row) :
  summarise gt_filter var samples unrelateds output_alleles st = Ok r →
  ∃ counts het hom front tail,
    foldR (count_unrelated gt_filter var) unrelateds init_counts = Ok counts ∧
    counts !! "0/1" = Some het ∧ counts !! "1/1" = Some hom ∧
    r = front
        ++ [CInt (Z.of_nat (2 * sum_values counts));
            if decide (2 * sum_values counts = 0) then CInt 0
            else CRatio (het + 2 * hom) (2 * sum_values counts)]
        ++ tail ∧
    length front = 8 + length (if output_alleles
                               then concat ((λ al, [CStr al.1; CStr al.2]) <$> alleles st)
                               else CStr <$> calls st) ∧
    length tail = 3.
Proof.
  intros Hrun. unfold summarise in Hrun.
  apply bind_ok_inv in Hrun as (counts & Hcounts & Hrun).
  apply bind_ok_inv in Hrun as (n_compat & _ & Hrun).
  apply bind_ok_inv in Hrun as (hap & _ & Hrun).
  apply bind_ok_inv in Hrun as (het & Hhet & Hrun).
  apply bind_ok_inv in Hrun as (hom & Hhom & Hrun).
  injection Hrun as <-.
  unfold getitem in Hhet, Hhom.
  destruct (counts !! "0/1") as [het' |] eqn:H01; [| discriminate].
  destruct (counts !! "1/1") as [hom' |] eqn:H11; [| discriminate].
  injection Hhet as ->. injection Hhom as ->.
  exists counts, het, hom,
    ([CStr (CHROM var); CInt (POS var); CStr (ID var); CStr (REF var); CStr (ALT var);
      CStr hap; CInt (Z.of_nat (in_phase_count (phased_values st)));
      CInt (Z.of_nat n_compat)]
     ++ (if output_alleles
         then concat ((λ al, [CStr al.1; CStr al.2]) <$> alleles st)
         else CStr <$> calls st)),
    [CBool (truthy (phased_values st));
     CBool (bool_decide (length (phased_values st) = length samples));
     CInt (Z.of_nat (size (sample_no_calls st)))].
  split; [exact Hcounts |]. split; [exact H01 |]. split; [exact H11 |].
  split; [rewrite <- app_assoc; reflexivity |].
  split; [rewrite length_app; reflexivity | reflexivity].
Qed.

(** X19. In every row [parse_haplotypes] returns, OTHER_N_ALLELES is
    twice the number of background samples that are counted, those whose
    genotype has no missing allele and passes the filter, and ALT_MAF is 0
    when there is none and otherwise the number counted as 0/1 plus twice
    the number counted as 1/1, over OTHER_N_ALLELES.  A row is returned
    only if every background sample has a genotype and every counted one
    has the genotype 0/0, 0/1 or 1/1. *)
Theorem background_counts (var : VcfRecord) (samples unrelateds : list string)
    (ped_file : PedFile) (gt_filter : GtFilter) (output_alleles index_var : bool)
    (w w' : World) (r : row) :
  parse_haplotypes var samples unrelateds ped_file gt_filter output_alleles index_var w
  = (Ok (Some r), w') →
  let n := number_of (counted gt_filter var) unrelateds in
  let het := number_of (counted_as gt_filter var "0/1") unrelateds in
  let hom := number_of (counted_as gt_filter var "1/1") unrelateds in
  (∀ u, u ∈ unrelateds → is_Some (GT var !! u))
  ∧ (∀ u, u ∈ unrelateds → counted gt_filter var u = true →
          ∃ k, background_key var u = Some k ∧ k ∈ ["0/0"; "0/1"; "1/1"])
  ∧ het + hom ≤ n
  ∧ ∃ front tail,
      r = front
          ++ [CInt (Z.of_nat (2 * n));
              if decide (n = 0) then CInt 0 else CRatio (het + 2 * hom) (2 * n)]
          ++ tail
      ∧ length front
        = 8 + (if output_alleles then 2 * length samples else length samples)
      ∧ length tail = 3.
Proof.
  intros Hrun n het hom.
  apply parse_haplotypes_row in Hrun as (st & a0 & a1 & _ & Hloop & _ & Hsum).
  apply phase_samples_loop_invariant in Hloop as (Hcalls & Halleles & _).
  apply summarise_background in Hsum
    as (counts & het' & hom' & front & tail & Hfold & H01 & H11 & -> & Hfront & Htail).
  apply count_fold in Hfold as (Hgts & Hkeys & Hcounts).
  assert (Hthree : ∀ u, u ∈ unrelateds → counted gt_filter var u = true →
            ∃ k, background_key var u = Some k ∧ k ∈ ["0/0"; "0/1"; "1/1"]).
  { intros u Hu Hc. destruct (Hkeys u Hu Hc) as (k & Hk & Hsome).
    exists k. split; [exact Hk |]. unfold init_counts in Hsome.
    destruct (decide (k = "0/0")) as [-> | H0]; [left |].
    destruct (decide (k = "0/1")) as [-> | H1]; [right; left |].
    destruct (decide (k = "1/1")) as [-> | H2]; [right; right; left |].
    rewrite !lookup_insert_ne, lookup_empty in Hsome by congruence.
    destruct Hsome; discriminate. }
  pose proof (number_of_counted gt_filter var unrelateds Hthree) as Hn.
  fold n het hom in Hn.
  rewrite Hcounts in H01, H11. simpl in H01, H11.
  injection H01 as <-. injection H11 as <-. fold het hom.
  assert (Hsum : sum_values counts = n).
  { replace counts with
      (<["0/0":=number_of (counted_as gt_filter var "0/0") unrelateds]>
         (<["0/1":=het]> (<["1/1":=hom]> (∅ : gmap string nat)))).
    - rewrite sum_values_three. lia.
    - apply map_eq. intros k. rewrite Hcounts. unfold init_counts.
      destruct (decide (k = "0/0")) as [-> | H0]; [reflexivity |].
      destruct (decide (k = "0/1")) as [-> | H1]; [reflexivity |].
      destruct (decide (k = "1/1")) as [-> | H2]; [reflexivity |].
      rewrite !lookup_insert_ne, !lookup_empty by congruence. reflexivity. }
  split; [exact Hgts |]. split; [exact Hthree |]. split; [lia |].
  exists front, tail. rewrite Hsum.
  split.
  { destruct (decide (n = 0)) as [Hz | Hz].
    - rewrite decide_True by lia. reflexivity.
    - rewrite decide_False by lia. reflexivity. }
  split; [| exact Htail].
  rewrite Hfront. destruct output_alleles.
  - rewrite length_allele_cells, Halleles. reflexivity.
  - rewrite length_fmap, Hcalls. reflexivity.
Qed.

Lemma background_counts_witness :
  let run := parse_haplotypes background_site ["child"] ["u1"; "u2"; "u3"]
               Example.ped_file Example.gt_filter false false Example.empty_world in
  let r := [CStr "1"; CInt 1300; CStr "rs"; CStr "A"; CStr "G"; CStr "G"; CInt 1; CInt 1;
            CStr "G|A"; CInt 4; CRatio 3 4; CBool true; CBool true; CInt 0] in
  run = (Ok (Some r), run.2)
  ∧ number_of (counted Example.gt_filter background_site) ["u1"; "u2"; "u3"] = 2
  ∧ ∃ front tail,
      r = front
          ++ [CInt (Z.of_nat
                      (2 * number_of (counted Example.gt_filter background_site)
                             ["u1"; "u2"; "u3"]));
              if decide (number_of (counted Example.gt_filter background_site)
                           ["u1"; "u2"; "u3"] = 0)
              then CInt 0
              else CRatio
                     (number_of (counted_as Example.gt_filter background_site "0/1")
                        ["u1"; "u2"; "u3"]
                      + 2 * number_of (counted_as Example.gt_filter background_site "1/1")
                              ["u1"; "u2"; "u3"])
                     (2 * number_of (counted Example.gt_filter background_site)
                            ["u1"; "u2"; "u3"])]
          ++ tail
      ∧ length front = 8 + length ["child"]
      ∧ length tail = 3.
Proof.
  intros run r.
  assert (Hrun : run = (Ok (Some r), run.2)) by (vm_compute; reflexivity).
  split; [exact Hrun |]. split; [vm_compute; reflexivity |].
  exact (proj2 (proj2 (proj2
           (background_counts background_site ["child"] ["u1"; "u2"; "u3"] Example.ped_file
              Example.gt_filter false false Example.empty_world run.2 r Hrun)))).
Defined.

(** ** What a step of the region walk does with the row of the engine *)

Section StepDecision.
Context {F : Type} `{Float F}.

(** X20. For a variant outside the excluded regions for which
    [parse_haplotypes] returns a row, a step of the region walk removes
    the three trailing cells and decides on them.  When the number of
    no-calls is within the ceiling and the policy on phasing is met, the
    step is [output_row] on the trimmed row: the first counter goes up by
    one and the second by what [output_row] returns.  Otherwise the step
    logs one DEBUG record, writes nothing and only the first counter goes
    up. *)
Theorem region_step_decision (samples unrelateds : list string) (ped_file : PedFile)
    (gt_filter : GtFilter) (informative_only phased_in_all output_alleles : bool)
    (max_no_calls : option Z) (gnomad_readers : list GnomadFilter)
    (avoid_bed : option BedFinder) (min_other_allele_freq : option F)
    (gnomad_pop : string) (n k : nat) (var : VcfRecord) (w w2 : World)
    (body : row) (informative all_phased : bool) (no_calls : nat) :
  (∀ b, avoid_bed = Some b → bed_fetch b (CHROM var) (POS var) (SPAN var) = false) →
  parse_haplotypes var samples unrelateds ped_file gt_filter output_alleles false
    (after_progress n k var w)
  = (Ok (Some (body ++ [CBool informative; CBool all_phased; CInt (Z.of_nat no_calls)])),
     w2) →
  let step := region_step samples unrelateds ped_file gt_filter informative_only
                phased_in_all output_alleles max_no_calls gnomad_readers avoid_bed
                min_other_allele_freq gnomad_pop (n, k) var w in
  if passes_policies informative_only phased_in_all max_no_calls informative all_phased
       no_calls
  then
    let out := output_row body var gnomad_readers min_other_allele_freq (Some samples)
                 gnomad_pop w2 in
    step = (match out.1 with Ok j => Ok (S n, k + j) | Raise e => Raise e end, out.2)
  else
    ∃ d, level_of d = DEBUG
         ∧ step = (Ok (S n, k),
                   mkWorld (reverse_allele_order w2) (logged w2 ++ [d]) (written w2)).
Proof.
  intros Hbed Heng step.
  assert (Hstep : step
                  = region_step samples unrelateds ped_file gt_filter informative_only
                      phased_in_all output_alleles max_no_calls gnomad_readers avoid_bed
                      min_other_allele_freq gnomad_pop (n, k) var w) by reflexivity.
  clearbody step. unfold region_step in Hstep.
  unfold mbind at 1 in Hstep. unfold M_bind at 1 in Hstep.
  assert (Hpre : (if bool_decide (n `mod` 100 = 0) && negb (bool_decide (n = 0))
                  then log (Progress n k (CHROM var) (POS var)) else mret tt) w
                 = (Ok tt, after_progress n k var w)).
  { unfold after_progress. destruct (_ && _); reflexivity. }
  rewrite Hpre in Hstep. clear Hpre.
  assert (Hb : match avoid_bed with
               | Some b => bed_fetch b (CHROM var) (POS var) (SPAN var)
               | None => false
               end = false).
  { destruct avoid_bed as [b |]; [apply Hbed |]; reflexivity. }
  rewrite Hb in Hstep. clear Hb.
  unfold mbind at 1 in Hstep. unfold M_bind at 1 in Hstep.
  rewrite Heng in Hstep. cbv beta iota in Hstep.
  pose proof Heng as Hlay.
  apply parse_haplotypes_layout in Hlay
    as (hap & n_in & n_compat & cols & an & af & inf & allp & nc & Hrow0 & _).
  assert (Hbody : body = [CStr (CHROM var); CInt (POS var); CStr (ID var); CStr (REF var);
                          CStr (ALT var); CStr hap; CInt (Z.of_nat n_in);
                          CInt (Z.of_nat n_compat)] ++ cols ++ [an; af]).
  { change [an; af; CBool inf; CBool allp; CInt (Z.of_nat nc)]
      with ([an; af] ++ [CBool inf; CBool allp; CInt (Z.of_nat nc)]) in Hrow0.
    rewrite !app_assoc in Hrow0.
    apply app_inj_2 in Hrow0 as [Hrow0 _]; [| reflexivity].
    rewrite Hrow0, <- !app_assoc. reflexivity. }
  clear Hrow0.
  change [CBool informative; CBool all_phased; CInt (Z.of_nat no_calls)]
    with ([CBool informative] ++ [CBool all_phased] ++ [CInt (Z.of_nat no_calls)])
    in Hstep.
  rewrite !app_assoc in Hstep.
  rewrite (bind_lift_ok _ _ _ _ (pop_snoc _ _)) in Hstep. cbv beta iota in Hstep.
  rewrite (bind_lift_ok _ _ _ _ (pop_snoc _ _)) in Hstep. cbv beta iota in Hstep.
  rewrite (bind_lift_ok _ _ _ _ (pop_snoc _ _)) in Hstep. cbv beta iota in Hstep.
  assert (H0 : index body 0 = Ok (CStr (CHROM var))) by (rewrite Hbody; reflexivity).
  assert (H1 : index body 1 = Ok (CInt (POS var))) by (rewrite Hbody; reflexivity).
  clear Hbody.
  assert (Hout : (k0 ← output_row body var gnomad_readers min_other_allele_freq
                        (Some samples) gnomad_pop; mret (S n, k + k0)) w2
                 = (match (output_row body var gnomad_readers min_other_allele_freq
                             (Some samples) gnomad_pop w2).1 with
                    | Ok j => Ok (S n, k + j)
                    | Raise e => Raise e
                    end,
                    (output_row body var gnomad_readers min_other_allele_freq
                       (Some samples) gnomad_pop w2).2)).
  { unfold mbind, M_bind.
    destruct (output_row body var gnomad_readers min_other_allele_freq (Some samples)
                gnomad_pop w2) as [[j | e] w3]; reflexivity. }
  assert (Hskip : ∀ mk : cell → cell → logrecord,
            (∀ c0 c1, level_of (mk c0 c1) = DEBUG) →
            ∃ d, level_of d = DEBUG
                 ∧ (c0 ← lift (index body 0); c1 ← lift (index body 1);
                    _ ← log (mk c0 c1); mret (S n, k)) w2
                   = (Ok (S n, k),
                      mkWorld (reverse_allele_order w2) (logged w2 ++ [d]) (written w2))).
  { intros mk Hmk. exists (mk (CStr (CHROM var)) (CInt (POS var))).
    split; [apply Hmk |].
    rewrite (bind_lift_ok _ _ _ _ H0), (bind_lift_ok _ _ _ _ H1). reflexivity. }
  unfold passes_policies.
  destruct max_no_calls as [mx |].
  - unfold cell_gt in Hstep. rewrite (bind_lift_ok _ _ _ _ eq_refl) in Hstep.
    destruct (decide (Z.of_nat no_calls ≤ mx)%Z) as [Hle | Hgt].
    + rewrite (bool_decide_eq_false_2 (mx < Z.of_nat no_calls)%Z) in Hstep by lia.
      rewrite (bool_decide_eq_true_2 (Z.of_nat no_calls ≤ mx)%Z) by exact Hle.
      cbn [andb]. cbn [truth] in Hstep.
      destruct phased_in_all;
        [destruct all_phased | destruct informative_only; [destruct informative |]];
        rewrite Hstep; first [exact Hout | apply Hskip; reflexivity].
    + rewrite (bool_decide_eq_true_2 (mx < Z.of_nat no_calls)%Z) in Hstep by lia.
      rewrite (bool_decide_eq_false_2 (Z.of_nat no_calls ≤ mx)%Z) by exact Hgt.
      cbn [andb]. rewrite Hstep. apply Hskip. reflexivity.
  - unfold mbind at 1 in Hstep. unfold M_bind at 1 in Hstep.
    cbn [mret M_ret truth] in Hstep. cbv beta iota in Hstep. cbn [andb].
    destruct phased_in_all;
      [destruct all_phased | destruct informative_only; [destruct informative |]];
      rewrite Hstep; first [exact Hout | apply Hskip; reflexivity].
Qed.
End StepDecision.

Lemma region_step_decision_witness :
  let w := Example.empty_world in
  let body := [CStr "1"; CInt 1200; CStr "rs"; CStr "A"; CStr "G"; CStr "G"; CInt 1; CInt 2;
               CStr "G|A"; CStr "NoCall"; CInt 0; CInt 0] in
  parse_haplotypes Example.sib_missing ["child"; "sib"] [] Example.ped_file
    Example.gt_filter false false (after_progress 0 0 Example.sib_missing w)
  = (Ok (Some (body ++ [CBool true; CBool false; CInt (Z.of_nat 1)])),
     (parse_haplotypes Example.sib_missing ["child"; "sib"] [] Example.ped_file
        Example.gt_filter false false (after_progress 0 0 Example.sib_missing w)).2)
  ∧ passes_policies false false (Some 0%Z) true false 1 = false
  ∧ ∃ d, level_of d = DEBUG
         ∧ written (region_step ["child"; "sib"] [] Example.ped_file Example.gt_filter
                      false false false (Some 0%Z) [] None (None : option Q) "POPMAX"
                      (0, 0) Example.sib_missing w).2 = []
         ∧ d ∈ logged (region_step ["child"; "sib"] [] Example.ped_file Example.gt_filter
                         false false false (Some 0%Z) [] None (None : option Q) "POPMAX"
                         (0, 0) Example.sib_missing w).2.
Proof.
  intros w body.
  assert (Heng : parse_haplotypes Example.sib_missing ["child"; "sib"] [] Example.ped_file
                   Example.gt_filter false false (after_progress 0 0 Example.sib_missing w)
                 = (Ok (Some (body ++ [CBool true; CBool false; CInt (Z.of_nat 1)])),
                    (parse_haplotypes Example.sib_missing ["child"; "sib"] []
                       Example.ped_file Example.gt_filter false false
                       (after_progress 0 0 Example.sib_missing w)).2))
    by (vm_compute; reflexivity).
  split; [exact Heng |]. split; [reflexivity |].
  destruct (region_step_decision ["child"; "sib"] [] Example.ped_file Example.gt_filter
              false false false (Some 0%Z) [] None (None : option Q) "POPMAX" 0 0
              Example.sib_missing w _ body true false 1
              ltac:(intros b Hb; discriminate Hb) Heng)
    as (d & Hd & Hstep).
  exists d. split; [exact Hd |]. rewrite Hstep. simpl.
  split; [reflexivity |]. apply elem_of_app. right. left.
Defined.

(** ** The output, the log and the orientation memory only grow *)

#[global] Instance grows_preorder (S : list string) : PreOrder (grows S).
Proof.
  split.
  - intros w. repeat split; auto; reflexivity.
  - intros w1 w2 w3 (Hw12 & Hl12 & Hm12 & Hf12) (Hw23 & Hl23 & Hm23 & Hf23).
    split; [etrans; eassumption |]. split; [etrans; eassumption |].
    split; [auto |]. intros s Hs. rewrite Hf23, Hf12 by exact Hs. reflexivity.
Qed.

Lemma log_grows (S : list string) (r : logrecord) : preserves (grows S) (log r).
Proof.
  intros w. split; [reflexivity |]. split; [exists [r]; reflexivity |]. split; auto.
Qed.

Lemma write_grows (S : list string) (l : line) : preserves (grows S) (write l).
Proof.
  intros w. split; [exists [l]; reflexivity |]. split; [reflexivity |]. split; auto.
Qed.

Lemma read_flag_grows (S : list string) (s : string) : preserves (grows S) (read_flag s).
Proof.
  intros w. pose proof (read_flag_same_flags s w) as Hsame.
  destruct (read_flag_frame s w) as [Hl Hw].
  split; [rewrite Hw; reflexivity |]. split; [rewrite Hl; reflexivity |].
  split; [intros s' Hs'; rewrite Hsame; exact Hs' | intros s' _; apply Hsame].
Qed.

Lemma set_flag_grows (S : list string) (s : string) :
  s ∈ S → preserves (grows S) (set_flag s).
Proof.
  intros Hs w. split; [reflexivity |]. split; [reflexivity |]. simpl. split.
  - intros s' Hs'. destruct (decide (s = s')) as [<- | Hne].
    + apply flag_insert.
    + rewrite flag_insert_ne by exact Hne. exact Hs'.
  - intros s' Hs'. apply flag_insert_ne. intros ->. contradiction.
Qed.

Lemma phase_sample_grows (S : list string) (ped_file : PedFile) (gt_filter : GtFilter)
    (var : VcfRecord) (index_var : bool) (st : Locals) (s : string) :
  s ∈ S → preserves (grows S) (phase_sample ped_file gt_filter var index_var st s).
Proof.
  intros Hs. unfold phase_sample, phase_het, report_phase.
  pose proof (unphased_preserves (grows S) var).
  pose proof (log_grows S). pose proof (read_flag_grows S).
  pose proof (set_flag_grows S s Hs).
  preserves_auto.
Qed.

Lemma foldM_grows {A} (S : list string) (f : A → string → M A) (l : list string) (a : A) :
  (∀ a x, x ∈ l → preserves (grows S) (f a x)) → preserves (grows S) (foldM f l a).
Proof.
  revert a. induction l as [| x l IH]; intros a Hf; simpl.
  - apply preserves_ret. typeclasses eauto.
  - apply preserves_bind; [typeclasses eauto | apply Hf; left |].
    intros a'. apply IH. intros a'' y Hy. apply Hf. right. exact Hy.
Qed.

Lemma parse_haplotypes_grows (var : VcfRecord) (samples unrelateds : list string)
    (ped_file : PedFile) (gt_filter : GtFilter) (output_alleles index_var : bool) :
  preserves (grows samples)
    (parse_haplotypes var samples unrelateds ped_file gt_filter output_alleles index_var).
Proof.
  unfold parse_haplotypes.
  assert (Hloop : preserves (grows samples)
                    (phase_samples ped_file gt_filter var index_var samples)).
  { unfold phase_samples. apply foldM_grows. intros st s Hs.
    apply phase_sample_grows. exact Hs. }
  pose proof (log_grows samples).
  preserves_auto.
Qed.

(** X21. Whatever its outcome, a call of [parse_haplotypes], on the index
    variant or on any other, writes nothing to the output, only adds
    records to the log, never clears an orientation flag that was set, and
    leaves the flag of every sample that is not a sample of interest as it
    was. *)
Theorem engine_never_clears_flags (var : VcfRecord) (samples unrelateds : list string)
    (ped_file : PedFile) (gt_filter : GtFilter) (output_alleles index_var : bool)
    (w : World) :
  let run := parse_haplotypes var samples unrelateds ped_file gt_filter output_alleles
               index_var w in
  written run.2 = written w
  ∧ logged w `prefix_of` logged run.2
  ∧ (∀ s, flag (reverse_allele_order w) s = true
          → flag (reverse_allele_order run.2) s = true)
  ∧ (∀ s, s ∉ samples → flag (reverse_allele_order run.2) s
                        = flag (reverse_allele_order w) s).
Proof.
  intros run.
  split; [apply (parse_haplotypes_same_written var samples unrelateds ped_file gt_filter
                   output_alleles index_var w) |].
  apply (parse_haplotypes_grows var samples unrelateds ped_file gt_filter output_alleles
           index_var w).
Qed.

Section RunGrows.
Context {F : Type} `{Float F}.

Lemma output_row_grows (S : list string) (r : row) (var : VcfRecord)
    (gnomad_readers : list GnomadFilter) (min_af : option F)
    (samples : option (list string)) (gnomad_pop : string) :
  preserves (grows S) (output_row r var gnomad_readers min_af samples gnomad_pop).
Proof.
  pose proof (log_grows S). pose proof (write_grows S).
  assert (Hann : ∀ readers mx,
            preserves (grows S) (annotate r var min_af samples gnomad_pop readers mx)).
  { induction readers as [| reader readers IH]; intros mx; simpl.
    - preserves_auto.
    - assert (∀ af, preserves (grows S) (passes_min_af r var min_af samples af))
        by (intros af; unfold passes_min_af; preserves_auto).
      preserves_auto. }
  unfold output_row. preserves_auto.
Qed.

Lemma parse_region_grows (vcf : VcfReader) (samples unrelateds : list string)
    (ped_file : PedFile) (chrom : string) (start end_ : Z) (gt_filter : GtFilter)
    (informative_only phased_in_all output_alleles : bool)
    (max_no_calls : option Z) (gnomad_readers : list GnomadFilter)
    (avoid_bed : option BedFinder) (min_other_allele_freq : option F)
    (gnomad_pop : string) :
  preserves (grows samples)
    (parse_region vcf samples unrelateds ped_file chrom start end_ gt_filter
       informative_only phased_in_all output_alleles max_no_calls gnomad_readers
       avoid_bed min_other_allele_freq gnomad_pop).
Proof.
  unfold parse_region, region_step.
  pose proof (log_grows samples).
  pose proof (λ var, parse_haplotypes_grows var samples unrelateds ped_file gt_filter
                       output_alleles false).
  pose proof (λ r var, output_row_grows samples r var gnomad_readers
                         min_other_allele_freq (Some samples) gnomad_pop).
  preserves_auto.
Qed.

(** X22. Whatever the outcome of a run of [vcf_to_hap], the output and
    the log it ends with are those it started with, followed by what it
    has added; no orientation flag that was set has been cleared; and the
    flag of every sample that is not a sample of interest is as it was. *)
Theorem run_only_appends (argv : list string) (vreader : VcfReader)
    (samples : list string) (ped_file : PedFile)
    (variant : string * Z * string * string) (flanks : Z)
    (gnomad_readers : list GnomadFilter) (gt_filter : GtFilter)
    (informative_only phased_in_all : bool) (max_no_calls : option Z)
    (output_alleles : bool) (min_other_allele_freq : option F)
    (bfinder : option BedFinder) (gnomad_pop : string) (w : World) :
  let run := vcf_to_hap argv vreader samples ped_file variant flanks gnomad_readers
               gt_filter informative_only phased_in_all max_no_calls output_alleles
               min_other_allele_freq bfinder gnomad_pop w in
  written w `prefix_of` written run.2
  ∧ logged w `prefix_of` logged run.2
  ∧ (∀ s, flag (reverse_allele_order w) s = true
          → flag (reverse_allele_order run.2) s = true)
  ∧ (∀ s, s ∉ samples → flag (reverse_allele_order run.2) s
                        = flag (reverse_allele_order w) s).
Proof.
  intros run. subst run.
  enough (Hrun : preserves (grows samples)
                   (vcf_to_hap argv vreader samples ped_file variant flanks gnomad_readers
                      gt_filter informative_only phased_in_all max_no_calls
                      output_alleles min_other_allele_freq bfinder gnomad_pop))
    by exact (Hrun w).
  unfold vcf_to_hap. destruct variant as [[[v_chrom v_pos] v_ref] v_alt].
  pose proof (log_grows samples). pose proof (write_grows samples).
  pose proof (λ var u b, parse_haplotypes_grows var samples u ped_file gt_filter false b).
  pose proof (λ r var ss, output_row_grows samples r var gnomad_readers
                            (None : option F) ss gnomad_pop).
  pose proof (λ u s e, parse_region_grows vreader samples u ped_file v_chrom s e gt_filter
                         informative_only phased_in_all output_alleles max_no_calls
                         gnomad_readers bfinder min_other_allele_freq gnomad_pop).
  preserves_auto.
Qed.
End RunGrows.
